(** * PayD: contract upgrade orchestrator and ledger-event indexer

    A shallow embedding of
      - backend/src/services/contractUpgradeService.ts
      - backend/src/services/contractEventIndexerService.ts
      - backend/src/controllers/contractUpgradeController.ts
      - the tables of migration 014 (contract_registry,
        contract_upgrade_logs) and of the indexer's ensureSchema.

    Conventions of the model.
      - The relational store is a record of finite maps and lists; every
        [pool.query] is one atomic update of that record.  A statement fails
        through a constraint of the schema (CHECK, primary key), through a
        numeric parameter that is outside the range of its column, or
        because the server cannot give its parameters a type.  Column widths
        are outside the model, and so are connection faults, except for the
        queries of the migration steps, whose failure the environment
        decides.
      - An [async] method is the sequence of its statements.  The
        computation that models it is a call that runs alone: no statement
        of another request falls between two of its own.  The process
        serves requests concurrently, so where the code reads in one
        statement what it relies on in the next ([executeUpgrade] reads the
        status, then writes it without a condition), the two parts are
        given as computations of their own and the interleaving is written
        with them.
      - Calls that leave the process (Soroban RPC, the Stellar SDK, fetch)
        are answered by an environment record [Env] of oracles, each of
        which either returns or throws.
      - An [async] method is a computation in a state-and-exception monad
        over the store.  Each computation also appends to a trace of the
        effects it performed, so that orderings ("before any RPC") can be
        stated.
      - A JavaScript string is held by its UTF-8 bytes.  Only the ASCII
        range is interpreted (hex digits, case mapping), except by [trim],
        which knows the encodings of the white space that JavaScript
        strips. *)

From Stdlib Require Import ZArith String Ascii List Bool Lia.
From stdpp Require Import base option gmap strings list pretty.

Import ListNotations.
Local Open Scope string_scope.
Local Open Scope Z_scope.

(* ===================================================================== *)
(** ** Strings: the fragment of the JavaScript string API the code uses   *)
(* ===================================================================== *)

Module Js.

Definition is_digit (c : ascii) : bool :=
  let n := nat_of_ascii c in (48 <=? n)%nat && (n <=? 57)%nat.

Definition is_lower_hex_letter (c : ascii) : bool :=
  let n := nat_of_ascii c in (97 <=? n)%nat && (n <=? 102)%nat.

Definition is_upper_hex_letter (c : ascii) : bool :=
  let n := nat_of_ascii c in (65 <=? n)%nat && (n <=? 70)%nat.

(** The character class [[0-9a-f]]. *)
Definition is_lower_hex (c : ascii) : bool :=
  is_digit c || is_lower_hex_letter c.

(** The character class [[0-9a-f]] under the [i] flag. *)
Definition is_hex_ci (c : ascii) : bool :=
  is_lower_hex c || is_upper_hex_letter c.

Fixpoint all_chars (p : ascii -> bool) (s : string) : bool :=
  match s with
  | EmptyString => true
  | String c t => p c && all_chars p t
  end.

(** [String.prototype.toLowerCase] on the ASCII range. *)
Definition lower_char (c : ascii) : ascii :=
  let n := nat_of_ascii c in
  if (65 <=? n)%nat && (n <=? 90)%nat then ascii_of_nat (n + 32) else c.

Fixpoint toLowerCase (s : string) : string :=
  match s with
  | EmptyString => EmptyString
  | String c t => String (lower_char c) (toLowerCase t)
  end.

(** [hay.includes(needle)]. *)
Fixpoint includes (needle hay : string) : bool :=
  String.prefix needle hay ||
  match hay with
  | EmptyString => false
  | String _ t => includes needle t
  end.

(** Truthiness of a possibly missing string: [undefined], [null] and the
    empty string are falsy. *)
Definition truthy (o : option string) : bool :=
  match o with
  | Some s => negb (String.eqb s "")
  | None => false
  end.

(** [o || d] for a possibly missing string. *)
Definition or_else (o : option string) (d : string) : string :=
  match o with
  | Some s => if String.eqb s "" then d else s
  | None => d
  end.

(** [String(n)] and template interpolation of an integer. *)
Definition number_to_string (n : Z) : string := pretty n.

End Js.

(** [/^[0-9a-f]{64}$/i.test(s)]: both the service's [WASM_HASH_REGEX] and
    the controller's schema use this expression, flag included. *)
Definition WASM_HASH_REGEX_test (s : string) : bool :=
  (String.length s =? 64)%nat && Js.all_chars Js.is_hex_ci s.

(** The CHECK of the schema, [col ~ '^[0-9a-f]{64}$'], which is case
    sensitive. *)
Definition pg_wasm_hash_check (s : string) : bool :=
  (String.length s =? 64)%nat && Js.all_chars Js.is_lower_hex s.

(* ===================================================================== *)
(** ** Data model                                                          *)
(* ===================================================================== *)

Inductive UpgradeStatus :=
| pending | simulated | confirmed | executing | completed | failed | cancelled.

Inductive StepStatus :=
| step_pending | step_running | step_completed | step_failed.

#[global] Instance UpgradeStatus_eq_dec : EqDecision UpgradeStatus.
Proof. solve_decision. Defined.

#[global] Instance StepStatus_eq_dec : EqDecision StepStatus.
Proof. solve_decision. Defined.

(** The status as the text stored in the [status] column. *)
Definition status_text (s : UpgradeStatus) : string :=
  match s with
  | pending => "pending"
  | simulated => "simulated"
  | confirmed => "confirmed"
  | executing => "executing"
  | completed => "completed"
  | failed => "failed"
  | cancelled => "cancelled"
  end.

Record ContractRecord := mkContractRecord {
  cr_name : string;
  cr_network : string;
  contract_id : string;
  current_wasm_hash : string;
  version : string;
  last_upgraded_at : option Z;
  last_upgraded_by : option string;
}.

Record MigrationStep := mkMigrationStep {
  step_id : string;
  step_name : string;
  step_status : StepStatus;
  step_message : option string;
}.

Record UpgradeSimulationResult := mkSimulation {
  success : bool;
  estimatedFee : string;
  estimatedFeeXlm : string;
  cpuInstructions : string;
  memoryBytes : string;
  latestLedger : Z;
  transactionData : option string;
  warnings : list string;
  sim_error : option string;
}.

Record UpgradeLog := mkUpgradeLog {
  registry_id : Z;
  previous_wasm_hash : string;
  new_wasm_hash : string;
  status : UpgradeStatus;
  simulation_result : option UpgradeSimulationResult;
  tx_hash : option string;
  migration_steps : list MigrationStep;
  initiated_by : string;
  notes : option string;
  error_message : option string;
  completed_at : option Z;
}.

#[global] Instance MigrationStep_eq_dec : EqDecision MigrationStep.
Proof. solve_decision. Defined.

(** A row of [contract_events]. *)
(** An event as the getEvents RPC returns it ([RpcContractEvent]); the
    ledger fields are taken to hold integers. *)
Record RpcContractEvent := mkRpcEvent {
  rpc_id : option string;
  rpc_type : option string;
  rpc_txHash : option string;
  rpc_ledger : option Z;
  rpc_ledgerSequence : option Z;
  rpc_contractId : option string;
  rpc_topic : option (list string);
}.

(** A row of [contract_events]. *)
Record ContractEventRow := mkEventRow {
  row_id : Z;
  event_id : string;
  ev_contract_id : string;
  event_type : string;
  payload : RpcContractEvent;
  ledger_sequence : Z;
  ev_tx_hash : option string;
  ev_created_at : Z;
}.

(** Thrown values.  [Error] is a JavaScript [Error] with its message,
    [ZodError] a failed schema parse (itself an [Error]; of its message
    only the text of the first issue is kept), [NonError] any other thrown
    value. *)
Inductive Exn :=
| Error (message : string)
| ZodError (message : string)
| NonError.

(** [e instanceof Error ? e.message : dflt]. *)
Definition message_or (dflt : string) (e : Exn) : string :=
  match e with
  | Error m => m
  | ZodError m => m
  | NonError => dflt
  end.

Inductive Outcome (A : Type) :=
| Returns (a : A)
| Throws (e : Exn).
Arguments Returns {A} a.
Arguments Throws {A} e.

(** What a computation did, in order. *)
Inductive Effect :=
| DbInsertUpgradeLog (id : Z) (row : UpgradeLog)
| DbUpdateUpgradeLog (id : Z)
| DbUpdateRegistry (id : Z)
| DbInsertAuditAction
| DbInsertEvent (event_id contract_id : string)
| DbUpdateIndexState (ledger : Z)
| Rpc (method : string)
| ConsoleWarn
| ConsoleError
| StepAttempted (id : string)
| SpawnMigration (upgradeLogId : Z).

(** The relational store together with the indexer's process-wide flag. *)
Record World := mkWorld {
  contract_registry : gmap Z ContractRecord;
  contract_upgrade_logs : gmap Z UpgradeLog;
  upgrade_logs_seq : Z;
  audit_log_actions : gset string;
  contract_events : list ContractEventRow;
  contract_events_seq : Z;
  contract_event_index_state : gmap string Z;
  lock : bool;
  trace : list Effect;
}.

(* ===================================================================== *)
(** ** The environment: every call that leaves the process                *)
(* ===================================================================== *)

(** Response of [server.simulateTransaction], by the predicates of the SDK
    the code asks: [SimulationError] satisfies [isSimulationError];
    [SimulationOk] satisfies [isSimulationSuccess], and [isSimulationRestore]
    when [restore] is set; [SimulationUnrecognised] satisfies neither of
    the first two. *)
Inductive SimResponse :=
| SimulationError (error : string) (latest : Z)
| SimulationOk (restore : bool) (minResourceFee : option string)
    (cpuInsns memBytes : option string) (latest : Z)
    (txDataXdr : option string)
| SimulationUnrecognised (latest : Z).

Record SendResponse := mkSend {
  send_status : string;
  send_hash : string;
  send_errorResult : option string;
}.

Inductive GetTransactionStatus := TX_SUCCESS | TX_FAILED | TX_NOT_FOUND.

(** Outcome of the [fetch] of getEvents: the call itself may throw, the
    HTTP status may be an error, the body may fail to parse, or a JSON-RPC
    payload arrives. *)
Inductive FetchEvents :=
| FetchThrows (e : Exn)
| FetchResponse (ok : bool) (http_status : Z)
    (body : Outcome (option string * option (list RpcContractEvent))).

Record Env := mkEnv {
  (** [NOW()] *)
  now : Z;
  (** [new SorobanRpc.Server(url, { allowHttp: false })] *)
  getRpcServer : Outcome unit;
  (** [server.getLedgerEntries(key)], with what precedes it in the same
      [try]: the entries field, when present, by its length *)
  getLedgerEntries : string -> Outcome (option nat);
  (** [server.getAccount(address)] *)
  getAccount : string -> Outcome unit;
  (** [new Contract(id)], [Buffer.from], [contract.call] and
      [TransactionBuilder ... build()] *)
  buildUpgradeTx : string -> string -> Outcome unit;
  (** [server.simulateTransaction(tx)] *)
  simulateTransaction : string -> string -> Outcome SimResponse;
  (** the getFeeStats fetch of [rawRpcSimulate]: the p50 inclusion fee *)
  getFeeStats : Outcome (option string);
  (** [Keypair.fromSecret(secret)]: the public key *)
  keypairFromSecret : string -> Outcome string;
  (** [assembleTransaction(...).build()] and [sign] *)
  assembleAndSign : Outcome unit;
  (** [server.sendTransaction(tx)] *)
  sendTransaction : Outcome SendResponse;
  (** [server.getTransaction(hash)] at the given polling attempt *)
  getTransaction : string -> nat -> Outcome GetTransactionStatus;
  (** [stroopsToXlm]: [(Number(x) / 10_000_000).toFixed(7)] *)
  stroopsToXlm : string -> string;
  (** [getIndexedContractIds()]: the configured contract addresses *)
  indexedContractIds : list string;
  (** [DEFAULT_START_LEDGER] *)
  DEFAULT_START_LEDGER : Z;
  (** the getEvents fetch, by start ledger *)
  fetchEvents : Z -> FetchEvents;
  (** whether the connection serves the query of the migration step with
      this id, or the query throws *)
  stepQuery : string -> Outcome unit;
}.

(* ===================================================================== *)
(** ** Computations over the store                                         *)
(* ===================================================================== *)

Definition M (A : Type) : Type := World -> Outcome A * World.

Definition ret {A} (a : A) : M A := fun w => (Returns a, w).

Definition throw {A} (e : Exn) : M A := fun w => (Throws e, w).

Definition bind {A B} (m : M A) (k : A -> M B) : M B :=
  fun w =>
    match m w with
    | (Returns a, w') => k a w'
    | (Throws e, w') => (Throws e, w')
    end.

(** [try { m } catch (e) { h e }] *)
Definition try_catch {A} (m : M A) (h : Exn -> M A) : M A :=
  fun w =>
    match m w with
    | (Returns a, w') => (Returns a, w')
    | (Throws e, w') => h e w'
    end.

(** [try { m } finally { f }] for a block [f] that cannot throw. *)
Definition finally {A} (m : M A) (f : World -> World) : M A :=
  fun w => let '(r, w') := m w in (r, f w').

Definition get : M World := fun w => (Returns w, w).

Definition modify (f : World -> World) : M unit := fun w => (Returns tt, f w).

Notation "x <- m ;; k" := (bind m (fun x => k))
  (at level 100, m at next level, right associativity).
Notation "m ;;; k" := (bind m (fun _ => k))
  (at level 100, right associativity).

Definition log_effect (e : Effect) (w : World) : World :=
  mkWorld (contract_registry w) (contract_upgrade_logs w) (upgrade_logs_seq w)
    (audit_log_actions w) (contract_events w) (contract_events_seq w)
    (contract_event_index_state w) (lock w) (trace w ++ [e]).

Definition emit (e : Effect) : M unit := modify (log_effect e).

(** An oracle call: its effect is recorded, its outcome is the oracle's. *)
Definition call {A} (method : string) (o : Outcome A) : M A :=
  emit (Rpc method) ;;;
  match o with
  | Returns a => ret a
  | Throws e => throw e
  end.

Definition set_registry (r : gmap Z ContractRecord) (w : World) : World :=
  mkWorld r (contract_upgrade_logs w) (upgrade_logs_seq w)
    (audit_log_actions w) (contract_events w) (contract_events_seq w)
    (contract_event_index_state w) (lock w) (trace w).

Definition set_logs (l : gmap Z UpgradeLog) (w : World) : World :=
  mkWorld (contract_registry w) l (upgrade_logs_seq w)
    (audit_log_actions w) (contract_events w) (contract_events_seq w)
    (contract_event_index_state w) (lock w) (trace w).

Definition set_logs_seq (n : Z) (w : World) : World :=
  mkWorld (contract_registry w) (contract_upgrade_logs w) n
    (audit_log_actions w) (contract_events w) (contract_events_seq w)
    (contract_event_index_state w) (lock w) (trace w).

Definition set_audit (a : gset string) (w : World) : World :=
  mkWorld (contract_registry w) (contract_upgrade_logs w) (upgrade_logs_seq w)
    a (contract_events w) (contract_events_seq w)
    (contract_event_index_state w) (lock w) (trace w).

Definition set_events (l : list ContractEventRow) (n : Z) (w : World) : World :=
  mkWorld (contract_registry w) (contract_upgrade_logs w) (upgrade_logs_seq w)
    (audit_log_actions w) l n
    (contract_event_index_state w) (lock w) (trace w).

Definition set_index_state (s : gmap string Z) (w : World) : World :=
  mkWorld (contract_registry w) (contract_upgrade_logs w) (upgrade_logs_seq w)
    (audit_log_actions w) (contract_events w) (contract_events_seq w)
    s (lock w) (trace w).

Definition set_lock (b : bool) (w : World) : World :=
  mkWorld (contract_registry w) (contract_upgrade_logs w) (upgrade_logs_seq w)
    (audit_log_actions w) (contract_events w) (contract_events_seq w)
    (contract_event_index_state w) b (trace w).

(** The message of the driver for a violated CHECK constraint. *)
Definition dq : string := String "034" EmptyString.

Definition pg_check_violation (relation constraint : string) : Exn :=
  Error ("new row for relation " ++ dq ++ relation ++ dq ++
         " violates check constraint " ++ dq ++ constraint ++ dq).

Definition pg_duplicate_key (constraint : string) : Exn :=
  Error ("duplicate key value violates unique constraint " ++
         dq ++ constraint ++ dq).

(** Numeric parameters.  The driver sends a JavaScript number as the text
    [String(n)], and the server reads that text as the type of the column
    the parameter is compared with.  A whole number beyond the range of
    that type is refused as out of range; from 10^21 on JavaScript prints an
    exponent, which the server refuses as malformed.  (The message of the
    server also quotes the text it was sent; the quotation is left out.) *)
Definition PG_INTEGER_MAX : Z := 2147483647.

Definition PG_BIGINT_MAX : Z := 9223372036854775807.

Definition pg_fits (max n : Z) : bool := (- max - 1 <=? n) && (n <=? max).

Definition pg_number_error (type_name : string) (n : Z) : Exn :=
  if Z.abs n <? 10 ^ 21
  then Error ("value is out of range for type " ++ type_name)
  else Error ("invalid input syntax for type " ++ type_name).

(** [SELECT ... FROM table WHERE id = $1].  A key of the table is within
    the range of its column, so the range decides only where no row is
    found. *)
Definition selectById {A} (type_name : string) (max : Z)
    (table : World -> gmap Z A) (id : Z) : M (option A) :=
  fun w =>
    match table w !! id with
    | Some row => (Returns (Some row), w)
    | None =>
        if pg_fits max id then (Returns None, w)
        else (Throws (pg_number_error type_name id), w)
    end.

(** The message of the server for a parameter that the statement uses at
    two types. *)
Definition pg_inconsistent_types (parameter : string) : Exn :=
  Error ("inconsistent types deduced for parameter " ++ parameter).

(** A call into the SDK that stays inside the process. *)
Definition sdk {A} (o : Outcome A) : M A :=
  match o with
  | Returns a => ret a
  | Throws e => throw e
  end.

(* ===================================================================== *)
(** ** contractUpgradeService.ts                                          *)
(* ===================================================================== *)

Record ValidateResult := mkValidate {
  valid : bool;
  reason : option string;
}.

Record SimulateUpgradeResult := mkSimulateResult {
  sr_upgradeLogId : Z;
  sr_simulation : UpgradeSimulationResult;
}.

Record ExecuteUpgradeResult := mkExecuteResult {
  er_upgradeLogId : Z;
  er_txHash : string;
  er_status : UpgradeStatus;
}.

Definition DEFAULT_MIGRATION_STEPS : list (string * StepStatus * option string) :=
  [ ("Verify on-chain contract state", step_pending, None);
    ("Validate storage schema compatibility", step_pending, None);
    ("Re-index contract data entries", step_pending, None);
    ("Emit upgrade audit event", step_pending, None) ].

Definition buildDefaultMigrationSteps : list MigrationStep :=
  imap (fun i '(n, s, m) =>
          mkMigrationStep ("step-" ++ Js.number_to_string (Z.of_nat i)) n s m)
       DEFAULT_MIGRATION_STEPS.

(** Field updates of an upgrade log, one per SET clause of the service. *)
Definition log_set_status (s : UpgradeStatus) (l : UpgradeLog) : UpgradeLog :=
  mkUpgradeLog (registry_id l) (previous_wasm_hash l) (new_wasm_hash l) s
    (simulation_result l) (tx_hash l) (migration_steps l) (initiated_by l)
    (notes l) (error_message l) (completed_at l).

Definition log_set_simulation (s : UpgradeStatus) (sim : UpgradeSimulationResult)
    (err : option string) (done : option Z) (l : UpgradeLog) : UpgradeLog :=
  mkUpgradeLog (registry_id l) (previous_wasm_hash l) (new_wasm_hash l) s
    (Some sim) (tx_hash l) (migration_steps l) (initiated_by l)
    (notes l) err done.

Definition log_set_failed (msg : string) (t : Z) (l : UpgradeLog) : UpgradeLog :=
  mkUpgradeLog (registry_id l) (previous_wasm_hash l) (new_wasm_hash l) failed
    (simulation_result l) (tx_hash l) (migration_steps l) (initiated_by l)
    (notes l) (Some msg) (Some t).

Definition log_set_finished (s : UpgradeStatus) (t : Z) (l : UpgradeLog) : UpgradeLog :=
  mkUpgradeLog (registry_id l) (previous_wasm_hash l) (new_wasm_hash l) s
    (simulation_result l) (tx_hash l) (migration_steps l) (initiated_by l)
    (notes l) (error_message l) (Some t).

Definition log_set_tx_hash (h : string) (l : UpgradeLog) : UpgradeLog :=
  mkUpgradeLog (registry_id l) (previous_wasm_hash l) (new_wasm_hash l) (status l)
    (simulation_result l) (Some h) (migration_steps l) (initiated_by l)
    (notes l) (error_message l) (completed_at l).

Definition log_set_steps (steps : list MigrationStep) (l : UpgradeLog) : UpgradeLog :=
  mkUpgradeLog (registry_id l) (previous_wasm_hash l) (new_wasm_hash l) (status l)
    (simulation_result l) (tx_hash l) steps (initiated_by l)
    (notes l) (error_message l) (completed_at l).

Definition registry_set_hash (h : string) (t : Z) (who : string)
    (c : ContractRecord) : ContractRecord :=
  mkContractRecord (cr_name c) (cr_network c) (contract_id c) h (version c)
    (Some t) (Some who).

Definition step_set (s : StepStatus) (m : option string) (st : MigrationStep)
    : MigrationStep :=
  mkMigrationStep (step_id st) (step_name st) s m.

(** [UPDATE contract_upgrade_logs SET ... WHERE id = $n AND cond]: the
    number of rows changed.  The id is compared with the BIGINT key; a key
    of the table is within that range, so the range decides only where no
    row is found.  A statement that the server refuses leaves no effect. *)
Definition updateLogWhere (id : Z) (cond : UpgradeLog -> bool)
    (f : UpgradeLog -> UpgradeLog) : M nat :=
  w <- get ;;
  match contract_upgrade_logs w !! id with
  | Some l =>
      emit (DbUpdateUpgradeLog id) ;;;
      if cond l
      then modify (set_logs (<[id := f l]> (contract_upgrade_logs w))) ;;; ret 1%nat
      else ret 0%nat
  | None =>
      if pg_fits PG_BIGINT_MAX id
      then emit (DbUpdateUpgradeLog id) ;;; ret 0%nat
      else throw (pg_number_error "bigint" id)
  end.

Definition updateLog (id : Z) (f : UpgradeLog -> UpgradeLog) : M unit :=
  updateLogWhere id (fun _ => true) f ;;; ret tt.

(** [INSERT INTO contract_upgrade_logs ... RETURNING id].  The sequence
    advances whether or not the row is accepted; the CHECK constraints of
    the table and its primary key can reject the row.  (The foreign key on
    registry_id is not checked here: its only caller has just read the
    referenced contract.) *)
Definition insertUpgradeLog (row : UpgradeLog) : M Z :=
  w <- get ;;
  let id := upgrade_logs_seq w + 1 in
  modify (set_logs_seq id) ;;;
  if negb (pg_wasm_hash_check (previous_wasm_hash row)) then
    throw (pg_check_violation "contract_upgrade_logs"
             "contract_upgrade_logs_previous_wasm_hash_check")
  else if negb (pg_wasm_hash_check (new_wasm_hash row)) then
    throw (pg_check_violation "contract_upgrade_logs"
             "contract_upgrade_logs_new_wasm_hash_check")
  else if String.eqb (new_wasm_hash row) (previous_wasm_hash row) then
    throw (pg_check_violation "contract_upgrade_logs" "chk_different_hashes")
  else
    match contract_upgrade_logs w !! id with
    | Some _ => throw (pg_duplicate_key "contract_upgrade_logs_pkey")
    | None =>
        modify (set_logs (<[id := row]> (contract_upgrade_logs w))) ;;;
        emit (DbInsertUpgradeLog id row) ;;;
        ret id
    end.

(** [UPDATE contract_registry SET current_wasm_hash = $1,
    last_upgraded_at = NOW(), last_upgraded_by = $2
    WHERE id = (SELECT registry_id FROM contract_upgrade_logs WHERE id = $3)] *)
Definition updateRegistryForLog (t : Z) (h who : string) (upgradeLogId : Z)
    : M unit :=
  w <- get ;;
  match contract_upgrade_logs w !! upgradeLogId with
  | None =>
      if pg_fits PG_BIGINT_MAX upgradeLogId
      then emit (DbUpdateRegistry upgradeLogId)
      else throw (pg_number_error "bigint" upgradeLogId)
  | Some l =>
      emit (DbUpdateRegistry upgradeLogId) ;;;
      match contract_registry w !! registry_id l with
      | None => ret tt
      | Some c =>
          if negb (pg_wasm_hash_check h) then
            throw (pg_check_violation "contract_registry"
                     "contract_registry_current_wasm_hash_check")
          else
            modify (set_registry
                      (<[registry_id l := registry_set_hash h t who c]>
                         (contract_registry w)))
      end
  end.

(** [SELECT ul.*, cr.contract_id, cr.version FROM contract_upgrade_logs ul
    JOIN contract_registry cr ON cr.id = ul.registry_id WHERE ul.id = $1] *)
Definition selectLogWithContract (upgradeLogId : Z) : M (option UpgradeLog) :=
  fun w =>
    match contract_upgrade_logs w !! upgradeLogId with
    | Some l =>
        (Returns (_ ← contract_registry w !! registry_id l; Some l), w)
    | None =>
        if pg_fits PG_BIGINT_MAX upgradeLogId then (Returns None, w)
        else (Throws (pg_number_error "bigint" upgradeLogId), w)
    end.

Module ContractUpgradeService.
Section WithEnv.

Variable env : Env.

(** [contract_registry.id] is SERIAL, an INTEGER. *)
Definition getContract (registryId : Z) : M (option ContractRecord) :=
  selectById "integer" PG_INTEGER_MAX contract_registry registryId.


Definition validateWasmHash (registryId : Z) (newWasmHash : string)
    : M ValidateResult :=
  if negb (WASM_HASH_REGEX_test newWasmHash) then
    ret (mkValidate false
           (Some "WASM hash must be exactly 64 lowercase hex characters (SHA-256)."))
  else
    contract <- getContract registryId ;;
    match contract with
    | None => ret (mkValidate false (Some "Contract not found in registry."))
    | Some contract =>
        if String.eqb (Js.toLowerCase newWasmHash)
                      (Js.toLowerCase (current_wasm_hash contract))
        then ret (mkValidate false
                    (Some "New WASM hash is identical to the currently deployed hash. No upgrade needed."))
        else
          early <- try_catch
            (sdk (getRpcServer env) ;;;
             entries <- call "getLedgerEntries" (getLedgerEntries env newWasmHash) ;;
             match entries with
             | None | Some O =>
                 ret (Some (mkValidate false
                   (Some "WASM hash not found on the network. Upload the WASM bytecode first via `stellar contract upload`.")))
             | Some (S _) => ret None
             end)
            (fun _ => emit ConsoleWarn ;;; ret None) ;;
          match early with
          | Some r => ret r
          | None => ret (mkValidate true None)
          end
    end.

Definition failedSimulation (latest : Z) (err : string) : UpgradeSimulationResult :=
  mkSimulation false "0" "0.0000000" "0" "0" latest None [] (Some err).

Definition rawRpcSimulate : M UpgradeSimulationResult :=
  try_catch
    (p <- call "getFeeStats" (getFeeStats env) ;;
     let p50 := default "1000000" p in
     ret (mkSimulation true p50 (stroopsToXlm env p50) "N/A" "N/A" 0 None
            ["Source account not on-chain — fee is a network median estimate."]
            None))
    (fun _ =>
     ret (mkSimulation true "1000000" (stroopsToXlm env "1000000") "N/A" "N/A" 0
            None ["Could not reach RPC for fee estimate. Default shown."] None)).

(** The [try] block of [simulateUpgrade] with its [catch]. *)
Definition attemptSimulation (contract : ContractRecord)
    (newWasmHash initiatedBy : string) : M UpgradeSimulationResult :=
  try_catch
    (sdk (getRpcServer env) ;;;
     sourceAccount <- try_catch
       (call "getAccount" (getAccount env initiatedBy) ;;; ret true)
       (fun _ => ret false) ;;
     if sourceAccount : bool then
       sdk (buildUpgradeTx env (contract_id contract) newWasmHash) ;;;
       simResponse <- call "simulateTransaction"
         (simulateTransaction env (contract_id contract) newWasmHash) ;;
       match simResponse with
       | SimulationError e latest => ret (failedSimulation latest e)
       | SimulationOk restore minResourceFee cpu mem latest txData =>
           let minFee := default "0" minResourceFee in
           ret (mkSimulation true minFee (stroopsToXlm env minFee)
                  (default "0" cpu) (default "0" mem) latest txData
                  (if restore
                   then ["Ledger entry restoration required before upgrade."]
                   else [])
                  None)
       | SimulationUnrecognised latest =>
           ret (mkSimulation true "0" (stroopsToXlm env "0") "0" "0" latest
                  None [] None)
       end
     else rawRpcSimulate)
    (fun err => ret (failedSimulation 0 (message_or "Simulation failed" err))).

Definition pendingLog (registryId : Z) (contract : ContractRecord)
    (newWasmHash initiatedBy : string) (notes : option string) : UpgradeLog :=
  mkUpgradeLog registryId (current_wasm_hash contract)
    (Js.toLowerCase newWasmHash) pending None None
    buildDefaultMigrationSteps initiatedBy notes None None.

(** The last statement of [simulateUpgrade]:

      UPDATE contract_upgrade_logs
      SET status = $1, simulation_result = $2, error_message = $3,
          completed_at = CASE WHEN $1 = 'failed' THEN NOW() ELSE NULL END
      WHERE id = $4

    The driver sends the four parameters without a type.  The server types
    the expressions of the SET list first: in [$1 = 'failed'] both sides
    are untyped, which makes [$1] text.  It then assigns [$1] to [status],
    a VARCHAR(30) column, which asks for character varying.  The two
    disagree and the server refuses to prepare the statement, whatever the
    values, so no row is ever updated by it. *)
Definition persistSimulation (upgradeLogId : Z) (newStatus : UpgradeStatus)
    (simulation : UpgradeSimulationResult) (error : option string) : M unit :=
  throw (pg_inconsistent_types "$1").

Definition simulateUpgrade (registryId : Z) (newWasmHash initiatedBy : string)
    (notes : option string) : M SimulateUpgradeResult :=
  contract <- getContract registryId ;;
  match contract with
  | None => throw (Error "Contract not found in registry.")
  | Some contract =>
      upgradeLogId <- insertUpgradeLog
        (pendingLog registryId contract newWasmHash initiatedBy notes) ;;
      simulation <- attemptSimulation contract newWasmHash initiatedBy ;;
      let newStatus := if success simulation then simulated else failed in
      persistSimulation upgradeLogId newStatus simulation
        (sim_error simulation) ;;;
      ret (mkSimulateResult upgradeLogId simulation)
  end.

Definition MAX_POLLS : nat := 10.

(** The polling loop: [remaining] iterations are left, the next one is
    number [attempt]. *)
Fixpoint pollLoop (remaining attempt : nat) (hash : string) : M string :=
  match remaining with
  | O => throw (Error ("Transaction " ++ hash ++ " did not confirm within "
                        ++ Js.number_to_string 50 ++ "s."))
  | S remaining' =>
      txStatus <- call "getTransaction" (getTransaction env hash attempt) ;;
      match txStatus with
      | TX_SUCCESS => ret hash
      | TX_FAILED => throw (Error ("Transaction " ++ hash ++ " failed on-chain."))
      | TX_NOT_FOUND => pollLoop remaining' (S attempt) hash
      end
  end.

Definition pollForConfirmation (hash : string) : M string :=
  pollLoop MAX_POLLS 0 hash.

(** The [try] block of [executeUpgrade]: the confirmed hash. *)
Definition submitUpgrade (log : UpgradeLog) (upgradeLogId : Z)
    (adminSecret : string) : M string :=
  adminPublicKey <- sdk (keypairFromSecret env adminSecret) ;;
  sdk (getRpcServer env) ;;;
  call "getAccount" (getAccount env adminPublicKey) ;;;
  w <- get ;;
  joined <- selectLogWithContract upgradeLogId ;;
  let contractId :=
    l ← joined;
    c ← contract_registry w !! registry_id l;
    Some (contract_id c) in
  if negb (Js.truthy contractId) then
    throw (Error "Contract ID not found for upgrade log.")
  else
    let contractId := default "" contractId in
    sdk (buildUpgradeTx env contractId (new_wasm_hash log)) ;;;
    simResult <- call "simulateTransaction"
      (simulateTransaction env contractId (new_wasm_hash log)) ;;
    match simResult with
    | SimulationError e _ => throw (Error e)
    | SimulationUnrecognised _ =>
        throw (Error "Simulation failed before submission")
    | SimulationOk _ _ _ _ _ _ =>
        sdk (assembleAndSign env) ;;;
        sendResponse <- call "sendTransaction" (sendTransaction env) ;;
        if String.eqb (send_status sendResponse) "ERROR" then
          throw (Error (default "Transaction submission failed"
                          (send_errorResult sendResponse)))
        else
          txHash <- pollForConfirmation (send_hash sendResponse) ;;
          updateRegistryForLog (now env) (new_wasm_hash log) adminPublicKey
            upgradeLogId ;;;
          ret txHash
    end.

(** The guard of [executeUpgrade]: its first statement, the SELECT that
    joins the log with its registry row, and the two tests on the row it
    returns.  Nothing is written. *)
Definition loadExecutableLog (upgradeLogId : Z) : M UpgradeLog :=
  joined <- selectLogWithContract upgradeLogId ;;
  match joined with
  | None => throw (Error "Upgrade log not found.")
  | Some log =>
      if negb (bool_decide (status log = simulated)
               || bool_decide (status log = confirmed)) then
        throw (Error ("Cannot execute upgrade in status '"
                        ++ status_text (status log)
                        ++ "'. Expected 'simulated' or 'confirmed'."))
      else ret log
  end.

(** [executeUpgrade] from its second statement to its [return], for the row
    [log] that the guard has read.  The UPDATE to 'executing' carries no
    condition on the status, and nothing below reads the status again.
    The migration that is started without being awaited is recorded as
    [SpawnMigration] and run by [runMigrationSteps]. *)
Definition executeLoadedLog (log : UpgradeLog) (upgradeLogId : Z)
    (adminSecret : string) : M ExecuteUpgradeResult :=
  updateLog upgradeLogId (log_set_status executing) ;;;
  txHash <- try_catch
    (submitUpgrade log upgradeLogId adminSecret)
    (fun execError =>
       updateLog upgradeLogId
         (log_set_failed (message_or "Execution failed" execError) (now env)) ;;;
       throw execError) ;;
  updateLog upgradeLogId (log_set_tx_hash txHash) ;;;
  emit (SpawnMigration upgradeLogId) ;;;
  ret (mkExecuteResult upgradeLogId txHash executing).

(** A call of [executeUpgrade] that runs alone. *)
Definition executeUpgrade (upgradeLogId : Z) (adminSecret : string)
    : M ExecuteUpgradeResult :=
  log <- loadExecutableLog upgradeLogId ;;
  executeLoadedLog log upgradeLogId adminSecret.

Definition persistMigrationSteps (upgradeLogId : Z) (steps : list MigrationStep)
    : M unit :=
  updateLog upgradeLogId (log_set_steps steps).

Definition executeStep (step : MigrationStep) (registryId : Z) : M unit :=
  emit (StepAttempted (step_id step)) ;;;
  if String.eqb (step_id step) "step-0" then
    sdk (stepQuery env "step-0") ;;;
    contract <- getContract registryId ;;
    match contract with
    | None => throw (Error "Contract missing from registry after upgrade.")
    | Some _ => ret tt
    end
  else if String.eqb (step_id step) "step-1" then
    sdk (stepQuery env "step-1") ;;;
    row <- selectById "integer" PG_INTEGER_MAX contract_registry registryId ;;
    match row with
    | None => throw (Error "Registry row not found during schema validation.")
    | Some _ => ret tt
    end
  else if String.eqb (step_id step) "step-2" then ret tt
  else if String.eqb (step_id step) "step-3" then
    sdk (stepQuery env "step-3") ;;;
    w <- get ;;
    modify (set_audit ({["contract_upgraded"]} ∪ audit_log_actions w)) ;;;
    emit DbInsertAuditAction
  else ret tt.

(** The [for] loop of [runMigrationSteps]: [remaining] iterations are left
    and the next index is [i].  The result tells whether the loop ran to
    its end ([true]) or returned after a failed step ([false]). *)
Fixpoint migrationLoop (remaining i : nat) (upgradeLogId registryId : Z)
    (steps : list MigrationStep) : M bool :=
  match remaining with
  | O => ret true
  | S remaining' =>
      match steps !! i with
      | None => ret true
      | Some s =>
          let steps := <[i := step_set step_running None s]> steps in
          persistMigrationSteps upgradeLogId steps ;;;
          r <- try_catch
            (executeStep (step_set step_running None s) registryId ;;;
             ret (inl (<[i := step_set step_completed
                              (Some "Step completed successfully.") s]> steps)))
            (fun stepErr =>
               let msg := message_or "Step failed" stepErr in
               let steps := <[i := step_set step_failed (Some msg) s]> steps in
               persistMigrationSteps upgradeLogId steps ;;;
               updateLog upgradeLogId
                 (log_set_failed ("Migration step '" ++ step_name s
                                    ++ "' failed: " ++ msg) (now env)) ;;;
               ret (inr tt)) ;;
          match r with
          | inr _ => ret false
          | inl steps =>
              persistMigrationSteps upgradeLogId steps ;;;
              migrationLoop remaining' (S i) upgradeLogId registryId steps
          end
      end
  end.

(** The method is private: the id it is given is that of the row
    [executeUpgrade] has just written, a key of the table. *)
Definition runMigrationSteps (upgradeLogId : Z) : M unit :=
  w <- get ;;
  match contract_upgrade_logs w !! upgradeLogId with
  | None => ret tt
  | Some row =>
      let steps := migration_steps row in
      finished <- migrationLoop (length steps) 0 upgradeLogId
                    (registry_id row) steps ;;
      if finished : bool then
        updateLog upgradeLogId (log_set_finished completed (now env))
      else ret tt
  end.

Definition cancellable (l : UpgradeLog) : bool :=
  bool_decide (status l = pending) || bool_decide (status l = simulated)
  || bool_decide (status l = confirmed).

(** One guarded UPDATE: the test of the status and the write are a single
    statement. *)
Definition cancelUpgrade (upgradeLogId : Z) : M unit :=
  rowCount <- updateLogWhere upgradeLogId cancellable
                (log_set_finished cancelled (now env)) ;;
  if (rowCount =? 0)%nat then
    throw (Error "Upgrade cannot be cancelled — it may have already started executing.")
  else ret tt.

End WithEnv.
End ContractUpgradeService.

(* ===================================================================== *)
(** ** contractUpgradeController.ts                                       *)
(* ===================================================================== *)

Inductive ResponseBody :=
| BodyError (error : string)
| BodyValidate (result : ValidateResult)
| BodySimulate (upgradeLogId : Z) (simulation : UpgradeSimulationResult)
| BodyExecute (result : ExecuteUpgradeResult)
| BodyMessage (message : string).

Record Response := mkResponse {
  http_status : Z;
  body : ResponseBody;
}.

Module ContractUpgradeController.
Section WithEnv.

Variable env : Env.

(** [schema.parse(x)]: the parsed value, or a thrown [ZodError]. *)
Definition parse (ok : bool) (issue : string) : M unit :=
  if ok then ret tt else throw (ZodError issue).

(** [wasmHashSchema]: a string of length 64 matching the expression. *)
Definition wasmHashSchema (s : string) : M unit :=
  parse (String.length s =? 64)%nat "WASM hash must be exactly 64 hex characters." ;;;
  parse (WASM_HASH_REGEX_test s) "WASM hash must be a valid lowercase hex string.".

(** [registryIdSchema] and [upgradeLogIdSchema] on a parameter that
    already is an integer. *)
Definition positiveIdSchema (n : Z) : M unit :=
  parse (0 <? n)%Z "Number must be greater than 0".

Definition simulateBodySchema (newWasmHash initiatedBy : string)
    (notes : option string) : M unit :=
  wasmHashSchema newWasmHash ;;;
  parse (56 <=? String.length initiatedBy)%nat
        "String must contain at least 56 character(s)" ;;;
  parse (String.length initiatedBy <=? 64)%nat
        "initiatedBy must be a Stellar public key (G...)" ;;;
  match notes with
  | Some n => parse (String.length n <=? 1000)%nat
                    "String must contain at most 1000 character(s)"
  | None => ret tt
  end.

Definition executeBodySchema (adminSecret : string) : M unit :=
  parse (56 <=? String.length adminSecret)%nat
        "adminSecret must be a valid Stellar secret key (S...)".

Definition handleError (error : Exn) : M Response :=
  match error with
  | ZodError _ => ret (mkResponse 400 (BodyError "Validation Error"))
  | _ =>
      let msg := message_or "" error in
      if Js.includes "invalid" msg || Js.includes "Invalid" msg
         || Js.includes "Invalid secret" msg then
        ret (mkResponse 400 (BodyError "Invalid admin secret key."))
      else if Js.includes "not found" msg then
        ret (mkResponse 404 (BodyError msg))
      else if Js.includes "Cannot execute" msg
              || Js.includes "cannot be cancelled" msg then
        ret (mkResponse 409 (BodyError msg))
      else
        emit ConsoleError ;;;
        ret (mkResponse 500 (BodyError "Internal Server Error"))
  end.

Definition validateHash (registryId : Z) (newWasmHash : string) : M Response :=
  try_catch
    (positiveIdSchema registryId ;;;
     wasmHashSchema newWasmHash ;;;
     result <- ContractUpgradeService.validateWasmHash env registryId newWasmHash ;;
     ret (mkResponse 200 (BodyValidate result)))
    handleError.

Definition simulateUpgrade (registryId : Z) (newWasmHash initiatedBy : string)
    (notes : option string) : M Response :=
  try_catch
    (positiveIdSchema registryId ;;;
     simulateBodySchema newWasmHash initiatedBy notes ;;;
     r <- ContractUpgradeService.simulateUpgrade env registryId newWasmHash
            initiatedBy notes ;;
     ret (mkResponse 200 (BodySimulate (sr_upgradeLogId r) (sr_simulation r))))
    handleError.

Definition executeUpgrade (logId : Z) (adminSecret : string) : M Response :=
  try_catch
    (positiveIdSchema logId ;;;
     executeBodySchema adminSecret ;;;
     result <- ContractUpgradeService.executeUpgrade env logId adminSecret ;;
     ret (mkResponse 200 (BodyExecute result)))
    handleError.

Definition cancelUpgrade (logId : Z) : M Response :=
  try_catch
    (positiveIdSchema logId ;;;
     ContractUpgradeService.cancelUpgrade env logId ;;;
     ret (mkResponse 200 (BodyMessage "Upgrade cancelled successfully.")))
    handleError.

End WithEnv.
End ContractUpgradeController.

(* ===================================================================== *)
(** ** contractEventIndexerService.ts                                     *)
(* ===================================================================== *)

Definition event_key (r : ContractEventRow) : string * string :=
  (event_id r, ev_contract_id r).

Module ContractEventIndexerService.
Section WithEnv.

Variable env : Env.

Definition INDEX_STATE_KEY : string := "soroban_contract_events".

(** What [fetchContractEvents] makes of the answer to its request. *)
Definition getEventsOutcome (startLedger : Z) : Outcome (list RpcContractEvent) :=
  match fetchEvents env startLedger with
  | FetchThrows e => Throws e
  | FetchResponse ok st body =>
      if negb ok then
        Throws (Error ("getEvents RPC failed with status "
                         ++ Js.number_to_string st))
      else
        match body with
        | Throws e => Throws e
        | Returns (errorMessage, events) =>
            if Js.truthy errorMessage
            then Throws (Error (default "" errorMessage))
            else Returns (default [] events)
        end
  end.

Definition fetchContractEvents (startLedger : Z) : M (list RpcContractEvent) :=
  call "getEvents" (getEventsOutcome startLedger).

Definition extractEventType (event : RpcContractEvent) : string :=
  if Js.truthy (rpc_type event) then default "" (rpc_type event)
  else match rpc_topic event with
       | Some (t :: _) => t
       | _ => "unknown"
       end.

(** [INSERT INTO contract_events ... ON CONFLICT (event_id, contract_id)
    DO NOTHING].  [ledger_sequence] is BIGINT: a ledger number beyond its
    range makes the statement fail before a row or a sequence value is
    touched.  Otherwise the surrogate id is drawn from the sequence before
    the conflict is detected; a clash on the primary key is not absorbed. *)
Definition insertContractEvent (eventId contractId eventType : string)
    (event : RpcContractEvent) (ledgerSequence : Z) (txHash : option string)
    : M unit :=
  w <- get ;;
  let id := contract_events_seq w + 1 in
  emit (DbInsertEvent eventId contractId) ;;;
  if negb (pg_fits PG_BIGINT_MAX ledgerSequence)
  then throw (pg_number_error "bigint" ledgerSequence)
  else if bool_decide ((eventId, contractId) ∈ event_key <$> contract_events w)
  then modify (set_events (contract_events w) id)
  else if bool_decide (id ∈ row_id <$> contract_events w)
  then modify (set_events (contract_events w) id) ;;;
       throw (pg_duplicate_key "contract_events_pkey")
  else modify (set_events
                 (contract_events w ++
                    [mkEventRow id eventId contractId eventType event
                       ledgerSequence txHash (now env)])
                 id).

(** [String(event.contractId || '')] *)
Definition contractIdOf (event : RpcContractEvent) : string :=
  Js.or_else (rpc_contractId event) "".

(** [Number(event.ledgerSequence ?? event.ledger ?? 0)] *)
Definition ledgerSequenceOf (event : RpcContractEvent) : Z :=
  match rpc_ledgerSequence event with
  | Some n => n
  | None => default 0 (rpc_ledger event)
  end.

(** [String(event.id || `${contractId}-${ledgerSequence}-${event.txHash || ''}`)] *)
Definition eventIdOf (event : RpcContractEvent) : string :=
  Js.or_else (rpc_id event)
    (contractIdOf event ++ "-" ++ Js.number_to_string (ledgerSequenceOf event)
       ++ "-" ++ Js.or_else (rpc_txHash event) "").

(** The [for ... of] loop of [pollOnce]: the running maximum. *)
Fixpoint indexEvents (events : list RpcContractEvent) (maxLedger : Z) : M Z :=
  match events with
  | [] => ret maxLedger
  | event :: rest =>
      let contractId := contractIdOf event in
      if String.eqb contractId "" then indexEvents rest maxLedger
      else
        let ledgerSequence := ledgerSequenceOf event in
        if (ledgerSequence <=? 0)%Z then indexEvents rest maxLedger
        else
          let maxLedger := Z.max maxLedger ledgerSequence in
          let eventId := eventIdOf event in
          let eventType := extractEventType event in
          let txHash := if Js.truthy (rpc_txHash event)
                        then rpc_txHash event else None in
          insertContractEvent eventId contractId eventType event
            ledgerSequence txHash ;;;
          indexEvents rest maxLedger
  end.

(** [UPDATE contract_event_index_state SET last_ledger_sequence = $1
    WHERE state_key = $2] *)
Definition updateIndexState (maxLedger : Z) : M unit :=
  w <- get ;;
  emit (DbUpdateIndexState maxLedger) ;;;
  match contract_event_index_state w !! INDEX_STATE_KEY with
  | Some _ =>
      modify (set_index_state
                (<[INDEX_STATE_KEY := maxLedger]> (contract_event_index_state w)))
  | None => ret tt
  end.

(** [Number(state.rows[0]?.last_ledger_sequence ?? DEFAULT_START_LEDGER)] *)
Definition lastIndexedOf (w : World) : Z :=
  default (DEFAULT_START_LEDGER env)
          (contract_event_index_state w !! INDEX_STATE_KEY).

(** [Math.max(lastIndexed + 1, DEFAULT_START_LEDGER)] *)
Definition startLedgerOf (w : World) : Z :=
  Z.max (lastIndexedOf w + 1) (DEFAULT_START_LEDGER env).

(** The [try] block of [pollOnce]. *)
Definition pollCycle : M unit :=
  let contracts := indexedContractIds env in
  if (length contracts =? 0)%nat then ret tt
  else
    w <- get ;;
    let lastIndexed := lastIndexedOf w in
    let startLedger := startLedgerOf w in
    events <- fetchContractEvents startLedger ;;
    if (length events =? 0)%nat then ret tt
    else
      maxLedger <- indexEvents events lastIndexed ;;
      if (maxLedger >? lastIndexed)%Z then updateIndexState maxLedger
      else ret tt.

Definition pollOnce : M unit :=
  w <- get ;;
  if lock w then ret tt
  else
    modify (set_lock true) ;;;
    finally (try_catch pollCycle (fun _ => emit ConsoleError))
            (set_lock false).

(** The checkpoint row, if there is one. *)
Definition checkpoint (w : World) : option Z :=
  contract_event_index_state w !! INDEX_STATE_KEY.

End WithEnv.


(** The events of a page that the loop does not skip. *)
Definition considered (event : RpcContractEvent) : bool :=
  negb (String.eqb (contractIdOf event) "") && (0 <? ledgerSequenceOf event).




End ContractEventIndexerService.





(* ===================================================================== *)
(** ** Fixtures: a seeded store and some environments                      *)
(* ===================================================================== *)

Module Fixture.

Definition hash_of (c : ascii) : string := string_of_list_ascii (repeat c 64).

Definition hash_a : string := hash_of "a".
Definition hash_b : string := hash_of "b".
Definition hash_B : string := hash_of "B".

(** The first seed row of migration 014. *)
Definition bulk_payment : ContractRecord :=
  mkContractRecord "Bulk Payment" "TESTNET"
    "CAAAAAAAAAAAAAAAAAAAAAAAAAAAAAAAAAAAAAAAAAAAAAAAAAAABSC4"
    hash_a "1.0.0" None None.

Definition empty_world : World :=
  mkWorld ∅ ∅ 0 ∅ [] 0 ∅ false [].

Definition seeded : World :=
  mkWorld {[ 1 := bulk_payment ]} ∅ 0 ∅ [] 0
    {[ "soroban_contract_events" := 0 ]} false [].

Definition admin : string :=
  "GADMINAAAAAAAAAAAAAAAAAAAAAAAAAAAAAAAAAAAAAAAAAAAAAAAAAAA".

(** The seeded store with one upgrade log that is 'simulated': the row
    [simulateUpgrade] inserts for an upgrade of contract 1 to [hash_b],
    with the status set in the database. *)
Definition simulated_log : UpgradeLog :=
  log_set_status simulated
    (ContractUpgradeService.pendingLog 1 bulk_payment hash_b admin
       (Some "routine upgrade")).

Definition ready : World :=
  mkWorld {[ 1 := bulk_payment ]} {[ 1 := simulated_log ]} 1 ∅ [] 0
    {[ "soroban_contract_events" := 0 ]} false [].

Definition ev (id : option string) (contract : string) (ledger : Z)
    (tx : option string) : RpcContractEvent :=
  mkRpcEvent id (Some "contract") tx None (Some ledger) (Some contract) None.

Definition sample_events : list RpcContractEvent :=
  [ ev (Some "0001-1") "CBULK" 12 (Some "aa11");
    ev None "CBULK" 15 (Some "bb22");
    ev None "CBULK" 15 (Some "bb22");
    ev None "" 99 None;
    ev (Some "0001-2") "CVEST" 14 None ].

(** Every call succeeds: the simulator returns a fee of 1000000 stroops,
    the submitter returns hash "deadbeef", which confirms at the first
    poll. *)
Definition happy : Env :=
  mkEnv 1000
    (Returns tt)
    (fun _ => Returns (Some 1%nat))
    (fun _ => Returns tt)
    (fun _ _ => Returns tt)
    (fun _ _ => Returns (SimulationOk false (Some "1000000") (Some "100")
                           (Some "200") 77 (Some "AAAA")))
    (Returns (Some "100"))
    (fun _ => Returns admin)
    (Returns tt)
    (Returns (mkSend "PENDING" "deadbeef" None))
    (fun _ _ => Returns TX_SUCCESS)
    (fun _ => "0.1000000")
    ["CBULK"; "CVEST"]
    0
    (fun _ => FetchResponse true 200 (Returns (None, Some sample_events)))
    (fun _ => Returns tt).

(** The RPC endpoint is unreachable: every network call throws. *)
Definition unreachable : Env :=
  mkEnv 2000
    (Returns tt)
    (fun _ => Throws (Error "connect ECONNREFUSED"))
    (fun _ => Throws (Error "connect ECONNREFUSED"))
    (fun _ _ => Returns tt)
    (fun _ _ => Throws (Error "connect ECONNREFUSED"))
    (Throws (Error "connect ECONNREFUSED"))
    (fun _ => Returns admin)
    (Returns tt)
    (Throws (Error "connect ECONNREFUSED"))
    (fun _ _ => Throws (Error "connect ECONNREFUSED"))
    (fun _ => "0.1000000")
    ["CBULK"; "CVEST"]
    0
    (fun _ => FetchThrows (Error "fetch failed"))
    (fun _ => Returns tt).

(** The RPC answers, but the code object is not on the ledger. *)
Definition absent_code : Env :=
  mkEnv 1000
    (Returns tt)
    (fun _ => Returns (Some 0%nat))
    (getAccount happy) (buildUpgradeTx happy) (simulateTransaction happy)
    (getFeeStats happy) (keypairFromSecret happy) (assembleAndSign happy)
    (sendTransaction happy) (getTransaction happy) (stroopsToXlm happy)
    (indexedContractIds happy) (DEFAULT_START_LEDGER happy) (fetchEvents happy)
    (stepQuery happy).

(** All calls succeed, but the connection drops during the second
    migration step. *)
Definition dropped_connection : Env :=
  mkEnv 3000
    (getRpcServer happy) (getLedgerEntries happy)
    (getAccount happy) (buildUpgradeTx happy) (simulateTransaction happy)
    (getFeeStats happy) (keypairFromSecret happy) (assembleAndSign happy)
    (sendTransaction happy) (getTransaction happy) (stroopsToXlm happy)
    (indexedContractIds happy) (DEFAULT_START_LEDGER happy) (fetchEvents happy)
    (fun id => if String.eqb id "step-1"
               then Throws (Error "Connection terminated unexpectedly")
               else Returns tt).

End Fixture.

(* ===================================================================== *)
(** ** Observations and messages used in the statements                    *)
(* ===================================================================== *)

(** The store without its trace: two worlds with the same image hold the
    same rows, sequences and flag. *)
Definition store (w : World) : World :=
  mkWorld (contract_registry w) (contract_upgrade_logs w) (upgrade_logs_seq w)
    (audit_log_actions w) (contract_events w) (contract_events_seq w)
    (contract_event_index_state w) (lock w) [].

Definition same_store (w w' : World) : Prop := store w = store w'.

(** [m] leaves the observation [f] of the world as it found it. *)
Definition preserves {X A} (f : World -> X) (m : M A) : Prop :=
  forall w, f (snd (m w)) = f w.

Definition CANNOT_CANCEL : string :=
  "Upgrade cannot be cancelled — it may have already started executing.".

(** How the controller answers a thrown value: status code and body. *)
Definition answer (e : Exn) (w : World) : Outcome Response :=
  fst (ContractUpgradeController.handleError e w).

Definition CANNOT_EXECUTE (s : UpgradeStatus) : string :=
  "Cannot execute upgrade in status '" ++ status_text s
    ++ "'. Expected 'simulated' or 'confirmed'.".

Definition BAD_FORMAT : string :=
  "WASM hash must be exactly 64 lowercase hex characters (SHA-256).".

Definition NOT_ON_NETWORK : string :=
  "WASM hash not found on the network. Upload the WASM bytecode first via `stellar contract upload`.".

(** Effects that are calls to the ledger RPC. *)
Definition is_rpc (e : Effect) : Prop := exists method, e = Rpc method.

(** The ids of the migration steps that were attempted, in order. *)
Definition attempted_steps (es : list Effect) : list string :=
  omap (fun e => match e with StepAttempted id => Some id | _ => None end) es.

Definition STEP_COMPLETED : string := "Step completed successfully.".

Definition step_completed_of (s : MigrationStep) : MigrationStep :=
  step_set step_completed (Some STEP_COMPLETED) s.

Definition step_failed_of (e : Exn) (s : MigrationStep) : MigrationStep :=
  step_set step_failed (Some (message_or "Step failed" e)) s.

Definition MIGRATION_FAILED (e : Exn) (s : MigrationStep) : string :=
  "Migration step '" ++ step_name s ++ "' failed: " ++ message_or "Step failed" e.

Definition IDENTICAL_HASH : string :=
  "New WASM hash is identical to the currently deployed hash. No upgrade needed.".

Definition CONTRACT_NOT_FOUND : string := "Contract not found in registry.".

Definition LOG_NOT_FOUND : string := "Upgrade log not found.".

Definition TX_TIMEOUT (hash : string) : string :=
  "Transaction " ++ hash ++ " did not confirm within 50s.".

Definition TX_FAILED_ON_CHAIN (hash : string) : string :=
  "Transaction " ++ hash ++ " failed on-chain.".

(** [m] takes every world to one related to it by [R]. *)
Definition evolves {A} (R : World -> World -> Prop) (m : M A) : Prop :=
  forall w, R w (snd (m w)).

(** What identifies an upgrade attempt: the columns no statement of the
    service ever sets after the insert. *)
Definition log_identity (l : UpgradeLog) : Z * string * string * string * option string :=
  (registry_id l, previous_wasm_hash l, new_wasm_hash l, initiated_by l, notes l).

(** Every log of [w] is still there in [w'], as the same attempt. *)
Definition logs_kept (w w' : World) : Prop :=
  forall id l, contract_upgrade_logs w !! id = Some l ->
    exists l', contract_upgrade_logs w' !! id = Some l' /\
               log_identity l' = log_identity l.

(** Every log of [w] other than [id0] is unchanged in [w']. *)
Definition logs_untouched_except (id0 : Z) (w w' : World) : Prop :=
  forall id, id <> id0 ->
    contract_upgrade_logs w' !! id = contract_upgrade_logs w !! id.

Definition settled (l : UpgradeLog) : Prop :=
  status l = completed \/ status l = failed \/ status l = cancelled.

(** A row as the indexer builds it from the event kept in its payload, at
    time [t]. *)
Definition indexed_row (t : Z) (r : ContractEventRow) : Prop :=
  ContractEventIndexerService.considered (payload r) = true /\
  ev_contract_id r = ContractEventIndexerService.contractIdOf (payload r) /\
  event_id r = ContractEventIndexerService.eventIdOf (payload r) /\
  event_type r = ContractEventIndexerService.extractEventType (payload r) /\
  ledger_sequence r = ContractEventIndexerService.ledgerSequenceOf (payload r) /\
  ev_tx_hash r = (if Js.truthy (rpc_txHash (payload r))
                  then rpc_txHash (payload r) else None) /\
  ev_created_at r = t.

(** [initialize] of contractEventIndexerService.ts with its two helpers.
    The tables of the indexer are fields of [World], so they exist in every
    world and the CREATE ... IF NOT EXISTS statements of [ensureSchema]
    find them in place. *)
Module IndexerLifecycle.
Section WithEnv.

Variable env : Env.




End WithEnv.
End IndexerLifecycle.


(** The answers the controller can give: 200 with a result, or one of the
    four error shapes of [handleError]. *)
Definition well_answered (r : Response) : Prop :=
  (http_status r = 200 /\ forall msg, body r <> BodyError msg) \/
  (http_status r = 400 /\
   (body r = BodyError "Validation Error" \/
    body r = BodyError "Invalid admin secret key.")) \/
  (http_status r = 404 /\
   exists msg, body r = BodyError msg /\ Js.includes "not found" msg = true) \/
  (http_status r = 409 /\
   exists msg, body r = BodyError msg /\
     (Js.includes "Cannot execute" msg || Js.includes "cannot be cancelled" msg)
       = true) \/
  (http_status r = 500 /\ body r = BodyError "Internal Server Error").

(** [getIndexedContractIds] of contractEventIndexerService.ts, as a
    function of the three environment variables it reads. *)
Module IndexerConfig.

(** The white space and line terminators that [String.prototype.trim]
    strips, by their UTF-8 encodings.  One byte: TAB, LF, VT, FF, CR and
    SPACE. *)
Definition white_space_1 (a : ascii) : bool :=
  let n := nat_of_ascii a in
  ((9 <=? n) && (n <=? 13) || (n =? 32))%nat.

(** Two bytes: U+00A0, the no-break space. *)
Definition white_space_2 (a b : ascii) : bool :=
  ((nat_of_ascii a =? 194) && (nat_of_ascii b =? 160))%nat.

(** Three bytes: U+1680; U+2000 to U+200A, U+2028, U+2029 and U+202F;
    U+205F; U+3000; U+FEFF. *)
Definition white_space_3 (a b c : ascii) : bool :=
  let '(x, y, z) := (nat_of_ascii a, nat_of_ascii b, nat_of_ascii c) in
  ((x =? 225) && (y =? 154) && (z =? 128)
   || (x =? 226) && (y =? 128)
      && ((128 <=? z) && (z <=? 138) || (z =? 168) || (z =? 169) || (z =? 175))
   || (x =? 226) && (y =? 129) && (z =? 159)
   || (x =? 227) && (y =? 128) && (z =? 128)
   || (x =? 239) && (y =? 187) && (z =? 191))%nat.

(** What follows the white space character [s] starts with, if it starts
    with one. *)
Definition skip_white_space (s : string) : option string :=
  match s with
  | String a r1 =>
      if white_space_1 a then Some r1
      else match r1 with
           | String b r2 =>
               if white_space_2 a b then Some r2
               else match r2 with
                    | String c r3 =>
                        if white_space_3 a b c then Some r3 else None
                    | EmptyString => None
                    end
           | EmptyString => None
           end
  | EmptyString => None
  end.

(** [trimStart]: white space is skipped as long as there is some; a string
    of n bytes holds at most n characters. *)
Fixpoint skip_all_white_space (fuel : nat) (s : string) : string :=
  match fuel with
  | O => s
  | S fuel' =>
      match skip_white_space s with
      | Some rest => skip_all_white_space fuel' rest
      | None => s
      end
  end.

Definition trimStart (s : string) : string :=
  skip_all_white_space (String.length s) s.

(** A string of white space only. *)
Definition is_blank (s : string) : bool := String.eqb (trimStart s) "".

(** [trimEnd]: the string is cut where what is left is white space only. *)
Fixpoint trimEnd (s : string) : string :=
  match s with
  | EmptyString => EmptyString
  | String c rest =>
      if is_blank s then EmptyString else String c (trimEnd rest)
  end.

Definition trim (s : string) : string := trimEnd (trimStart s).

(** [[...new Set(values)]]: the first occurrence of each value, in order. *)
Fixpoint spreadSet (seen values : list string) : list string :=
  match values with
  | [] => []
  | v :: rest =>
      if bool_decide (v ∈ seen) then spreadSet seen rest
      else v :: spreadSet (v :: seen) rest
  end.

Definition getIndexedContractIds
    (BULK_PAYMENT_CONTRACT_ID VESTING_ESCROW_CONTRACT_ID
     REVENUE_SPLIT_CONTRACT_ID : option string) : list string :=
  let envIds :=
    List.filter (fun value => Js.truthy (Some value))
      (List.map (fun value => trim (Js.or_else value ""))
         [BULK_PAYMENT_CONTRACT_ID; VESTING_ESCROW_CONTRACT_ID;
          REVENUE_SPLIT_CONTRACT_ID]) in
  spreadSet [] envIds.

(** The environment of a process started with these three variables. *)
Definition configured (bulk vesting revenue : option string) (e : Env) : Env :=
  mkEnv (now e) (getRpcServer e) (getLedgerEntries e) (getAccount e)
        (buildUpgradeTx e) (simulateTransaction e) (getFeeStats e)
        (keypairFromSecret e) (assembleAndSign e) (sendTransaction e)
        (getTransaction e) (stroopsToXlm e)
        (getIndexedContractIds bulk vesting revenue)
        (DEFAULT_START_LEDGER e) (fetchEvents e) (stepQuery e).

End IndexerConfig.

(** The router of the contract endpoints under /api/v1/contracts:
    the routes in registration order, and Express's choice of the first
    route whose method and path accept the request.  A request path is
    given by its segments between slashes. *)
Module ContractUpgradeRoutes.

Inductive Method := GET | POST.

Inductive Segment :=
| Literal (text : string)
| Param (name : string).

Inductive Handler :=
| listContracts | getContract | validateHash | simulateUpgrade
| listUpgradeLogs | executeUpgrade | getUpgradeStatus | cancelUpgrade.

Record Route := mkRoute {
  route_method : Method;
  route_path : list Segment;
  route_handler : Handler;
}.

Definition router : list Route :=
  [ mkRoute GET [] listContracts;
    mkRoute GET [Param "registryId"] getContract;
    mkRoute POST [Param "registryId"; Literal "validate-hash"] validateHash;
    mkRoute POST [Param "registryId"; Literal "simulate-upgrade"] simulateUpgrade;
    mkRoute GET [Param "registryId"; Literal "upgrade-logs"] listUpgradeLogs;
    mkRoute POST [Literal "upgrade-logs"; Param "logId"; Literal "execute"]
            executeUpgrade;
    mkRoute GET [Literal "upgrade-logs"; Param "logId"; Literal "status"]
            getUpgradeStatus;
    mkRoute POST [Literal "upgrade-logs"; Param "logId"; Literal "cancel"]
            cancelUpgrade ].

Definition method_eqb (a b : Method) : bool :=
  match a, b with
  | GET, GET | POST, POST => true
  | _, _ => false
  end.

(** A literal accepts its text in any letter case (the router is not case
    sensitive); a parameter accepts any segment that is not empty. *)
Fixpoint path_matches (pattern : list Segment) (url : list string) : bool :=
  match pattern, url with
  | [], [] => true
  | Literal text :: pattern', seg :: url' =>
      String.eqb (Js.toLowerCase text) (Js.toLowerCase seg)
      && path_matches pattern' url'
  | Param _ :: pattern', seg :: url' =>
      negb (String.eqb seg "") && path_matches pattern' url'
  | _, _ => false
  end.

Definition accepts (m : Method) (url : list string) (r : Route) : bool :=
  method_eqb (route_method r) m && path_matches (route_path r) url.

Definition dispatch (routes : list Route) (m : Method) (url : list string)
    : option Handler :=
  option_map route_handler (List.find (accepts m url) routes).

End ContractUpgradeRoutes.

(* ===================================================================== *)
(** ** Reasoning about computations                                        *)
(* ===================================================================== *)

Section Preserves.
Context {X : Type} (f : World -> X).

Lemma preserves_ret {A} (a : A) : preserves f (ret a).
Proof. intros w; reflexivity. Qed.

Lemma preserves_throw {A} (e : Exn) : preserves f (@throw A e).
Proof. intros w; reflexivity. Qed.

Lemma preserves_get : preserves f get.
Proof. intros w; reflexivity. Qed.

Lemma preserves_bind {A B} (m : M A) (k : A -> M B) :
  preserves f m -> (forall a, preserves f (k a)) -> preserves f (bind m k).
Proof.
  intros Hm Hk w. unfold bind. specialize (Hm w).
  destruct (m w) as [[a|e] w1]; simpl in *; [rewrite Hk|]; exact Hm.
Qed.

Lemma preserves_try_catch {A} (m : M A) (h : Exn -> M A) :
  preserves f m -> (forall e, preserves f (h e)) -> preserves f (try_catch m h).
Proof.
  intros Hm Hh w. unfold try_catch. specialize (Hm w).
  destruct (m w) as [[a|e] w1]; simpl in *; [|rewrite Hh]; exact Hm.
Qed.

Lemma preserves_finally {A} (m : M A) (g : World -> World) :
  preserves f m -> (forall w, f (g w) = f w) -> preserves f (finally m g).
Proof.
  intros Hm Hg w. unfold finally. specialize (Hm w).
  destruct (m w) as [r w1]; simpl in *. rewrite Hg. exact Hm.
Qed.

Lemma preserves_modify (g : World -> World) :
  (forall w, f (g w) = f w) -> preserves f (modify g).
Proof. intros Hg w; apply Hg. Qed.

Lemma preserves_sdk {A} (o : Outcome A) : preserves f (sdk o).
Proof. destruct o; intros w; reflexivity. Qed.

Lemma preserves_if {A} (b : bool) (m1 m2 : M A) :
  preserves f m1 -> preserves f m2 -> preserves f (if b then m1 else m2).
Proof. destruct b; auto. Qed.

End Preserves.

Lemma preserves_emit {X} (f : World -> X) (e : Effect) :
  (forall w, f (log_effect e w) = f w) -> preserves f (emit e).
Proof. intros H; apply preserves_modify, H. Qed.

Lemma preserves_call {X A} (f : World -> X) (name : string) (o : Outcome A) :
  (forall e w, f (log_effect e w) = f w) -> preserves f (call name o).
Proof.
  intros H. unfold call. apply preserves_bind.
  - apply preserves_emit, H.
  - intros _. destruct o; [apply preserves_ret | apply preserves_throw].
Qed.

Lemma selectById_preserves {X A} (f : World -> X) (type_name : string)
    (max : Z) (table : World -> gmap Z A) (id : Z) :
  preserves f (selectById type_name max table id).
Proof. intros w. unfold selectById. repeat case_match; reflexivity. Qed.

Lemma selectLogWithContract_preserves {X} (f : World -> X) (id : Z) :
  preserves f (selectLogWithContract id).
Proof. intros w. unfold selectLogWithContract. repeat case_match; reflexivity. Qed.

Create HintDb pres discriminated.
#[global] Hint Resolve preserves_ret preserves_throw preserves_get
  preserves_sdk : pres.

(** Break a goal [preserves f m] down along the structure of [m]. *)
Ltac pres_step :=
  match goal with
  | |- preserves _ (bind _ _) => apply preserves_bind; [| intros ?]
  | |- preserves _ (try_catch _ _) => apply preserves_try_catch; [| intros ?]
  | |- preserves _ (finally _ _) => apply preserves_finally; [| intros ?]
  | |- preserves _ (ret _) => apply preserves_ret
  | |- preserves _ (throw _) => apply preserves_throw
  | |- preserves _ get => apply preserves_get
  | |- preserves _ (sdk _) => apply preserves_sdk
  | |- preserves _ (selectById _ _ _ _) => apply selectById_preserves
  | |- preserves _ (selectLogWithContract _) =>
      apply selectLogWithContract_preserves
  | |- preserves _ (emit _) => apply preserves_emit; intros ?; reflexivity
  | |- preserves _ (call _ _) => apply preserves_call; intros ? ?; reflexivity
  | |- preserves _ (modify _) => apply preserves_modify; intros ?; reflexivity
  | |- preserves _ (if ?b then _ else _) => destruct b
  | |- preserves _ (match ?x with _ => _ end) => destruct x
  | |- preserves _ (let '_ := ?x in _) => destruct x
  end.

Ltac pres := repeat pres_step; auto with pres.

(* ===================================================================== *)
(** ** The model at work                                                   *)
(* ===================================================================== *)

Example regex_accepts_lowercase : WASM_HASH_REGEX_test Fixture.hash_b = true.
Proof. reflexivity. Qed.

Example regex_accepts_uppercase : WASM_HASH_REGEX_test Fixture.hash_B = true.
Proof. reflexivity. Qed.

Example regex_rejects_short : WASM_HASH_REGEX_test "abc123" = false.
Proof. reflexivity. Qed.

Example schema_check_rejects_uppercase : pg_wasm_hash_check Fixture.hash_B = false.
Proof. reflexivity. Qed.

Example default_step_ids :
  step_id <$> buildDefaultMigrationSteps = ["step-0"; "step-1"; "step-2"; "step-3"].
Proof. reflexivity. Qed.

Example handleError_not_found :
  answer (Error "Upgrade log not found.") Fixture.seeded
    = Returns (mkResponse 404 (BodyError "Upgrade log not found.")).
Proof. reflexivity. Qed.

(** Simulating against a simulator that reports a fee of 1000000: the log
    is inserted, the simulation runs, and the statement that should store
    its result is refused by the server, so the call throws and the log
    stays 'pending', which [executeUpgrade] does not accept. *)
Example simulate_scenario :
  let r := ContractUpgradeService.simulateUpgrade Fixture.happy 1
             Fixture.hash_b Fixture.admin (Some "routine upgrade")
             Fixture.seeded in
  fst r = Throws (pg_inconsistent_types "$1") /\
  status <$> contract_upgrade_logs (snd r) !! 1 = Some pending /\
  fst (ContractUpgradeService.executeUpgrade Fixture.happy 1 "SADMINSECRET"
         (snd r))
    = Throws (Error (CANNOT_EXECUTE pending)).
Proof. vm_compute. repeat split. Qed.

(** From a log that is 'simulated': execute against a submitter that
    returns "deadbeef" and confirms, then let the migration run. *)
Example upgrade_scenario :
  let w2 := snd (ContractUpgradeService.executeUpgrade Fixture.happy 1
                   "SADMINSECRET" Fixture.ready) in
  let w3 := snd (ContractUpgradeService.runMigrationSteps Fixture.happy 1 w2) in
  status <$> contract_upgrade_logs w2 !! 1 = Some executing /\
  status <$> contract_upgrade_logs w3 !! 1 = Some completed /\
  tx_hash <$> contract_upgrade_logs w3 !! 1 = Some (Some "deadbeef") /\
  current_wasm_hash <$> contract_registry w3 !! 1 = Some Fixture.hash_b /\
  (fmap step_status ∘ migration_steps) <$> contract_upgrade_logs w3 !! 1
    = Some [step_completed; step_completed; step_completed; step_completed].
Proof. vm_compute. repeat split. Qed.

Example poll_scenario :
  let w1 := snd (ContractEventIndexerService.pollOnce Fixture.happy
                   Fixture.seeded) in
  ContractEventIndexerService.checkpoint w1 = Some 15 /\
  length (contract_events w1) = 3%nat.
Proof. vm_compute. split; reflexivity. Qed.

(* ===================================================================== *)
(** ** Cancelling an upgrade                                               *)
(* ===================================================================== *)

Lemma cancellable_iff (l : UpgradeLog) :
  ContractUpgradeService.cancellable l = true <->
  status l = pending \/ status l = simulated \/ status l = confirmed.
Proof.
  unfold ContractUpgradeService.cancellable.
  destruct (status l); vm_compute; intuition congruence.
Qed.

Lemma cancelUpgrade_run (env : Env) (w : World) (id : Z) :
  ContractUpgradeService.cancelUpgrade env id w =
  match contract_upgrade_logs w !! id with
  | Some l =>
      if ContractUpgradeService.cancellable l then
        (Returns tt,
         set_logs (<[id := log_set_finished cancelled (now env) l]>
                     (contract_upgrade_logs w))
                  (log_effect (DbUpdateUpgradeLog id) w))
      else (Throws (Error CANNOT_CANCEL), log_effect (DbUpdateUpgradeLog id) w)
  | None =>
      if pg_fits PG_BIGINT_MAX id
      then (Throws (Error CANNOT_CANCEL), log_effect (DbUpdateUpgradeLog id) w)
      else (Throws (pg_number_error "bigint" id), w)
  end.
Proof.
  unfold ContractUpgradeService.cancelUpgrade, updateLogWhere, bind, get, emit,
    modify, ret, throw; simpl.
  destruct (contract_upgrade_logs w !! id) as [l|].
  - destruct (ContractUpgradeService.cancellable l); reflexivity.
  - destruct (pg_fits PG_BIGINT_MAX id); reflexivity.
Qed.

(** C8. [cancelUpgrade] on an existing log succeeds exactly when the log is
    'pending', 'simulated' or 'confirmed'; the row then becomes 'cancelled'
    with completed_at set to the time of the call.  From 'executing',
    'completed', 'failed' or 'cancelled' it throws the error that the
    controller answers with 409 (Conflict), and the store is left as it
    was. *)
Theorem cancelUpgrade_exactly_when_not_started
    (env : Env) (w : World) (id : Z) (l : UpgradeLog) :
  contract_upgrade_logs w !! id = Some l ->
  let r := ContractUpgradeService.cancelUpgrade env id w in
  (fst r = Returns tt <->
     status l = pending \/ status l = simulated \/ status l = confirmed) /\
  (fst r = Returns tt ->
     exists l',
       contract_upgrade_logs (snd r) = <[id := l']> (contract_upgrade_logs w) /\
       status l' = cancelled /\ completed_at l' = Some (now env) /\
       l' = log_set_finished cancelled (now env) l) /\
  (status l = executing \/ status l = completed \/ status l = failed
     \/ status l = cancelled ->
     fst r = Throws (Error CANNOT_CANCEL) /\
     same_store w (snd r) /\
     answer (Error CANNOT_CANCEL) (snd r)
       = Returns (mkResponse 409 (BodyError CANNOT_CANCEL))).
Proof.
  intros Hl r. subst r. rewrite cancelUpgrade_run, Hl.
  pose proof (cancellable_iff l) as Hc.
  destruct (ContractUpgradeService.cancellable l) eqn:E; simpl.
  - split; [tauto|]. split.
    + intros _. eexists. repeat split; reflexivity.
    + intros H. exfalso.
      assert (Hs : status l = pending \/ status l = simulated
                   \/ status l = confirmed) by (apply Hc; reflexivity).
      destruct H as [H|[H|[H|H]]], Hs as [Hs|[Hs|Hs]]; congruence.
  - split.
    + split; [discriminate|]. intros H. apply Hc in H. discriminate.
    + split; [discriminate|]. intros _. repeat split.
Qed.

Lemma cancelUpgrade_exactly_when_not_started_witness :
  let w := snd (ContractUpgradeService.simulateUpgrade Fixture.happy 1
                  Fixture.hash_b Fixture.admin None Fixture.seeded) in
  fst (ContractUpgradeService.cancelUpgrade Fixture.happy 1 w) = Returns tt.
Proof.
  intros w.
  assert (Hl : exists l, contract_upgrade_logs w !! 1 = Some l /\ status l = pending).
  { eexists; split; vm_compute; reflexivity. }
  destruct Hl as [l [Hl Hs]].
  apply (cancelUpgrade_exactly_when_not_started Fixture.happy w 1 l Hl).
  left; exact Hs.
Defined.

Lemma pg_fits_iff (max n : Z) :
  pg_fits max n = true <-> - max - 1 <= n <= max.
Proof. unfold pg_fits. rewrite andb_true_iff, !Z.leb_le. tauto. Qed.





(* ===================================================================== *)
(** ** Executing from a status that does not permit it                     *)
(* ===================================================================== *)

(** The guard of [executeUpgrade], case by case. *)
Lemma loadExecutableLog_run (w : World) (id : Z) :
  ContractUpgradeService.loadExecutableLog id w =
  match contract_upgrade_logs w !! id with
  | None =>
      if pg_fits PG_BIGINT_MAX id then (Throws (Error LOG_NOT_FOUND), w)
      else (Throws (pg_number_error "bigint" id), w)
  | Some l =>
      match contract_registry w !! registry_id l with
      | None => (Throws (Error LOG_NOT_FOUND), w)
      | Some _ =>
          if bool_decide (status l = simulated)
             || bool_decide (status l = confirmed)
          then (Returns l, w)
          else (Throws (Error (CANNOT_EXECUTE (status l))), w)
      end
  end.
Proof.
  unfold ContractUpgradeService.loadExecutableLog, selectLogWithContract, bind.
  destruct (contract_upgrade_logs w !! id) as [l|].
  - destruct (contract_registry w !! registry_id l); simpl; [|reflexivity].
    destruct (bool_decide (status l = simulated)
              || bool_decide (status l = confirmed)); reflexivity.
  - destruct (pg_fits PG_BIGINT_MAX id); reflexivity.
Qed.

(** C7. [executeUpgrade] on a log (joined with its registry row) whose
    status is neither 'simulated' nor 'confirmed' throws an error whose
    message quotes that status, which the controller answers with 409; no
    statement is issued, so the world, the log's status included, is the
    one it started from. *)
Theorem executeUpgrade_rejects_other_statuses
    (env : Env) (w : World) (id : Z) (secret : string)
    (l : UpgradeLog) (c : ContractRecord) :
  contract_upgrade_logs w !! id = Some l ->
  contract_registry w !! registry_id l = Some c ->
  status l <> simulated ->
  status l <> confirmed ->
  let r := ContractUpgradeService.executeUpgrade env id secret w in
  fst r = Throws (Error (CANNOT_EXECUTE (status l))) /\
  Js.includes ("'" ++ status_text (status l) ++ "'")
              (CANNOT_EXECUTE (status l)) = true /\
  snd r = w /\
  contract_upgrade_logs (snd r) !! id = Some l /\
  answer (Error (CANNOT_EXECUTE (status l))) w
    = Returns (mkResponse 409 (BodyError (CANNOT_EXECUTE (status l)))).
Proof.
  intros Hl Hc Hs1 Hs2 r. subst r.
  unfold ContractUpgradeService.executeUpgrade, bind.
  rewrite loadExecutableLog_run, Hl, Hc.
  destruct (status l) eqn:E; try congruence; simpl;
    (split; [reflexivity|]; split; [vm_compute; reflexivity|];
     split; [reflexivity|]; split; [exact Hl | vm_compute; reflexivity]).
Qed.

Lemma executeUpgrade_rejects_other_statuses_witness :
  let w := set_logs {[ 1 := ContractUpgradeService.pendingLog 1
                              Fixture.bulk_payment Fixture.hash_b
                              Fixture.admin None ]} Fixture.seeded in
  fst (ContractUpgradeService.executeUpgrade Fixture.happy 1 "SSECRET" w)
    = Throws (Error (CANNOT_EXECUTE pending)) /\
  snd (ContractUpgradeService.executeUpgrade Fixture.happy 1 "SSECRET" w) = w.
Proof.
  intros w.
  pose proof (executeUpgrade_rejects_other_statuses Fixture.happy w 1 "SSECRET"
                (ContractUpgradeService.pendingLog 1 Fixture.bulk_payment
                   Fixture.hash_b Fixture.admin None)
                Fixture.bulk_payment) as H.
  destruct H as (H1 & _ & H2 & _).
  - reflexivity.
  - reflexivity.
  - discriminate.
  - discriminate.
  - split; [exact H1 | exact H2].
Defined.

(* ===================================================================== *)
(** ** Validating a code hash                                              *)
(* ===================================================================== *)

Lemma selectById_found {A} (type_name : string) (max : Z)
    (table : World -> gmap Z A) (id : Z) (w : World) (row : A) :
  table w !! id = Some row ->
  selectById type_name max table id w = (Returns (Some row), w).
Proof. intros H. unfold selectById. rewrite H. reflexivity. Qed.


Lemma getContract_found (w : World) (id : Z) (c : ContractRecord) :
  contract_registry w !! id = Some c ->
  ContractUpgradeService.getContract id w = (Returns (Some c), w).
Proof. apply selectById_found. Qed.

Lemma validateWasmHash_run
    (env : Env) (w : World) (registryId : Z) (h : string) (c : ContractRecord) :
  WASM_HASH_REGEX_test h = true ->
  contract_registry w !! registryId = Some c ->
  Js.toLowerCase h <> Js.toLowerCase (current_wasm_hash c) ->
  ContractUpgradeService.validateWasmHash env registryId h w =
  match getRpcServer env with
  | Throws _ => (Returns (mkValidate true None), log_effect ConsoleWarn w)
  | Returns _ =>
      let w1 := log_effect (Rpc "getLedgerEntries") w in
      match getLedgerEntries env h with
      | Throws _ => (Returns (mkValidate true None), log_effect ConsoleWarn w1)
      | Returns None | Returns (Some O) =>
          (Returns (mkValidate false (Some NOT_ON_NETWORK)), w1)
      | Returns (Some (S _)) => (Returns (mkValidate true None), w1)
      end
  end.
Proof.
  intros Hre Hc Hne.
  unfold ContractUpgradeService.validateWasmHash.
  rewrite Hre. simpl.
  unfold bind at 1. rewrite (getContract_found w registryId c Hc).
  destruct (String.eqb_spec (Js.toLowerCase h)
              (Js.toLowerCase (current_wasm_hash c))) as [Heq|_]; [contradiction|].
  unfold bind, try_catch, call, sdk, emit, modify, bind, ret, throw.
  destruct (getRpcServer env) as [[]|e0]; simpl; [|reflexivity].
  destruct (getLedgerEntries env h) as [[[|n]|]|e1]; reflexivity.
Qed.

(** C9. For a hash that passes the format check and differs from the
    contract's current hash: when the existence query throws, the check is
    skipped with a console warning and the result is valid; when the query
    answers with no entry, the result is invalid with the reason that the
    hash was not found on the network.  Neither case throws or writes to
    the store. *)
Theorem validateWasmHash_on_chain_check_is_advisory
    (env : Env) (w : World) (registryId : Z) (h : string) (c : ContractRecord) :
  WASM_HASH_REGEX_test h = true ->
  contract_registry w !! registryId = Some c ->
  Js.toLowerCase h <> Js.toLowerCase (current_wasm_hash c) ->
  let r := ContractUpgradeService.validateWasmHash env registryId h w in
  (forall e, getRpcServer env = Returns tt ->
     getLedgerEntries env h = Throws e ->
     fst r = Returns (mkValidate true None) /\
     trace (snd r) = (trace w ++ [Rpc "getLedgerEntries"; ConsoleWarn])%list /\
     same_store w (snd r)) /\
  (getRpcServer env = Returns tt ->
   getLedgerEntries env h = Returns None \/
   getLedgerEntries env h = Returns (Some 0%nat) ->
     fst r = Returns (mkValidate false (Some NOT_ON_NETWORK)) /\
     same_store w (snd r)).
Proof.
  intros Hre Hc Hne r. subst r.
  rewrite (validateWasmHash_run env w registryId h c Hre Hc Hne).
  split.
  - intros e Hsrv He. rewrite Hsrv, He. simpl.
    split; [reflexivity|]. split; [|reflexivity].
    rewrite <- app_assoc. reflexivity.
  - intros Hsrv [He|He]; rewrite Hsrv, He; simpl; split; reflexivity.
Qed.

Lemma validateWasmHash_on_chain_check_is_advisory_witness :
  fst (ContractUpgradeService.validateWasmHash Fixture.unreachable 1
         Fixture.hash_b Fixture.seeded) = Returns (mkValidate true None) /\
  fst (ContractUpgradeService.validateWasmHash Fixture.absent_code 1
         Fixture.hash_b Fixture.seeded)
    = Returns (mkValidate false (Some NOT_ON_NETWORK)).
Proof.
  split.
  - apply (validateWasmHash_on_chain_check_is_advisory Fixture.unreachable
             Fixture.seeded 1 Fixture.hash_b Fixture.bulk_payment)
      with (e := Error "connect ECONNREFUSED");
      [reflexivity | reflexivity | vm_compute; discriminate
      | reflexivity | reflexivity].
  - apply (validateWasmHash_on_chain_check_is_advisory Fixture.absent_code
             Fixture.seeded 1 Fixture.hash_b Fixture.bulk_payment);
      [reflexivity | reflexivity | vm_compute; discriminate
      | reflexivity | right; reflexivity].
Defined.

(* ===================================================================== *)
(** ** Malformed hashes                                                    *)
(* ===================================================================== *)

Lemma lower_char_hex (c : ascii) :
  Js.is_lower_hex (Js.lower_char c) = Js.is_hex_ci c.
Proof. destruct c as [[] [] [] [] [] [] [] []]; reflexivity. Qed.

Lemma toLowerCase_length (s : string) :
  String.length (Js.toLowerCase s) = String.length s.
Proof. induction s as [|c s IH]; simpl; congruence. Qed.

Lemma toLowerCase_all_hex (s : string) :
  Js.all_chars Js.is_lower_hex (Js.toLowerCase s) = Js.all_chars Js.is_hex_ci s.
Proof.
  induction s as [|c s IH]; simpl; [reflexivity|].
  rewrite lower_char_hex, IH. reflexivity.
Qed.

(** The stored form of a hash passes the CHECK of the table exactly when
    the hash passes the expression of the service. *)
Lemma pg_check_toLowerCase (s : string) :
  pg_wasm_hash_check (Js.toLowerCase s) = WASM_HASH_REGEX_test s.
Proof.
  unfold pg_wasm_hash_check, WASM_HASH_REGEX_test.
  rewrite toLowerCase_length, toLowerCase_all_hex. reflexivity.
Qed.





(* ===================================================================== *)
(** ** Simulating an upgrade                                               *)
(* ===================================================================== *)

Ltac trace_eq :=
  simpl; rewrite <- ?app_assoc; first [reflexivity | symmetry; apply app_nil_r].

Ltac all_rpc := repeat constructor; eexists; reflexivity.

Lemma rawRpcSimulate_returns (env : Env) (w : World) :
  exists sim w',
    ContractUpgradeService.rawRpcSimulate env w = (Returns sim, w') /\
    success sim = true /\
    same_store w w' /\
    trace w' = (trace w ++ [Rpc "getFeeStats"])%list.
Proof.
  cbv [ContractUpgradeService.rawRpcSimulate try_catch bind call emit modify
       ret throw].
  destruct (getFeeStats env) as [p|e]; simpl;
    do 2 eexists; (split; [reflexivity|]); repeat split.
Qed.

(** The simulation attempt never throws and touches nothing but the
    network. *)
Lemma attemptSimulation_returns (env : Env) (c : ContractRecord)
    (h initiatedBy : string) (w : World) :
  exists sim w' rpcs,
    ContractUpgradeService.attemptSimulation env c h initiatedBy w
      = (Returns sim, w') /\
    same_store w w' /\
    trace w' = (trace w ++ rpcs)%list /\
    Forall is_rpc rpcs.
Proof.
  unfold ContractUpgradeService.attemptSimulation.
  unfold try_catch at 1, bind at 1, sdk at 1.
  destruct (getRpcServer env) as [[]|e0]; simpl.
  2:{ exists (ContractUpgradeService.failedSimulation 0
                (message_or "Simulation failed" e0)), w, [].
      repeat split; [trace_eq | constructor]. }
  unfold bind at 1, try_catch at 1, bind at 1, call, emit, modify, bind at 1.
  destruct (getAccount env initiatedBy) as [[]|e1]; simpl.
  - cbv [bind sdk ret throw].
    destruct (buildUpgradeTx env (contract_id c) h) as [[]|e2]; simpl.
    + destruct (simulateTransaction env (contract_id c) h)
        as [[err l|? ? ? ? ? ?|l]|e3];
        simpl; do 3 eexists;
        (split; [reflexivity|]); (split; [reflexivity|]);
        (split; [trace_eq | all_rpc]).
    + do 3 eexists.
      (split; [reflexivity|]); (split; [reflexivity|]);
      (split; [trace_eq | all_rpc]).
  - destruct (rawRpcSimulate_returns env (log_effect (Rpc "getAccount") w))
      as (sim & w' & Hr & _ & Hs & Ht).
    rewrite Hr. exists sim, w', [Rpc "getAccount"; Rpc "getFeeStats"].
    split; [reflexivity|]. split; [exact Hs|].
    split; [rewrite Ht; trace_eq | all_rpc].
Qed.

Lemma insertUpgradeLog_accepts (row : UpgradeLog) (w : World) :
  pg_wasm_hash_check (previous_wasm_hash row) = true ->
  pg_wasm_hash_check (new_wasm_hash row) = true ->
  new_wasm_hash row <> previous_wasm_hash row ->
  contract_upgrade_logs w !! (upgrade_logs_seq w + 1) = None ->
  insertUpgradeLog row w =
  (Returns (upgrade_logs_seq w + 1),
   log_effect (DbInsertUpgradeLog (upgrade_logs_seq w + 1) row)
     (set_logs (<[upgrade_logs_seq w + 1 := row]> (contract_upgrade_logs w))
        (set_logs_seq (upgrade_logs_seq w + 1) w))).
Proof.
  intros Hp Hn Hd Hf.
  cbv [insertUpgradeLog bind get modify throw ret emit].
  rewrite Hp, Hn. simpl.
  destruct (String.eqb_spec (new_wasm_hash row) (previous_wasm_hash row));
    [contradiction|].
  rewrite Hf. reflexivity.
Qed.

Lemma updateLog_present (id : Z) (f : UpgradeLog -> UpgradeLog)
    (l : UpgradeLog) (w : World) :
  contract_upgrade_logs w !! id = Some l ->
  updateLog id f w =
  (Returns tt,
   set_logs (<[id := f l]> (contract_upgrade_logs w))
     (log_effect (DbUpdateUpgradeLog id) w)).
Proof.
  intros H. cbv [updateLog updateLogWhere bind get emit modify ret].
  simpl. rewrite H. reflexivity.
Qed.

Lemma updateLog_absent (id : Z) (f : UpgradeLog -> UpgradeLog) (w : World) :
  contract_upgrade_logs w !! id = None ->
  updateLog id f w =
  if pg_fits PG_BIGINT_MAX id
  then (Returns tt, log_effect (DbUpdateUpgradeLog id) w)
  else (Throws (pg_number_error "bigint" id), w).
Proof.
  intros H. cbv [updateLog updateLogWhere bind get emit modify ret throw].
  simpl. rewrite H. destruct (pg_fits PG_BIGINT_MAX id); reflexivity.
Qed.

(** [simulateUpgrade] once the row is accepted: whatever the simulation
    attempt returns, the statement that should store it is refused, and
    the call throws with the row as it was inserted. *)
Lemma simulateUpgrade_run
    (env : Env) (w : World) (id : Z) (h who : string)
    (notes : option string) (c : ContractRecord) :
  contract_registry w !! id = Some c ->
  pg_wasm_hash_check (current_wasm_hash c) = true ->
  WASM_HASH_REGEX_test h = true ->
  Js.toLowerCase h <> current_wasm_hash c ->
  contract_upgrade_logs w !! (upgrade_logs_seq w + 1) = None ->
  let idn := upgrade_logs_seq w + 1 in
  let row := ContractUpgradeService.pendingLog id c h who notes in
  let w1 := log_effect (DbInsertUpgradeLog idn row)
              (set_logs (<[idn := row]> (contract_upgrade_logs w))
                 (set_logs_seq idn w)) in
  forall sim w2,
    ContractUpgradeService.attemptSimulation env c h who w1 = (Returns sim, w2) ->
    ContractUpgradeService.simulateUpgrade env id h who notes w
      = (Throws (pg_inconsistent_types "$1"), w2).
Proof.
  intros Hc Hcur Hre Hne Hfresh idn row w1 sim w2 Hsim.
  assert (Hins := insertUpgradeLog_accepts row w).
  simpl in Hins. rewrite pg_check_toLowerCase in Hins.
  specialize (Hins Hcur Hre Hne Hfresh). fold idn in Hins. fold w1 in Hins.
  unfold ContractUpgradeService.simulateUpgrade.
  unfold bind at 1. rewrite (getContract_found w id c Hc).
  unfold bind at 1. fold row. rewrite Hins.
  unfold bind at 1. rewrite Hsim. reflexivity.
Qed.

(** C3, where the code departs from it.  On the seeded registry, a call
    for contract 1 and a new hash of 64 'b' creates exactly one row,
    'pending' with the previous and new hash and the default steps all
    'pending', before any call to the RPC.  Then, whatever the RPC answers
    and whether the simulation succeeded or not, the statement that should
    advance the row is refused by the server: the call throws, the row
    stays 'pending' with no simulation result and no completed_at, and the
    controller answers 500. *)
Theorem simulateUpgrade_log_stays_pending (env : Env) :
  let r := ContractUpgradeService.simulateUpgrade env 1 Fixture.hash_b
             Fixture.admin (Some "routine upgrade") Fixture.seeded in
  let row := ContractUpgradeService.pendingLog 1 Fixture.bulk_payment
               Fixture.hash_b Fixture.admin (Some "routine upgrade") in
  fst r = Throws (pg_inconsistent_types "$1") /\
  contract_upgrade_logs (snd r) = {[ 1 := row ]} /\
  (status row = pending /\
   previous_wasm_hash row = Fixture.hash_a /\
   new_wasm_hash row = Fixture.hash_b /\
   Forall (fun s => step_status s = step_pending) (migration_steps row) /\
   simulation_result row = None /\ completed_at row = None) /\
  (exists rpcs,
     trace (snd r) = (DbInsertUpgradeLog 1 row :: rpcs)%list /\
     Forall is_rpc rpcs) /\
  fst (ContractUpgradeController.simulateUpgrade env 1 Fixture.hash_b
         Fixture.admin (Some "routine upgrade") Fixture.seeded)
    = Returns (mkResponse 500 (BodyError "Internal Server Error")).
Proof.
  intros r row.
  set (w1 := log_effect (DbInsertUpgradeLog 1 row)
               (set_logs (<[1 := row]> (contract_upgrade_logs Fixture.seeded))
                  (set_logs_seq 1 Fixture.seeded))).
  destruct (attemptSimulation_returns env Fixture.bulk_payment Fixture.hash_b
              Fixture.admin w1)
    as (sim & w2 & rpcs & Hsim & Hstore & Htrace & Hrpcs).
  assert (Hrun : r = (Throws (pg_inconsistent_types "$1"), w2)).
  { assert (Hne : Js.toLowerCase Fixture.hash_b
                    <> current_wasm_hash Fixture.bulk_payment)
      by (vm_compute; discriminate).
    exact (simulateUpgrade_run env Fixture.seeded 1 Fixture.hash_b Fixture.admin
             (Some "routine upgrade") Fixture.bulk_payment
             eq_refl eq_refl eq_refl Hne eq_refl sim w2 Hsim). }
  split; [rewrite Hrun; reflexivity|].
  split.
  { rewrite Hrun. simpl.
    apply (f_equal contract_upgrade_logs) in Hstore. simpl in Hstore.
    rewrite <- Hstore. reflexivity. }
  split; [repeat split; vm_compute; repeat constructor|].
  split; [exists rpcs; rewrite Hrun; simpl; split; [exact Htrace | exact Hrpcs]|].
  unfold ContractUpgradeController.simulateUpgrade, try_catch.
  unfold bind at 1. simpl.
  unfold bind at 1. simpl.
  unfold bind at 1. fold r. rewrite Hrun. reflexivity.
Qed.

(** A call whose new hash is the current one is refused by the table
    (chk_different_hashes): it throws and no row is created. *)
Example simulateUpgrade_same_hash :
  let r := ContractUpgradeService.simulateUpgrade Fixture.happy 1
             Fixture.hash_a Fixture.admin None Fixture.seeded in
  contract_registry Fixture.seeded !! 1 = Some Fixture.bulk_payment /\
  fst r = Throws (pg_check_violation "contract_upgrade_logs"
                    "chk_different_hashes") /\
  contract_upgrade_logs (snd r) = ∅ /\
  trace (snd r) = [].
Proof. vm_compute. repeat split. Qed.

(* ===================================================================== *)
(** ** Running the migration steps                                         *)
(* ===================================================================== *)

Lemma attempted_steps_app (a b : list Effect) :
  attempted_steps (a ++ b) = (attempted_steps a ++ attempted_steps b)%list.
Proof. apply omap_app. Qed.

(** A step writes at most to the audit table, and records its attempt. *)
Lemma executeStep_effect (env : Env) (s : MigrationStep) (rid : Z) (w : World) :
  let w' := snd (ContractUpgradeService.executeStep env s rid w) in
  contract_upgrade_logs w' = contract_upgrade_logs w /\
  contract_registry w' = contract_registry w /\
  exists es, trace w' = (trace w ++ es)%list /\
             attempted_steps es = [step_id s].
Proof.
  cbv [ContractUpgradeService.executeStep ContractUpgradeService.getContract
       selectById bind emit modify get ret throw sdk].
  simpl.
  repeat case_match; simplify_eq; simpl;
    (split; [reflexivity|]; split; [reflexivity|]);
    eexists; (split; [trace_eq | reflexivity]).
Qed.

(** Whether a step throws depends on its id and on the registry only. *)
Lemma executeStep_outcome (env : Env) (s s' : MigrationStep) (rid : Z)
    (w w0 : World) :
  step_id s = step_id s' ->
  contract_registry w = contract_registry w0 ->
  fst (ContractUpgradeService.executeStep env s rid w)
    = fst (ContractUpgradeService.executeStep env s' rid w0).
Proof.
  intros Hid Hreg.
  cbv [ContractUpgradeService.executeStep ContractUpgradeService.getContract
       selectById bind emit modify get ret throw sdk].
  simpl. rewrite Hid.
  destruct (String.eqb (step_id s') "step-0");
    [destruct (stepQuery env "step-0"); simpl;
       [rewrite Hreg; destruct (contract_registry w0 !! rid);
          [|destruct (pg_fits PG_INTEGER_MAX rid)]|]; reflexivity|].
  destruct (String.eqb (step_id s') "step-1");
    [destruct (stepQuery env "step-1"); simpl;
       [rewrite Hreg; destruct (contract_registry w0 !! rid);
          [|destruct (pg_fits PG_INTEGER_MAX rid)]|]; reflexivity|].
  destruct (String.eqb (step_id s') "step-2"); [reflexivity|].
  destruct (String.eqb (step_id s') "step-3"); [|reflexivity].
  destruct (stepQuery env "step-3"); reflexivity.
Qed.

(** One iteration of the loop, by the outcome of its step. *)
Lemma migrationLoop_iteration (env : Env) (n i : nat) (id rid : Z)
    (cur : list MigrationStep) (s : MigrationStep) (row : UpgradeLog)
    (w : World) :
  cur !! i = Some s ->
  contract_upgrade_logs w !! id = Some row ->
  let run := step_set step_running None s in
  let cur1 := <[i := run]> cur in
  let w1 := set_logs (<[id := log_set_steps cur1 row]> (contract_upgrade_logs w))
              (log_effect (DbUpdateUpgradeLog id) w) in
  ContractUpgradeService.migrationLoop env (S n) i id rid cur w =
  match ContractUpgradeService.executeStep env run rid w1 with
  | (Returns _, w2) =>
      let cur2 := <[i := step_completed_of s]> cur1 in
      (ContractUpgradeService.persistMigrationSteps id cur2 ;;;
       ContractUpgradeService.migrationLoop env n (S i) id rid cur2) w2
  | (Throws e, w2) =>
      (ContractUpgradeService.persistMigrationSteps id
         (<[i := step_failed_of e s]> cur1) ;;;
       updateLog id (log_set_failed (MIGRATION_FAILED e s) (now env)) ;;;
       ret false) w2
  end.
Proof.
  intros Hs Hrow run cur1 w1. simpl. rewrite Hs.
  unfold bind at 1. unfold ContractUpgradeService.persistMigrationSteps at 1.
  rewrite (updateLog_present id _ row w Hrow). fold run cur1 w1.
  unfold bind at 1, try_catch, bind at 1.
  destruct (ContractUpgradeService.executeStep env run rid w1) as [[[]|e] w2].
  - reflexivity.
  - unfold step_failed_of, MIGRATION_FAILED.
    cbv [ContractUpgradeService.persistMigrationSteps updateLog updateLogWhere
         bind get emit modify ret].
    simpl. repeat case_match; simplify_eq; reflexivity.
Qed.

Lemma persistMigrationSteps_present (id : Z) (steps : list MigrationStep)
    (l : UpgradeLog) (w : World) :
  contract_upgrade_logs w !! id = Some l ->
  ContractUpgradeService.persistMigrationSteps id steps w =
  (Returns tt,
   set_logs (<[id := log_set_steps steps l]> (contract_upgrade_logs w))
     (log_effect (DbUpdateUpgradeLog id) w)).
Proof. apply updateLog_present. Qed.

Section MigrationFailure.

Variable env : Env.
Variables (id rid : Z) (steps : list MigrationStep).
Variables (k : nat) (sk : MigrationStep) (e : Exn) (w0 : World).

Hypothesis Hk : steps !! k = Some sk.
Hypothesis Hbefore :
  forall i s, (i < k)%nat -> steps !! i = Some s ->
    fst (ContractUpgradeService.executeStep env s rid w0) = Returns tt.
Hypothesis Hfail : fst (ContractUpgradeService.executeStep env sk rid w0) = Throws e.

(** The loop from index [i], with [d] steps still to succeed before the
    failing one. *)
Lemma migrationLoop_fails (d : nat) :
  forall (i n : nat) (cur : list MigrationStep) (w : World) (row : UpgradeLog),
    (i + d = k)%nat ->
    (i + n = length steps)%nat ->
    length cur = length steps ->
    (forall j, (i <= j)%nat -> cur !! j = steps !! j) ->
    contract_upgrade_logs w !! id = Some row ->
    contract_registry w = contract_registry w0 ->
    exists w' fin es,
      ContractUpgradeService.migrationLoop env n i id rid cur w
        = (Returns false, w') /\
      contract_upgrade_logs w'
        = <[id := log_set_failed (MIGRATION_FAILED e sk) (now env)
                    (log_set_steps fin row)]> (contract_upgrade_logs w) /\
      contract_registry w' = contract_registry w /\
      trace w' = (trace w ++ es)%list /\
      attempted_steps es = step_id <$> take (S d) (drop i steps) /\
      length fin = length steps /\
      (forall j, (j < i)%nat -> fin !! j = cur !! j) /\
      (forall j s, (i <= j < k)%nat -> steps !! j = Some s ->
         fin !! j = Some (step_completed_of s)) /\
      fin !! k = Some (step_failed_of e sk) /\
      (forall j, (k < j)%nat -> fin !! j = steps !! j).
Proof.
  assert (Hklen : (k < length steps)%nat) by (eapply lookup_lt_Some; exact Hk).
  induction d as [|d IH]; intros i n cur w row Hik Hin Hlen Hcur Hrow Hreg.
  - (* the failing step *)
    assert (i = k) by lia. subst i.
    destruct n as [|n]; [lia|].
    assert (Hs : cur !! k = Some sk) by (rewrite Hcur by lia; exact Hk).
    rewrite (migrationLoop_iteration env n k id rid cur sk row w Hs Hrow).
    set (run := step_set step_running None sk).
    set (cur1 := <[k := run]> cur).
    set (w1 := set_logs _ _).
    pose proof (executeStep_effect env run rid w1) as (Hl2 & Hr2 & es0 & Ht2 & Ha2).
    pose proof (executeStep_outcome env run sk rid w1 w0 eq_refl Hreg) as Ho.
    rewrite Hfail in Ho.
    destruct (ContractUpgradeService.executeStep env run rid w1) as [o w2].
    simpl in Ho, Hl2, Hr2, Ht2. subst o.
    set (fin := <[k := step_failed_of e sk]> cur1).
    assert (Hrow2 : contract_upgrade_logs w2 !! id = Some (log_set_steps cur1 row)).
    { rewrite Hl2. subst w1. simpl. apply lookup_insert_eq. }
    unfold bind at 1.
    rewrite (persistMigrationSteps_present id fin _ w2 Hrow2).
    unfold bind at 1.
    rewrite (updateLog_present id _ (log_set_steps fin (log_set_steps cur1 row)))
      by (simpl; apply lookup_insert_eq).
    do 3 eexists. split; [reflexivity|]. simpl.
    split.
    { rewrite Hl2. subst w1. simpl. rewrite !insert_insert_eq. reflexivity. }
    split; [rewrite Hr2; reflexivity|].
    split.
    { rewrite Ht2. subst w1. simpl. rewrite <- !app_assoc. reflexivity. }
    split.
    { rewrite !attempted_steps_app, Ha2. simpl.
      rewrite (drop_S _ _ _ Hk). reflexivity. }
    subst fin cur1.
    split; [rewrite !length_insert; exact Hlen|].
    split.
    { intros j Hj. rewrite !list_lookup_insert_ne by lia. reflexivity. }
    split; [intros j s Hj; lia|].
    split.
    { apply list_lookup_insert_eq. rewrite length_insert. lia. }
    intros j Hj. rewrite !list_lookup_insert_ne by lia. apply Hcur. lia.
  - (* a step that succeeds *)
    assert (Hilen : (i < length steps)%nat) by lia.
    destruct n as [|n]; [lia|].
    destruct (lookup_lt_is_Some_2 steps i Hilen) as [s Hsi].
    assert (Hs : cur !! i = Some s) by (rewrite Hcur by lia; exact Hsi).
    rewrite (migrationLoop_iteration env n i id rid cur s row w Hs Hrow).
    set (run := step_set step_running None s).
    set (cur1 := <[i := run]> cur).
    set (w1 := set_logs _ _).
    pose proof (executeStep_effect env run rid w1) as (Hl2 & Hr2 & es0 & Ht2 & Ha2).
    pose proof (executeStep_outcome env run s rid w1 w0 eq_refl Hreg) as Ho.
    rewrite (Hbefore i s) in Ho by (lia || exact Hsi).
    destruct (ContractUpgradeService.executeStep env run rid w1) as [o w2].
    simpl in Ho, Hl2, Hr2, Ht2. subst o.
    set (cur2 := <[i := step_completed_of s]> cur1).
    assert (Hrow2 : contract_upgrade_logs w2 !! id = Some (log_set_steps cur1 row)).
    { rewrite Hl2. subst w1. simpl. apply lookup_insert_eq. }
    unfold bind at 1.
    rewrite (persistMigrationSteps_present id cur2 _ w2 Hrow2).
    set (w3 := set_logs _ (log_effect _ w2)).
    destruct (IH (S i) n cur2 w3 (log_set_steps cur2 (log_set_steps cur1 row)))
      as (w' & fin & es & Hrun & Hlogs & Hregs & Htr & Hatt & Hflen & Hlow
          & Hmid & Hat & Hhigh).
    { lia. }
    { lia. }
    { subst cur2 cur1. rewrite !length_insert. exact Hlen. }
    { intros j Hj. subst cur2 cur1.
      rewrite !list_lookup_insert_ne by lia. apply Hcur. lia. }
    { subst w3. simpl. apply lookup_insert_eq. }
    { subst w3. simpl. rewrite Hr2. exact Hreg. }
    exists w', fin, ([DbUpdateUpgradeLog id] ++ es0 ++ [DbUpdateUpgradeLog id] ++ es)%list.
    split; [exact Hrun|].
    split.
    { rewrite Hlogs. subst w3. simpl. rewrite Hl2. subst w1. simpl.
      rewrite !insert_insert_eq. reflexivity. }
    split; [rewrite Hregs; subst w3; simpl; rewrite Hr2; reflexivity|].
    split.
    { rewrite Htr. subst w3. simpl. rewrite Ht2. subst w1. simpl.
      rewrite <- !app_assoc. reflexivity. }
    split.
    { rewrite !attempted_steps_app, Ha2, Hatt. simpl.
      rewrite (drop_S _ _ _ Hsi). reflexivity. }
    split; [exact Hflen|].
    split.
    { intros j Hj. rewrite Hlow by lia. subst cur2 cur1.
      rewrite !list_lookup_insert_ne by lia. reflexivity. }
    split.
    { intros j s' Hj Hs'. destruct (decide (j = i)) as [->|Hne].
      - rewrite Hlow by lia. subst cur2 cur1.
        rewrite list_lookup_insert_eq by (rewrite length_insert; lia).
        congruence.
      - apply Hmid; [lia | exact Hs']. }
    split; [exact Hat | exact Hhigh].
Qed.

End MigrationFailure.

(** C6. If, in [runMigrationSteps], the steps before position [k] succeed
    and the step at [k] throws, then afterwards the steps before [k] are
    'completed', step [k] is 'failed' with the message of what it threw,
    every later step is as it was loaded (so 'pending' stays 'pending') and
    was not attempted, and the log is 'failed' with completed_at set. *)
Theorem migration_failure_halts_at_failed_step
    (env : Env) (w : World) (id : Z) (row : UpgradeLog)
    (k : nat) (sk : MigrationStep) (e : Exn) :
  contract_upgrade_logs w !! id = Some row ->
  migration_steps row !! k = Some sk ->
  (forall i s, (i < k)%nat -> migration_steps row !! i = Some s ->
     fst (ContractUpgradeService.executeStep env s (registry_id row) w) = Returns tt) ->
  fst (ContractUpgradeService.executeStep env sk (registry_id row) w) = Throws e ->
  let w' := snd (ContractUpgradeService.runMigrationSteps env id w) in
  exists row' es,
    contract_upgrade_logs w' !! id = Some row' /\
    (forall i s, (i < k)%nat -> migration_steps row !! i = Some s ->
       migration_steps row' !! i
         = Some (mkMigrationStep (step_id s) (step_name s) step_completed
                   (Some STEP_COMPLETED))) /\
    migration_steps row' !! k
      = Some (mkMigrationStep (step_id sk) (step_name sk) step_failed
                (Some (message_or "Step failed" e))) /\
    (forall i, (k < i)%nat ->
       migration_steps row' !! i = migration_steps row !! i) /\
    (forall i s, (k < i)%nat -> migration_steps row !! i = Some s ->
       step_status s = step_pending ->
       exists s', migration_steps row' !! i = Some s' /\
                  step_status s' = step_pending) /\
    length (migration_steps row') = length (migration_steps row) /\
    trace w' = (trace w ++ es)%list /\
    attempted_steps es = step_id <$> take (S k) (migration_steps row) /\
    status row' = failed /\
    completed_at row' = Some (now env) /\
    error_message row' = Some (MIGRATION_FAILED e sk).
Proof.
  intros Hrow Hk Hbefore Hfail w'.
  destruct (migrationLoop_fails env id (registry_id row) (migration_steps row)
              k sk e w Hk Hbefore Hfail k 0%nat (length (migration_steps row))
              (migration_steps row) w row)
    as (w1 & fin & es & Hrun & Hlogs & _ & Htr & Hatt & Hlen & _ & Hmid & Hat
        & Hhigh); try reflexivity; try lia; try assumption.
  assert (Hw' : w' = w1).
  { subst w'. unfold ContractUpgradeService.runMigrationSteps.
    unfold bind at 1, get. simpl. rewrite Hrow.
    unfold bind at 1. rewrite Hrun. reflexivity. }
  rewrite Hw'.
  exists (log_set_failed (MIGRATION_FAILED e sk) (now env)
            (log_set_steps fin row)), es.
  split; [rewrite Hlogs; apply lookup_insert_eq|]. simpl.
  split; [intros i s Hi Hs; apply (Hmid i s); [lia | exact Hs]|].
  split; [exact Hat|].
  split; [exact Hhigh|].
  split.
  { intros i s Hi Hs Hp. exists s. rewrite Hhigh by lia. split; assumption. }
  split; [exact Hlen|].
  split; [exact Htr|].
  split; [exact Hatt|].
  repeat split.
Qed.

Lemma migration_failure_halts_at_failed_step_witness :
  let row := mkUpgradeLog 1 Fixture.hash_a Fixture.hash_b executing None
               (Some "deadbeef") buildDefaultMigrationSteps Fixture.admin
               None None None in
  let w := set_logs {[ 1 := row ]} Fixture.seeded in
  exists row' es,
    contract_upgrade_logs
      (snd (ContractUpgradeService.runMigrationSteps
              Fixture.dropped_connection 1 w)) !! 1
      = Some row' /\
    step_status <$> migration_steps row'
      = [step_completed; step_failed; step_pending; step_pending] /\
    attempted_steps es = ["step-0"; "step-1"] /\
    status row' = failed.
Proof.
  intros row w.
  destruct (migration_failure_halts_at_failed_step Fixture.dropped_connection
              w 1 row 1%nat
              (mkMigrationStep "step-1" "Validate storage schema compatibility"
                 step_pending None)
              (Error "Connection terminated unexpectedly"))
    as (row' & es & H1 & H2 & H3 & H4 & _ & H6 & _ & H8 & H9 & _).
  - reflexivity.
  - reflexivity.
  - intros i s Hi Hs. destruct i as [|i]; [|lia].
    injection Hs as <-. reflexivity.
  - reflexivity.
  - exists row', es. split; [exact H1|].
    split; [|split; [exact H8 | exact H9]].
    specialize (H2 0%nat _ ltac:(lia) eq_refl).
    pose proof (H4 2%nat ltac:(lia)) as H42.
    pose proof (H4 3%nat ltac:(lia)) as H43.
    destruct (migration_steps row') as [|a [|b [|c [|d [|x l]]]]];
      try discriminate.
    simpl in H2, H3, H42, H43.
    injection H2 as ->. injection H3 as ->. injection H42 as ->.
    injection H43 as ->.
    reflexivity.
Defined.

(* ===================================================================== *)
(** ** The event indexer                                                   *)
(* ===================================================================== *)

Import ContractEventIndexerService.

Lemma insertContractEvent_run (env : Env) (eventId contractId eventType : string)
    (event : RpcContractEvent) (ledgerSequence : Z) (txHash : option string)
    (w : World) :
  insertContractEvent env eventId contractId eventType event ledgerSequence
    txHash w =
  let id := contract_events_seq w + 1 in
  let w1 := log_effect (DbInsertEvent eventId contractId) w in
  if negb (pg_fits PG_BIGINT_MAX ledgerSequence)
  then (Throws (pg_number_error "bigint" ledgerSequence), w1)
  else if bool_decide ((eventId, contractId) ∈ event_key <$> contract_events w)
  then (Returns tt, set_events (contract_events w) id w1)
  else if bool_decide (id ∈ row_id <$> contract_events w)
  then (Throws (pg_duplicate_key "contract_events_pkey"),
        set_events (contract_events w) id w1)
  else (Returns tt,
        set_events (contract_events w ++
                      [mkEventRow id eventId contractId eventType event
                         ledgerSequence txHash (now env)]) id w1).
Proof.
  cbv [insertContractEvent bind get emit modify ret throw]. simpl.
  repeat case_match; reflexivity.
Qed.

Lemma insertContractEvent_preserves {X} (f : World -> X) (env : Env)
    (a b c : string) (event : RpcContractEvent) (l : Z) (t : option string) :
  (forall e w, f (log_effect e w) = f w) ->
  (forall rows n w, f (set_events rows n w) = f w) ->
  preserves f (insertContractEvent env a b c event l t).
Proof.
  intros He Hs w. rewrite insertContractEvent_run. simpl.
  repeat case_match; simpl; rewrite ?Hs, He; reflexivity.
Qed.

Lemma indexEvents_preserves {X} (f : World -> X) (env : Env)
    (events : list RpcContractEvent) :
  (forall e w, f (log_effect e w) = f w) ->
  (forall rows n w, f (set_events rows n w) = f w) ->
  forall m, preserves f (indexEvents env events m).
Proof.
  intros He Hs. induction events as [|event rest IH]; intros m; simpl.
  - apply preserves_ret.
  - destruct (String.eqb (contractIdOf event) ""); [apply IH|].
    destruct (ledgerSequenceOf event <=? 0); [apply IH|].
    apply preserves_bind; [|intros _; apply IH].
    apply insertContractEvent_preserves; assumption.
Qed.
























(** What a poll cycle does to the event table. *)
Lemma pollOnce_table (env : Env) (w : World) :
  let w' := snd (pollOnce env w) in
  (lock w = true /\ w' = w) \/
  (lock w = false /\ lock w' = false /\
   (((length (indexedContractIds env) =? 0)%nat = true \/
     exists e, getEventsOutcome env (startLedgerOf env w) = Throws e) /\
    contract_events w' = contract_events w /\
    contract_events_seq w' = contract_events_seq w
    \/
    exists evs wa,
      (length (indexedContractIds env) =? 0)%nat = false /\
      getEventsOutcome env (startLedgerOf env w) = Returns evs /\
      contract_events wa = contract_events w /\
      contract_events_seq wa = contract_events_seq w /\
      let wb := snd (indexEvents env evs (lastIndexedOf env w) wa) in
      contract_events w' = contract_events wb /\
      contract_events_seq w' = contract_events_seq wb)).
Proof.
  intros w'. subst w'.
  remember (pollOnce env w) as r eqn:Hr.
  unfold pollOnce in Hr. unfold bind at 1, get in Hr. simpl in Hr.
  destruct (lock w) eqn:Hlock; [left; subst r; split; reflexivity|].
  right. split; [reflexivity|].
  unfold bind at 1, modify, finally, try_catch in Hr. simpl in Hr.
  set (w1 := set_lock true w) in Hr.
  unfold pollCycle in Hr.
  destruct (length (indexedContractIds env) =? 0)%nat eqn:Hcontracts.
  { subst r. simpl. split; [reflexivity|]. left.
    split; [left; reflexivity|]. split; reflexivity. }
  unfold bind at 1, get in Hr.
  change (lastIndexedOf env w1) with (lastIndexedOf env w) in Hr.
  change (startLedgerOf env w1) with (startLedgerOf env w) in Hr.
  unfold bind at 1, fetchContractEvents, call, bind at 1, emit, modify in Hr.
  destruct (getEventsOutcome env (startLedgerOf env w)) as [events|e] eqn:Hfetch;
    simpl in Hr.
  2:{ subst r. simpl. split; [reflexivity|]. left.
      split; [right; eexists; reflexivity|]. split; reflexivity. }
  set (w2 := log_effect (Rpc "getEvents") w1) in Hr.
  destruct (length events =? 0)%nat eqn:Hlen.
  { subst r. simpl. split; [reflexivity|]. right.
    exists events, w2. split; [reflexivity|]. split; [reflexivity|].
    split; [reflexivity|]. split; [reflexivity|].
    destruct events; [|discriminate]. simpl. split; reflexivity. }
  unfold bind at 1 in Hr.
  assert (Hgoal : forall wf : World,
    lock wf = false /\
    contract_events wf = contract_events
        (snd (indexEvents env events (lastIndexedOf env w) w2)) /\
    contract_events_seq wf = contract_events_seq
        (snd (indexEvents env events (lastIndexedOf env w) w2)) ->
    lock wf = false /\
    ((false = true \/ (exists e : Exn, Returns events = Throws e)) /\
     contract_events wf = contract_events w /\
     contract_events_seq wf = contract_events_seq w \/
     (exists evs wa,
        false = false /\ Returns events = Returns evs /\
        contract_events wa = contract_events w /\
        contract_events_seq wa = contract_events_seq w /\
        (let wb := snd (indexEvents env evs (lastIndexedOf env w) wa) in
         contract_events wf = contract_events wb /\
         contract_events_seq wf = contract_events_seq wb)))).
  { intros wf (H1 & H2 & H3). split; [exact H1|]. right.
    exists events, w2. repeat split; assumption. }
  apply Hgoal. clear Hgoal.
  destruct (indexEvents env events (lastIndexedOf env w) w2) as [[m|e] w3].
  - destruct (m >? lastIndexedOf env w).
    + cbv [updateIndexState bind get emit modify ret] in Hr. simpl in Hr.
      subst r. destruct (contract_event_index_state w3 !! INDEX_STATE_KEY);
        simpl; repeat split.
    + subst r. simpl. repeat split.
  - subst r. simpl. repeat split.
Qed.




(* ===================================================================== *)
(** ** Who writes the registry                                             *)
(* ===================================================================== *)

Import ContractUpgradeService.

Lemma updateLogWhere_preserves_registry (id : Z) (cond : UpgradeLog -> bool)
    (f : UpgradeLog -> UpgradeLog) :
  preserves contract_registry (updateLogWhere id cond f).
Proof. unfold updateLogWhere. pres. Qed.

Lemma updateLog_preserves_registry (id : Z) (f : UpgradeLog -> UpgradeLog) :
  preserves contract_registry (updateLog id f).
Proof.
  unfold updateLog. apply preserves_bind;
    [apply updateLogWhere_preserves_registry | intros; apply preserves_ret].
Qed.


Lemma simulateUpgrade_preserves_registry (env : Env) (id : Z)
    (h who : string) (notes : option string) :
  preserves contract_registry (simulateUpgrade env id h who notes).
Proof.
  unfold simulateUpgrade, getContract, insertUpgradeLog, attemptSimulation,
    rawRpcSimulate, persistSimulation.
  pres.
Qed.


Lemma executeStep_preserves_registry (env : Env) (s : MigrationStep) (rid : Z) :
  preserves contract_registry (executeStep env s rid).
Proof. intros w. apply (executeStep_effect env s rid w). Qed.

Lemma migrationLoop_preserves_registry (env : Env) (id rid : Z) (n : nat) :
  forall i steps, preserves contract_registry (migrationLoop env n i id rid steps).
Proof.
  induction n as [|n IH]; intros i steps; simpl; [apply preserves_ret|].
  destruct (steps !! i) as [s|]; [|apply preserves_ret].
  unfold persistMigrationSteps.
  apply preserves_bind; [apply updateLog_preserves_registry|intros _].
  apply preserves_bind.
  - apply preserves_try_catch.
    + apply preserves_bind; [apply executeStep_preserves_registry|].
      intros; apply preserves_ret.
    + intros e.
      apply preserves_bind; [apply updateLog_preserves_registry|intros _].
      apply preserves_bind; [apply updateLog_preserves_registry|intros _].
      apply preserves_ret.
  - intros [steps'|[]]; [|apply preserves_ret].
    apply preserves_bind; [apply updateLog_preserves_registry|intros _].
    apply IH.
Qed.



Lemma pollLoop_spec (env : Env) (hash : string) (n : nat) :
  forall attempt w,
    let r := pollLoop env n attempt hash w in
    contract_registry (snd r) = contract_registry w /\
    contract_upgrade_logs (snd r) = contract_upgrade_logs w /\
    (exists rpcs, trace (snd r) = (trace w ++ rpcs)%list /\ Forall is_rpc rpcs) /\
    (forall h, fst r = Returns h ->
       h = hash /\
       exists a, getTransaction env hash a = Returns TX_SUCCESS).
Proof.
  induction n as [|n IH]; intros attempt w; simpl.
  - split; [reflexivity|]. split; [reflexivity|].
    split; [exists []; split; [symmetry; apply app_nil_r | constructor]|].
    discriminate.
  - cbv [bind call emit modify ret throw]. simpl.
    assert (Hone : exists rpcs,
              (trace w ++ [Rpc "getTransaction"] = trace w ++ rpcs)%list /\
              Forall is_rpc rpcs).
    { exists [Rpc "getTransaction"]. split; [reflexivity|].
      repeat constructor. eexists; reflexivity. }
    destruct (getTransaction env hash attempt) as [[| |]|e] eqn:Hg; simpl.
    + repeat split; try congruence; try exact Hone. exists attempt. exact Hg.
    + repeat split; try discriminate; exact Hone.
    + destruct (IH (S attempt) (log_effect (Rpc "getTransaction") w))
        as (H1 & H2 & (rpcs & H3 & H4) & H5).
      split; [exact H1|]. split; [exact H2|]. split; [|exact H5].
      exists (Rpc "getTransaction" :: rpcs). split.
      * rewrite H3. simpl. rewrite <- app_assoc. reflexivity.
      * constructor; [eexists; reflexivity | exact H4].
    + repeat split; try discriminate; exact Hone.
Qed.

Ltac submit_thrown r :=
  subst r; simpl;
  split; [reflexivity | left; split; [eexists; reflexivity | reflexivity]].

(** The [try] block of [executeUpgrade] never writes a log, and writes the
    registry only as its last action, after the transaction was seen
    confirmed: until then it has only talked to the network. *)
Lemma submitUpgrade_registry (env : Env) (log : UpgradeLog) (id : Z)
    (secret : string) (w : World) :
  let r := submitUpgrade env log id secret w in
  contract_upgrade_logs (snd r) = contract_upgrade_logs w /\
  ((exists e, fst r = Throws e) /\
   contract_registry (snd r) = contract_registry w
   \/
   exists l c who txHash attempt rpcs,
     contract_upgrade_logs w !! id = Some l /\
     contract_registry w !! registry_id l = Some c /\
     keypairFromSecret env secret = Returns who /\
     getTransaction env txHash attempt = Returns TX_SUCCESS /\
     fst r = Returns txHash /\
     contract_registry (snd r)
       = <[registry_id l := registry_set_hash (new_wasm_hash log) (now env) who c]>
           (contract_registry w) /\
     Forall is_rpc rpcs /\
     trace (snd r) = (trace w ++ rpcs ++ [DbUpdateRegistry id])%list).
Proof.
  intros r. remember r as r' eqn:Hr. subst r.
  unfold submitUpgrade in Hr.
  unfold bind at 1, sdk at 1 in Hr.
  destruct (keypairFromSecret env secret) as [who|e] eqn:Hkey; simpl in Hr;
    [|submit_thrown r'].
  unfold bind at 1, sdk at 1 in Hr.
  destruct (getRpcServer env) as [[]|e]; simpl in Hr;
    [|submit_thrown r'].
  unfold bind at 1, call at 1, bind at 1, emit, modify in Hr.
  destruct (getAccount env who) as [[]|e]; simpl in Hr;
    [|submit_thrown r'].
  unfold bind at 1, get in Hr.
  unfold bind at 1, selectLogWithContract in Hr. simpl in Hr.
  destruct (contract_upgrade_logs w !! id) as [l|] eqn:Hl; simpl in Hr.
  2:{ destruct (pg_fits PG_BIGINT_MAX id); submit_thrown r'. }
  destruct (contract_registry w !! registry_id l) as [c|] eqn:Hc; simpl in Hr;
    rewrite ?Hc in Hr; simpl in Hr; [|submit_thrown r'].
  destruct (String.eqb (contract_id c) ""); simpl in Hr;
    [submit_thrown r'|].
  unfold bind at 1, sdk at 1 in Hr.
  destruct (buildUpgradeTx env (contract_id c) (new_wasm_hash log)) as [[]|e];
    simpl in Hr; [|submit_thrown r'].
  unfold bind at 1, call at 1, bind at 1, emit, modify in Hr.
  destruct (simulateTransaction env (contract_id c) (new_wasm_hash log))
    as [[err lat|? ? ? ? ? ?|lat]|e]; simpl in Hr;
    [submit_thrown r'
    |
    |submit_thrown r'
    |submit_thrown r'].
  unfold bind at 1, sdk at 1 in Hr.
  destruct (assembleAndSign env) as [[]|e]; simpl in Hr;
    [|submit_thrown r'].
  unfold bind at 1, call at 1, bind at 1, emit, modify in Hr.
  destruct (sendTransaction env) as [send|e]; simpl in Hr;
    [|submit_thrown r'].
  destruct (String.eqb (send_status send) "ERROR"); simpl in Hr;
    [submit_thrown r'|].
  unfold bind at 1, pollForConfirmation in Hr.
  match type of Hr with
  | context [pollLoop env ?n ?a ?h ?w'] =>
      pose proof (pollLoop_spec env h n a w') as (Hpr & Hpl & (es & Hpt & Hes) & Hph);
      destruct (pollLoop env n a h w') as [[txHash|e] wp] eqn:Hpoll
  end; simpl in Hpr, Hpl, Hpt, Hph;
    [|subst r'; simpl; split; [exact Hpl | left; split; [eexists; reflexivity | exact Hpr]]].
  destruct (Hph txHash eq_refl) as (-> & attempt & Hconf).
  cbv [updateRegistryForLog bind get emit modify ret throw] in Hr.
  simpl in Hr. rewrite Hpl, Hl in Hr. rewrite Hpr, Hc in Hr.
  destruct (pg_wasm_hash_check (new_wasm_hash log)); simpl in Hr; subst r'; simpl.
  - split; [exact Hpl|]. right.
    exists l, c, who, (send_hash send), attempt,
      ([Rpc "getAccount"; Rpc "simulateTransaction"; Rpc "sendTransaction"] ++ es)%list.
    split; [reflexivity|]. split; [exact Hc|]. split; [reflexivity|].
    split; [exact Hconf|]. split; [reflexivity|].
    split; [reflexivity|].
    split.
    + apply Forall_app. split; [|exact Hes].
      repeat constructor; eexists; reflexivity.
    + rewrite Hpt. simpl. rewrite <- !app_assoc. reflexivity.
  - split; [exact Hpl|]. left. split; [eexists; reflexivity | exact Hpr].
Qed.

(** [executeUpgrade] after its guard, on a row [l] that is there when its
    UPDATE to 'executing' runs, whatever the status of [l] and whichever
    row [log] the guard had read.  The row is marked 'executing' without a
    test.  Either the call throws, the registry is as before and the row is
    'failed'; or it returns, and its statements were, in this order: the
    UPDATE to 'executing', requests to the network, the UPDATE of the
    registry, the UPDATE that stores the transaction hash, and the start of
    the migration. *)
Lemma executeLoadedLog_cases (env : Env) (log l : UpgradeLog) (id : Z)
    (secret : string) (w : World) :
  contract_upgrade_logs w !! id = Some l ->
  let r := executeLoadedLog env log id secret w in
  (exists e,
     fst r = Throws e /\
     contract_registry (snd r) = contract_registry w /\
     contract_upgrade_logs (snd r)
       = <[id := log_set_failed (message_or "Execution failed" e) (now env)
                   (log_set_status executing l)]> (contract_upgrade_logs w))
  \/
  (exists c who txHash attempt rpcs,
     contract_registry w !! registry_id l = Some c /\
     keypairFromSecret env secret = Returns who /\
     getTransaction env txHash attempt = Returns TX_SUCCESS /\
     fst r = Returns (mkExecuteResult id txHash executing) /\
     contract_registry (snd r)
       = <[registry_id l := registry_set_hash (new_wasm_hash log) (now env) who c]>
           (contract_registry w) /\
     contract_upgrade_logs (snd r)
       = <[id := log_set_tx_hash txHash (log_set_status executing l)]>
           (contract_upgrade_logs w) /\
     Forall is_rpc rpcs /\
     trace (snd r)
       = (trace w ++ [DbUpdateUpgradeLog id] ++ rpcs
            ++ [DbUpdateRegistry id; DbUpdateUpgradeLog id; SpawnMigration id])%list).
Proof.
  intros Hl r. remember r as r' eqn:Hr. subst r.
  unfold executeLoadedLog in Hr.
  unfold bind at 1 in Hr. rewrite (updateLog_present id _ l w Hl) in Hr.
  set (w1 := set_logs _ _) in Hr.
  assert (Hl1 : contract_upgrade_logs w1 !! id = Some (log_set_status executing l))
    by (subst w1; simpl; apply lookup_insert_eq).
  unfold bind at 1, try_catch in Hr.
  pose proof (submitUpgrade_registry env log id secret w1) as (Hsl & Hsr).
  destruct (submitUpgrade env log id secret w1) as [[txHash|e] w2];
    simpl in Hsl, Hsr.
  - unfold bind at 1 in Hr.
    rewrite (updateLog_present id _ (log_set_status executing l) w2) in Hr
      by (rewrite Hsl; apply lookup_insert_eq).
    cbv [bind emit modify ret] in Hr. simpl in Hr. subst r'. simpl.
    destruct Hsr as [[[e He] _]|(l1 & c1 & who & tx & attempt & rpcs & Hl1' & Hc1
                                  & Hkey & Hconf & Hret & Hreg & Hrpcs & Htr)];
      [discriminate|].
    right. rewrite lookup_insert_eq in Hl1'. injection Hl1' as <-.
    simpl in Hc1, Hreg. injection Hret as <-.
    exists c1, who, txHash, attempt, rpcs.
    split; [exact Hc1|]. split; [exact Hkey|]. split; [exact Hconf|].
    split; [reflexivity|]. split; [exact Hreg|].
    split; [rewrite Hsl; apply insert_insert_eq|].
    split; [exact Hrpcs|].
    rewrite Htr. simpl. rewrite <- !app_assoc. reflexivity.
  - left. exists e. unfold bind at 1 in Hr.
    rewrite (updateLog_present id _ (log_set_status executing l) w2) in Hr
      by (rewrite Hsl; apply lookup_insert_eq).
    cbv [bind throw] in Hr. subst r'. simpl.
    destruct Hsr as [[_ Hsame]|(? & ? & ? & ? & ? & ? & _ & _ & _ & _ & Hret & _)];
      [|discriminate].
    split; [reflexivity|]. split; [rewrite Hsame; reflexivity|].
    rewrite Hsl. apply insert_insert_eq.
Qed.




(* ===================================================================== *)
(** ** Further properties: validating and simulating                       *)
(* ===================================================================== *)

(** [validateWasmHash], branch by branch. *)
Lemma validateWasmHash_cases (env : Env) (id : Z) (h : string) (w : World) :
  validateWasmHash env id h w =
  if negb (WASM_HASH_REGEX_test h)
  then (Returns (mkValidate false (Some BAD_FORMAT)), w)
  else
    match contract_registry w !! id with
    | None =>
        if pg_fits PG_INTEGER_MAX id
        then (Returns (mkValidate false (Some CONTRACT_NOT_FOUND)), w)
        else (Throws (pg_number_error "integer" id), w)
    | Some c =>
        if String.eqb (Js.toLowerCase h) (Js.toLowerCase (current_wasm_hash c))
        then (Returns (mkValidate false (Some IDENTICAL_HASH)), w)
        else
          match getRpcServer env with
          | Throws _ => (Returns (mkValidate true None), log_effect ConsoleWarn w)
          | Returns _ =>
              let w1 := log_effect (Rpc "getLedgerEntries") w in
              match getLedgerEntries env h with
              | Throws _ =>
                  (Returns (mkValidate true None), log_effect ConsoleWarn w1)
              | Returns None | Returns (Some O) =>
                  (Returns (mkValidate false (Some NOT_ON_NETWORK)), w1)
              | Returns (Some (S _)) => (Returns (mkValidate true None), w1)
              end
          end
    end.
Proof.
  destruct (WASM_HASH_REGEX_test h) eqn:Hre; simpl.
  2:{ unfold validateWasmHash. rewrite Hre. reflexivity. }
  destruct (contract_registry w !! id) as [c|] eqn:Hc.
  2:{ unfold validateWasmHash. rewrite Hre. simpl.
      unfold getContract, selectById, bind, ret. rewrite Hc.
      destruct (pg_fits PG_INTEGER_MAX id); reflexivity. }
  destruct (String.eqb_spec (Js.toLowerCase h)
              (Js.toLowerCase (current_wasm_hash c))) as [Heq|Hne].
  - unfold validateWasmHash. rewrite Hre. simpl.
    unfold bind at 1. rewrite (getContract_found w id c Hc).
    rewrite Heq, String.eqb_refl. reflexivity.
  - apply (validateWasmHash_run env w id h c Hre Hc Hne).
Qed.

(** The branches of [validateWasmHash] that return a verdict. *)
Ltac verdict_returns :=
  split; [reflexivity|];
  split;
  [split;
   [intros [? ?]; discriminate
   |intros (? & ? & ?); first [discriminate | contradiction]]
  |split; [discriminate | intros ? [= <-]; simpl]].

(** X1. [validateWasmHash] never writes to the store, whatever the
    registry holds and whatever the RPC does.  It throws in one case only:
    a well-formed hash with a registry id that has no row and does not fit
    the INTEGER key of the registry, where the SELECT fails.  Otherwise it
    returns a verdict, which is valid exactly when the hash has the format,
    the contract is registered, the hash differs (ignoring case) from the
    current one, and the ledger query either could not be made or returned
    at least one entry; an invalid verdict always carries a reason, a valid
    one never. *)
Theorem validateWasmHash_verdict (env : Env) (id : Z) (h : string) (w : World) :
  let r := validateWasmHash env id h w in
  same_store w (snd r) /\
  ((exists e, fst r = Throws e) <->
     WASM_HASH_REGEX_test h = true /\
     contract_registry w !! id = None /\
     ~ (- PG_INTEGER_MAX - 1 <= id <= PG_INTEGER_MAX)) /\
  (forall e, fst r = Throws e -> e = pg_number_error "integer" id) /\
  (forall res,
     fst r = Returns res ->
     (valid res = true <->
        WASM_HASH_REGEX_test h = true /\
        (exists c, contract_registry w !! id = Some c /\
                   Js.toLowerCase h <> Js.toLowerCase (current_wasm_hash c)) /\
        ((exists e, getRpcServer env = Throws e) \/
         (exists e, getLedgerEntries env h = Throws e) \/
         (exists n, getLedgerEntries env h = Returns (Some (S n))))) /\
     (valid res = false -> exists why, reason res = Some why) /\
     (valid res = true -> reason res = None)).
Proof.
  intros r. subst r. rewrite validateWasmHash_cases.
  destruct (WASM_HASH_REGEX_test h) eqn:Hre; simpl.
  2:{ verdict_returns.
      split; [|split; [eauto | discriminate]].
      split; [discriminate | intros (? & _); discriminate]. }
  destruct (contract_registry w !! id) as [c|] eqn:Hc.
  2:{ destruct (pg_fits PG_INTEGER_MAX id) eqn:Hfit.
      - apply pg_fits_iff in Hfit. verdict_returns.
        split; [|split; [eauto | discriminate]].
        split; [discriminate | intros (_ & (c & ? & _) & _); discriminate].
      - assert (Hno : ~ (- PG_INTEGER_MAX - 1 <= id <= PG_INTEGER_MAX))
          by (rewrite <- pg_fits_iff, Hfit; discriminate).
        split; [reflexivity|]. simpl. split.
        + split; [intros _; repeat split; assumption | intros _; eexists; reflexivity].
        + split; [intros e [= <-]; reflexivity | discriminate]. }
  destruct (String.eqb_spec (Js.toLowerCase h)
              (Js.toLowerCase (current_wasm_hash c))) as [Heq|Hne].
  { verdict_returns.
    split; [|split; [eauto | discriminate]].
    split; [discriminate|]. intros (_ & (c' & Hc' & Hne) & _).
    injection Hc' as <-. contradiction. }
  assert (H2 : exists c0, Some c = Some c0 /\
               Js.toLowerCase h <> Js.toLowerCase (current_wasm_hash c0))
    by (exists c; split; [reflexivity | exact Hne]).
  destruct (getRpcServer env) as [[]|e0] eqn:Hsrv; simpl.
  2:{ verdict_returns.
      split; [|split; [discriminate | reflexivity]].
      split; [|reflexivity]. intros _.
      split; [reflexivity|]. split; [exact H2|]. left. eexists; reflexivity. }
  destruct (getLedgerEntries env h) as [[[|n]|]|e1] eqn:Hent; simpl;
    verdict_returns.
  - split; [|split; [eauto | discriminate]].
    split; [discriminate|].
    intros (_ & _ & [[e He]|[[e He]|[n He]]]); discriminate.
  - split; [|split; [discriminate | reflexivity]].
    split; [|reflexivity]. intros _.
    split; [reflexivity|]. split; [exact H2|]. right; right. eexists; reflexivity.
  - split; [|split; [eauto | discriminate]].
    split; [discriminate|].
    intros (_ & _ & [[e He]|[[e He]|[n He]]]); discriminate.
  - split; [|split; [discriminate | reflexivity]].
    split; [|reflexivity]. intros _.
    split; [reflexivity|]. split; [exact H2|]. right; left. eexists; reflexivity.
Qed.

(** X2. A well-formed hash that equals the contract's current hash up to
    the case of its letters is reported invalid as identical; the call
    returns at once, with no request to the RPC and the world untouched. *)
Theorem validateWasmHash_identical_hash
    (env : Env) (id : Z) (h : string) (w : World) (c : ContractRecord) :
  WASM_HASH_REGEX_test h = true ->
  contract_registry w !! id = Some c ->
  Js.toLowerCase h = Js.toLowerCase (current_wasm_hash c) ->
  validateWasmHash env id h w
    = (Returns (mkValidate false (Some IDENTICAL_HASH)), w).
Proof.
  intros Hre Hc Heq. rewrite validateWasmHash_cases, Hre, Hc. simpl.
  rewrite Heq, String.eqb_refl. reflexivity.
Qed.

Lemma validateWasmHash_identical_hash_witness :
  validateWasmHash Fixture.unreachable 1 (Fixture.hash_of "A") Fixture.seeded
    = (Returns (mkValidate false (Some IDENTICAL_HASH)), Fixture.seeded).
Proof.
  apply (validateWasmHash_identical_hash Fixture.unreachable 1
           (Fixture.hash_of "A") Fixture.seeded Fixture.bulk_payment);
    reflexivity.
Defined.








(* ===================================================================== *)
(** ** Further properties: executing                                       *)
(* ===================================================================== *)

Lemma executeUpgrade_guard_rejects
    (env : Env) (w : World) (id : Z) (secret : string)
    (l : UpgradeLog) (c : ContractRecord) :
  contract_upgrade_logs w !! id = Some l ->
  contract_registry w !! registry_id l = Some c ->
  status l <> simulated ->
  status l <> confirmed ->
  executeUpgrade env id secret w
    = (Throws (Error (CANNOT_EXECUTE (status l))), w).
Proof.
  intros Hl Hc Hs1 Hs2.
  unfold executeUpgrade. unfold bind at 1.
  rewrite loadExecutableLog_run, Hl, Hc.
  destruct (status l) eqn:E; try congruence; reflexivity.
Qed.

Lemma loadExecutableLog_passes (w : World) (id : Z) (l : UpgradeLog)
    (c : ContractRecord) :
  contract_upgrade_logs w !! id = Some l ->
  contract_registry w !! registry_id l = Some c ->
  status l = simulated \/ status l = confirmed ->
  loadExecutableLog id w = (Returns l, w).
Proof.
  intros Hl Hc Hst. rewrite loadExecutableLog_run, Hl, Hc.
  replace (bool_decide (status l = simulated)
           || bool_decide (status l = confirmed)) with true; [reflexivity|].
  symmetry. apply orb_true_iff.
  destruct Hst as [H|H]; [left|right]; apply bool_decide_eq_true; exact H.
Qed.

(** After [executeUpgrade]'s continuation the row is 'executing' when it
    returned and 'failed' when it threw, whatever the row was before. *)
Lemma executeLoadedLog_status (env : Env) (log l : UpgradeLog) (id : Z)
    (secret : string) (w : World) :
  contract_upgrade_logs w !! id = Some l ->
  let r := executeLoadedLog env log id secret w in
  (exists e, fst r = Throws e /\
             status <$> contract_upgrade_logs (snd r) !! id = Some failed /\
             contract_registry (snd r) = contract_registry w)
  \/
  (exists txHash c who,
     fst r = Returns (mkExecuteResult id txHash executing) /\
     status <$> contract_upgrade_logs (snd r) !! id = Some executing /\
     tx_hash <$> contract_upgrade_logs (snd r) !! id = Some (Some txHash) /\
     contract_registry w !! registry_id l = Some c /\
     keypairFromSecret env secret = Returns who /\
     contract_registry (snd r)
       = <[registry_id l := registry_set_hash (new_wasm_hash log) (now env) who c]>
           (contract_registry w)).
Proof.
  intros Hl r.
  destruct (executeLoadedLog_cases env log l id secret w Hl)
    as [(e & He & Hreg & Hlogs)
       |(c & who & txHash & attempt & rpcs & Hc & Hkey & _ & Hret & Hreg
         & Hlogs & _)]; fold r in He || fold r in Hret; fold r in Hreg, Hlogs.
  - left. exists e. split; [exact He|]. split; [|exact Hreg].
    rewrite Hlogs, lookup_insert_eq. reflexivity.
  - right. exists txHash, c, who. split; [exact Hret|].
    rewrite Hlogs, lookup_insert_eq. repeat split; assumption.
Qed.








(** Two calls of [executeUpgrade] on one log that overlap: both guards read
    the 'simulated' row before either call writes.  Both calls return, the
    upgrade is submitted twice and the registry is written twice. *)
Example executeUpgrade_overlapping_calls :
  let w := Fixture.ready in
  let g1 := loadExecutableLog 1 w in
  let g2 := loadExecutableLog 1 (snd g1) in
  let r1 := executeLoadedLog Fixture.happy Fixture.simulated_log 1
              "SADMINSECRET" (snd g2) in
  let r2 := executeLoadedLog Fixture.happy Fixture.simulated_log 1
              "SADMINSECRET" (snd r1) in
  fst g1 = Returns Fixture.simulated_log /\
  fst g2 = Returns Fixture.simulated_log /\
  fst r1 = Returns (mkExecuteResult 1 "deadbeef" executing) /\
  fst r2 = Returns (mkExecuteResult 1 "deadbeef" executing) /\
  trace (snd r2)
    = [DbUpdateUpgradeLog 1; Rpc "getAccount"; Rpc "simulateTransaction";
       Rpc "sendTransaction"; Rpc "getTransaction";
       DbUpdateRegistry 1; DbUpdateUpgradeLog 1; SpawnMigration 1;
       DbUpdateUpgradeLog 1; Rpc "getAccount"; Rpc "simulateTransaction";
       Rpc "sendTransaction"; Rpc "getTransaction";
       DbUpdateRegistry 1; DbUpdateUpgradeLog 1; SpawnMigration 1].
Proof. vm_compute. repeat split. Qed.

(** X9. Among calls that do not overlap, a cancelled upgrade stays
    cancelled: after a [cancelUpgrade] that succeeded, a second one is
    refused and leaves the store as it is, and an [executeUpgrade] started
    afterwards is refused with the status 'cancelled' in its message,
    before anything is sent to the network.  An [executeUpgrade] that had
    read the row, then 'simulated' or 'confirmed', before the cancellation
    is not stopped by it: it goes on, and leaves the log 'executing' or
    'failed' instead of 'cancelled'. *)
Theorem cancelled_upgrade_stays_cancelled
    (env : Env) (w : World) (id : Z) (l : UpgradeLog) (c : ContractRecord) :
  contract_upgrade_logs w !! id = Some l ->
  contract_registry w !! registry_id l = Some c ->
  status l = pending \/ status l = simulated \/ status l = confirmed ->
  let w' := snd (cancelUpgrade env id w) in
  contract_upgrade_logs w' !! id
    = Some (log_set_finished cancelled (now env) l) /\
  (forall (env2 : Env) (secret : string),
     fst (cancelUpgrade env2 id w') = Throws (Error CANNOT_CANCEL) /\
     same_store w' (snd (cancelUpgrade env2 id w')) /\
     executeUpgrade env2 id secret w'
       = (Throws (Error (CANNOT_EXECUTE cancelled)), w')) /\
  (status l = simulated \/ status l = confirmed ->
   loadExecutableLog id w = (Returns l, w) /\
   forall (env2 : Env) (secret : string),
     exists s,
       (s = executing \/ s = failed) /\
       status <$> contract_upgrade_logs
                    (snd (executeLoadedLog env2 l id secret w')) !! id
         = Some s).
Proof.
  intros Hl Hc Hst w'.
  assert (Hw' : w' = set_logs (<[id := log_set_finished cancelled (now env) l]>
                                 (contract_upgrade_logs w))
                       (log_effect (DbUpdateUpgradeLog id) w)).
  { subst w'. rewrite cancelUpgrade_run, Hl.
    replace (cancellable l) with true; [reflexivity|].
    symmetry. apply cancellable_iff. exact Hst. }
  assert (Hl' : contract_upgrade_logs w' !! id
                = Some (log_set_finished cancelled (now env) l))
    by (rewrite Hw'; simpl; apply lookup_insert_eq).
  split; [exact Hl'|]. split.
  - intros env2 secret. rewrite cancelUpgrade_run, Hl'. simpl.
    split; [reflexivity|]. split; [reflexivity|].
    apply (executeUpgrade_guard_rejects env2 w' id secret _ c Hl').
    + rewrite Hw'. simpl. exact Hc.
    + discriminate.
    + discriminate.
  - intros Hst'. split; [apply (loadExecutableLog_passes w id l c Hl Hc Hst')|].
    intros env2 secret.
    destruct (executeLoadedLog_status env2 l _ id secret w' Hl')
      as [(e & _ & H & _)|(txHash & c2 & who & _ & H & _)].
    + exists failed. split; [right; reflexivity | exact H].
    + exists executing. split; [left; reflexivity | exact H].
Qed.

Lemma cancelled_upgrade_stays_cancelled_witness :
  let w' := snd (cancelUpgrade Fixture.happy 1 Fixture.ready) in
  executeUpgrade Fixture.happy 1 "SADMINSECRET" w'
    = (Throws (Error (CANNOT_EXECUTE cancelled)), w') /\
  status <$> contract_upgrade_logs
               (snd (executeLoadedLog Fixture.happy Fixture.simulated_log 1
                       "SADMINSECRET" w')) !! 1
    = Some executing.
Proof.
  intros w'.
  destruct (cancelled_upgrade_stays_cancelled Fixture.happy Fixture.ready 1
              Fixture.simulated_log Fixture.bulk_payment) as (_ & H & _).
  - reflexivity.
  - reflexivity.
  - right; left. reflexivity.
  - split; [apply (H Fixture.happy "SADMINSECRET") | reflexivity].
Defined.

(* ===================================================================== *)
(** ** Further properties: polling for confirmation                       *)
(* ===================================================================== *)

Lemma trace_iter_getTransaction (k : nat) (w : World) :
  trace (Nat.iter k (log_effect (Rpc "getTransaction")) w)
    = (trace w ++ replicate k (Rpc "getTransaction"))%list /\
  store (Nat.iter k (log_effect (Rpc "getTransaction")) w) = store w.
Proof.
  induction k as [|k [IHt IHs]]; simpl.
  - split; [symmetry; apply app_nil_r | reflexivity].
  - split.
    + rewrite IHt, <- app_assoc. f_equal.
      change (replicate k (Rpc "getTransaction") ++ [Rpc "getTransaction"])%list
        with (replicate k (Rpc "getTransaction")
                ++ replicate 1 (Rpc "getTransaction"))%list.
      rewrite <- replicate_add. replace (k + 1)%nat with (S k) by lia.
      reflexivity.
    + unfold store in *. simpl. exact IHs.
Qed.

(** While the status is "not found" the loop goes on to the next attempt. *)
Lemma pollLoop_skips_pending (env : Env) (hash : string) (k : nat) :
  forall n a w,
    (forall j, (j < k)%nat ->
       getTransaction env hash (a + j) = Returns TX_NOT_FOUND) ->
    pollLoop env (k + n) a hash w
      = pollLoop env n (a + k) hash
          (Nat.iter k (log_effect (Rpc "getTransaction")) w).
Proof.
  induction k as [|k IH]; intros n a w Hpend.
  - simpl. rewrite Nat.add_0_r. reflexivity.
  - simpl pollLoop. cbv [bind call emit modify ret throw]. simpl.
    specialize (Hpend 0%nat ltac:(lia)) as H0. rewrite Nat.add_0_r in H0.
    rewrite H0. simpl.
    rewrite (IH n (S a) (log_effect (Rpc "getTransaction") w)).
    + replace (S a + k)%nat with (a + S k)%nat by lia.
      rewrite <- Nat.iter_succ_r. reflexivity.
    + intros j Hj. replace (S a + j)%nat with (a + S j)%nat by lia.
      apply Hpend. lia.
Qed.

Lemma pollLoop_calls (env : Env) (hash : string) (n : nat) :
  forall a w,
    exists k, (k <= n)%nat /\
      trace (snd (pollLoop env n a hash w))
        = (trace w ++ replicate k (Rpc "getTransaction"))%list /\
      same_store w (snd (pollLoop env n a hash w)).
Proof.
  induction n as [|n IH]; intros a w; simpl.
  - exists 0%nat. split; [lia|]. split; [symmetry; apply app_nil_r | reflexivity].
  - cbv [bind call emit modify ret throw]. simpl.
    destruct (getTransaction env hash a) as [[| |]|e]; simpl;
      try (exists 1%nat; split; [lia|]; split; reflexivity).
    destruct (IH (S a) (log_effect (Rpc "getTransaction") w))
      as (k & Hk & Ht & Hs).
    exists (S k). split; [lia|]. split.
    + rewrite Ht. simpl. rewrite <- app_assoc. reflexivity.
    + unfold same_store in *. rewrite <- Hs. reflexivity.
Qed.

Lemma pollLoop_all_pending (env : Env) (hash : string) (k : nat) (w : World) :
  (forall a, (a < k)%nat -> getTransaction env hash a = Returns TX_NOT_FOUND) ->
  fst (pollLoop env k 0 hash w) = Throws (Error (TX_TIMEOUT hash)) /\
  trace (snd (pollLoop env k 0 hash w))
    = (trace w ++ replicate k (Rpc "getTransaction"))%list.
Proof.
  intros Hpend.
  pose proof (pollLoop_skips_pending env hash k 0 0 w) as Hskip.
  rewrite Nat.add_0_r in Hskip. rewrite Hskip by (intros; apply Hpend; lia).
  simpl pollLoop. unfold throw. simpl fst. simpl snd.
  split; [reflexivity|].
  destruct (trace_iter_getTransaction k w) as [Ht _]. exact Ht.
Qed.

(** X10. [pollForConfirmation] asks for the transaction status at most ten
    times and writes nothing to the store.  If all ten answers are "not
    found" it throws the timeout error naming the hash, after exactly ten
    requests. *)
Theorem pollForConfirmation_is_bounded (env : Env) (hash : string) (w : World) :
  let r := pollForConfirmation env hash w in
  (exists k, (k <= 10)%nat /\
     trace (snd r) = (trace w ++ replicate k (Rpc "getTransaction"))%list) /\
  same_store w (snd r) /\
  ((forall a, (a < 10)%nat -> getTransaction env hash a = Returns TX_NOT_FOUND) ->
   fst r = Throws (Error (TX_TIMEOUT hash)) /\
   trace (snd r) = (trace w ++ replicate 10 (Rpc "getTransaction"))%list).
Proof.
  intros r. subst r. unfold pollForConfirmation, MAX_POLLS.
  destruct (pollLoop_calls env hash 10 0 w) as (k & Hk & Ht & Hs).
  split; [exists k; split; assumption|]. split; [exact Hs|].
  intros Hpend. exact (pollLoop_all_pending env hash 10 w Hpend).
Qed.

(** X11. The first status that is not "not found" decides
    [pollForConfirmation]: if the attempts before the k-th (k < 10) all
    answer "not found", then a success at attempt k returns the hash, a
    failure throws "failed on-chain", an exception of the request is
    passed on, and in each case no further request is made. *)
Theorem pollForConfirmation_first_terminal_status
    (env : Env) (hash : string) (w : World) (k : nat) :
  (k < 10)%nat ->
  (forall a, (a < k)%nat -> getTransaction env hash a = Returns TX_NOT_FOUND) ->
  let r := pollForConfirmation env hash w in
  (getTransaction env hash k = Returns TX_SUCCESS -> fst r = Returns hash) /\
  (getTransaction env hash k = Returns TX_FAILED ->
     fst r = Throws (Error (TX_FAILED_ON_CHAIN hash))) /\
  (forall e, getTransaction env hash k = Throws e -> fst r = Throws e) /\
  (getTransaction env hash k <> Returns TX_NOT_FOUND ->
     trace (snd r) = (trace w ++ replicate (S k) (Rpc "getTransaction"))%list).
Proof.
  intros Hk Hpend r. subst r. unfold pollForConfirmation, MAX_POLLS.
  replace 10%nat with (k + S (9 - k))%nat by lia.
  rewrite (pollLoop_skips_pending env hash k (S (9 - k)) 0 w)
    by (intros; apply Hpend; lia).
  simpl pollLoop. cbv [bind call emit modify ret throw]. simpl.
  destruct (trace_iter_getTransaction k w) as [Ht _].
  assert (Htr : (trace (Nat.iter k (log_effect (Rpc "getTransaction")) w)
                   ++ [Rpc "getTransaction"])%list
                = (trace w ++ replicate (S k) (Rpc "getTransaction"))%list).
  { rewrite Ht, <- app_assoc. f_equal.
    change [Rpc "getTransaction"] with (replicate 1 (Rpc "getTransaction")).
    rewrite <- replicate_add. f_equal. lia. }
  destruct (getTransaction env hash k) as [[| |]|e]; simpl;
    repeat split; try congruence; try (intros; exact Htr).
Qed.

Lemma pollForConfirmation_first_terminal_status_witness :
  let env :=
    mkEnv 1000 (Returns tt) (getLedgerEntries Fixture.happy)
      (getAccount Fixture.happy) (buildUpgradeTx Fixture.happy)
      (simulateTransaction Fixture.happy)
      (getFeeStats Fixture.happy) (keypairFromSecret Fixture.happy)
      (assembleAndSign Fixture.happy) (sendTransaction Fixture.happy)
      (fun _ a => if (a <? 3)%nat then Returns TX_NOT_FOUND else Returns TX_FAILED)
      (stroopsToXlm Fixture.happy)
      (indexedContractIds Fixture.happy) 0 (fetchEvents Fixture.happy)
      (stepQuery Fixture.happy) in
  fst (pollForConfirmation env "deadbeef" Fixture.seeded)
    = Throws (Error (TX_FAILED_ON_CHAIN "deadbeef")).
Proof.
  intros env.
  destruct (pollForConfirmation_first_terminal_status env "deadbeef"
              Fixture.seeded 3) as (_ & H & _).
  - lia.
  - intros a Ha. simpl.
    destruct a as [|[|[|a]]]; try reflexivity. lia.
  - apply H. reflexivity.
Defined.

(* ===================================================================== *)
(** ** Further properties: the migration                                   *)
(* ===================================================================== *)

(** Whatever the steps do, the loop returns, and when it returns early the
    log has been marked failed. *)
Lemma migrationLoop_settles (env : Env) (id rid : Z) (n : nat) :
  forall i cur w row,
    contract_upgrade_logs w !! id = Some row ->
    exists b w' row',
      migrationLoop env n i id rid cur w = (Returns b, w') /\
      contract_upgrade_logs w' !! id = Some row' /\
      (b = false -> status row' = failed /\ completed_at row' = Some (now env)).
Proof.
  induction n as [|n IH]; intros i cur w row Hrow.
  - exists true, w, row. simpl. repeat split; try assumption; discriminate.
  - destruct (cur !! i) as [s|] eqn:Hs.
    2:{ exists true, w, row. simpl. rewrite Hs.
        repeat split; try assumption; discriminate. }
    rewrite (migrationLoop_iteration env n i id rid cur s row w Hs Hrow).
    set (run := step_set step_running None s).
    set (cur1 := <[i := run]> cur).
    set (w1 := set_logs _ _).
    pose proof (executeStep_effect env run rid w1) as (Hl2 & _).
    destruct (executeStep env run rid w1) as [[[]|e] w2]; simpl in Hl2.
    + assert (Hrow2 : contract_upgrade_logs w2 !! id
                      = Some (log_set_steps cur1 row))
        by (rewrite Hl2; subst w1; simpl; apply lookup_insert_eq).
      cbv zeta. unfold bind at 1.
      rewrite (persistMigrationSteps_present id _ _ w2 Hrow2).
      apply (IH (S i) _ _ (log_set_steps (<[i:=step_completed_of s]> cur1)
                             (log_set_steps cur1 row))).
      simpl. apply lookup_insert_eq.
    + assert (Hrow2 : contract_upgrade_logs w2 !! id
                      = Some (log_set_steps cur1 row))
        by (rewrite Hl2; subst w1; simpl; apply lookup_insert_eq).
      unfold bind at 1.
      rewrite (persistMigrationSteps_present id _ _ w2 Hrow2).
      unfold bind at 1.
      rewrite (updateLog_present id _
                 (log_set_steps (<[i:=step_failed_of e s]> cur1)
                    (log_set_steps cur1 row)))
        by (simpl; apply lookup_insert_eq).
      do 3 eexists. split; [reflexivity|]. simpl.
      split; [apply lookup_insert_eq|]. intros _. split; reflexivity.
Qed.

(** X12. [runMigrationSteps] always returns, so the promise that
    [executeUpgrade] leaves unawaited never rejects.  With no log under the
    id it does nothing; otherwise it leaves the log settled, 'completed' or
    'failed', with completed_at set, whatever the log's status was before
    and whatever the steps do. *)
Theorem runMigrationSteps_always_settles (env : Env) (id : Z) (w : World) :
  let r := runMigrationSteps env id w in
  fst r = Returns tt /\
  (contract_upgrade_logs w !! id = None -> snd r = w) /\
  (forall row, contract_upgrade_logs w !! id = Some row ->
     exists row',
       contract_upgrade_logs (snd r) !! id = Some row' /\
       (status row' = completed \/ status row' = failed) /\
       completed_at row' = Some (now env)).
Proof.
  intros r. remember r as r' eqn:Hr. subst r.
  unfold runMigrationSteps in Hr. unfold bind at 1, get in Hr. simpl in Hr.
  destruct (contract_upgrade_logs w !! id) as [row|] eqn:Hrow.
  2:{ subst r'. repeat split. intros row [=]. }
  destruct (migrationLoop_settles env id (registry_id row)
              (length (migration_steps row)) 0 (migration_steps row) w row Hrow)
    as (b & w' & row' & Hrun & Hrow' & Hb).
  unfold bind in Hr. rewrite Hrun in Hr. destruct b.
  - rewrite (updateLog_present id _ row' w' Hrow') in Hr. subst r'. simpl.
    split; [reflexivity|]. split; [discriminate|].
    intros row0 _. eexists. split; [apply lookup_insert_eq|].
    simpl. split; [left|]; reflexivity.
  - subst r'. simpl. split; [reflexivity|]. split; [discriminate|].
    intros row0 _. exists row'. destruct (Hb eq_refl) as [H1 H2].
    split; [exact Hrow'|]. split; [right; exact H1 | exact H2].
Qed.

Section MigrationSuccess.

Variable env : Env.
Variables (id rid : Z) (steps : list MigrationStep) (w0 : World).

Hypothesis Hall :
  forall i s, steps !! i = Some s ->
    fst (executeStep env s rid w0) = Returns tt.

Lemma migrationLoop_succeeds (n : nat) :
  forall (i : nat) (cur : list MigrationStep) (w : World) (row : UpgradeLog),
    (i + n = length steps)%nat ->
    length cur = length steps ->
    (forall j, (i <= j)%nat -> cur !! j = steps !! j) ->
    contract_upgrade_logs w !! id = Some row ->
    migration_steps row = cur ->
    contract_registry w = contract_registry w0 ->
    exists w' fin es,
      migrationLoop env n i id rid cur w = (Returns true, w') /\
      contract_upgrade_logs w'
        = <[id := log_set_steps fin row]> (contract_upgrade_logs w) /\
      trace w' = (trace w ++ es)%list /\
      attempted_steps es = step_id <$> drop i steps /\
      length fin = length steps /\
      (forall j, (j < i)%nat -> fin !! j = cur !! j) /\
      (forall j s, (i <= j)%nat -> steps !! j = Some s ->
         fin !! j = Some (step_completed_of s)).
Proof.
  induction n as [|n IH]; intros i cur w row Hin Hlen Hcur Hrow Hsteps Hreg.
  - exists w, cur, []. simpl.
    split; [reflexivity|].
    split.
    { symmetry. apply insert_id. rewrite Hrow. f_equal.
      destruct row; simpl in *; subst; reflexivity. }
    split; [symmetry; apply app_nil_r|].
    split; [rewrite drop_ge by lia; reflexivity|].
    split; [exact Hlen|]. split; [reflexivity|].
    intros j s Hj Hs. apply lookup_lt_Some in Hs. lia.
  - assert (Hilen : (i < length steps)%nat) by lia.
    destruct (lookup_lt_is_Some_2 steps i Hilen) as [s Hsi].
    assert (Hs : cur !! i = Some s) by (rewrite Hcur by lia; exact Hsi).
    rewrite (migrationLoop_iteration env n i id rid cur s row w Hs Hrow).
    set (run := step_set step_running None s).
    set (cur1 := <[i := run]> cur).
    set (w1 := set_logs _ _).
    pose proof (executeStep_effect env run rid w1) as (Hl2 & Hr2 & es0 & Ht2 & Ha2).
    pose proof (executeStep_outcome env run s rid w1 w0 eq_refl Hreg) as Ho.
    rewrite (Hall i s Hsi) in Ho.
    destruct (executeStep env run rid w1) as [o w2].
    simpl in Ho, Hl2, Hr2, Ht2. subst o.
    set (cur2 := <[i := step_completed_of s]> cur1).
    assert (Hrow2 : contract_upgrade_logs w2 !! id = Some (log_set_steps cur1 row)).
    { rewrite Hl2. subst w1. simpl. apply lookup_insert_eq. }
    unfold bind at 1.
    rewrite (persistMigrationSteps_present id cur2 _ w2 Hrow2).
    set (w3 := set_logs _ (log_effect _ w2)).
    destruct (IH (S i) cur2 w3 (log_set_steps cur2 (log_set_steps cur1 row)))
      as (w' & fin & es & Hrun & Hlogs & Htr & Hatt & Hflen & Hlow & Hhigh).
    { lia. }
    { subst cur2 cur1. rewrite !length_insert. exact Hlen. }
    { intros j Hj. subst cur2 cur1.
      rewrite !list_lookup_insert_ne by lia. apply Hcur. lia. }
    { subst w3. simpl. apply lookup_insert_eq. }
    { reflexivity. }
    { subst w3. simpl. rewrite Hr2. exact Hreg. }
    exists w', fin, ([DbUpdateUpgradeLog id] ++ es0 ++ [DbUpdateUpgradeLog id] ++ es)%list.
    split; [exact Hrun|].
    split.
    { rewrite Hlogs. subst w3. simpl. rewrite Hl2. subst w1. simpl.
      rewrite !insert_insert_eq. reflexivity. }
    split.
    { rewrite Htr. subst w3. simpl. rewrite Ht2. subst w1. simpl.
      rewrite <- !app_assoc. reflexivity. }
    split.
    { rewrite !attempted_steps_app, Ha2, Hatt. simpl.
      rewrite (drop_S _ _ _ Hsi). reflexivity. }
    split; [exact Hflen|].
    split.
    { intros j Hj. rewrite Hlow by lia. subst cur2 cur1.
      rewrite !list_lookup_insert_ne by lia. reflexivity. }
    intros j s' Hj Hs'. destruct (decide (j = i)) as [->|Hne].
    + rewrite Hlow by lia. subst cur2 cur1.
      rewrite list_lookup_insert_eq by (rewrite length_insert; lia).
      congruence.
    + apply Hhigh; [lia | exact Hs'].
Qed.

End MigrationSuccess.

(** X13. When every step of a log succeeds, [runMigrationSteps] attempts
    the steps once each in their stored order, leaves each 'completed' with
    the success message, and marks the log 'completed' with completed_at
    set; the log's tx_hash and error_message and the registry are as they
    were. *)
Theorem runMigrationSteps_completes_log
    (env : Env) (w : World) (id : Z) (row : UpgradeLog) :
  contract_upgrade_logs w !! id = Some row ->
  (forall i s, migration_steps row !! i = Some s ->
     fst (executeStep env s (registry_id row) w) = Returns tt) ->
  let w' := snd (runMigrationSteps env id w) in
  exists row' es,
    contract_upgrade_logs w' !! id = Some row' /\
    migration_steps row'
      = (fun s => mkMigrationStep (step_id s) (step_name s) step_completed
                    (Some STEP_COMPLETED)) <$> migration_steps row /\
    status row' = completed /\
    completed_at row' = Some (now env) /\
    tx_hash row' = tx_hash row /\
    error_message row' = error_message row /\
    trace w' = (trace w ++ es)%list /\
    attempted_steps es = step_id <$> migration_steps row /\
    contract_registry w' = contract_registry w.
Proof.
  intros Hrow Hall w'.
  destruct (migrationLoop_succeeds env id (registry_id row) (migration_steps row)
              w Hall (length (migration_steps row)) 0%nat (migration_steps row)
              w row)
    as (w1 & fin & es & Hrun & Hlogs & Htr & Hatt & Hlen & _ & Hhigh);
    try reflexivity; try assumption.
  assert (Hw' : w' = snd (updateLog id (log_set_finished completed (now env)) w1)).
  { subst w'. unfold runMigrationSteps.
    unfold bind at 1, get. simpl. rewrite Hrow.
    unfold bind at 1. rewrite Hrun. reflexivity. }
  assert (Hrow1 : contract_upgrade_logs w1 !! id = Some (log_set_steps fin row))
    by (rewrite Hlogs; apply lookup_insert_eq).
  rewrite (updateLog_present id _ _ w1 Hrow1) in Hw'. simpl in Hw'.
  assert (Hfin : fin = step_completed_of <$> migration_steps row).
  { apply list_eq. intros j. rewrite list_lookup_fmap.
    destruct (migration_steps row !! j) as [s|] eqn:Hs; simpl.
    - apply Hhigh; [lia | exact Hs].
    - apply lookup_ge_None in Hs. apply lookup_ge_None. lia. }
  exists (log_set_finished completed (now env) (log_set_steps fin row)),
         (es ++ [DbUpdateUpgradeLog id])%list.
  rewrite Hw'. simpl.
  split; [apply lookup_insert_eq|].
  split; [exact Hfin|].
  split; [reflexivity|]. split; [reflexivity|].
  split; [reflexivity|]. split; [reflexivity|].
  split; [rewrite Htr, <- app_assoc; reflexivity|].
  split.
  { rewrite attempted_steps_app, Hatt. simpl. rewrite app_nil_r. reflexivity. }
  pose proof (migrationLoop_preserves_registry env id (registry_id row)
                (length (migration_steps row)) 0 (migration_steps row) w) as Hp.
  rewrite Hrun in Hp. exact Hp.
Qed.

Lemma runMigrationSteps_completes_log_witness :
  let row := mkUpgradeLog 1 Fixture.hash_a Fixture.hash_b executing None
               (Some "deadbeef") buildDefaultMigrationSteps Fixture.admin
               None None None in
  let w := set_logs {[ 1 := row ]} Fixture.seeded in
  exists row',
    contract_upgrade_logs (snd (runMigrationSteps Fixture.happy 1 w)) !! 1
      = Some row' /\
    status row' = completed /\
    step_status <$> migration_steps row'
      = [step_completed; step_completed; step_completed; step_completed].
Proof.
  intros row w.
  destruct (runMigrationSteps_completes_log Fixture.happy w 1 row)
    as (row' & es & H1 & H2 & H3 & _).
  - reflexivity.
  - intros i s Hs.
    destruct i as [|[|[|[|i]]]]; simpl in Hs; try discriminate;
      injection Hs as <-; reflexivity.
  - exists row'. split; [exact H1|]. split; [exact H3|].
    rewrite H2. reflexivity.
Defined.

(* ===================================================================== *)
(** ** Further properties: what the operations leave alone                 *)
(* ===================================================================== *)

Section Evolves.
Context (R : World -> World -> Prop) `{!PreOrder R}.

Lemma evolves_ret {A} (a : A) : evolves R (ret a).
Proof. intros w; simpl; reflexivity. Qed.

Lemma evolves_throw {A} (e : Exn) : evolves R (@throw A e).
Proof. intros w; simpl; reflexivity. Qed.

Lemma evolves_bind {A B} (m : M A) (k : A -> M B) :
  evolves R m -> (forall a, evolves R (k a)) -> evolves R (bind m k).
Proof.
  intros Hm Hk w. unfold bind. specialize (Hm w).
  destruct (m w) as [[a|e] w1]; simpl in *; [|exact Hm].
  etransitivity; [exact Hm | apply Hk].
Qed.

Lemma evolves_try_catch {A} (m : M A) (h : Exn -> M A) :
  evolves R m -> (forall e, evolves R (h e)) -> evolves R (try_catch m h).
Proof.
  intros Hm Hh w. unfold try_catch. specialize (Hm w).
  destruct (m w) as [[a|e] w1]; simpl in *; [exact Hm|].
  etransitivity; [exact Hm | apply Hh].
Qed.

(** A relation that only looks at the upgrade logs holds across anything
    that leaves the logs alone. *)
Lemma evolves_of_preserves {A} (m : M A) :
  (forall w w', contract_upgrade_logs w' = contract_upgrade_logs w -> R w w') ->
  preserves contract_upgrade_logs m -> evolves R m.
Proof. intros HR Hm w. apply HR, Hm. Qed.

End Evolves.

#[global] Instance logs_kept_preorder : PreOrder logs_kept.
Proof.
  split.
  - intros w id l H. exists l. split; [exact H | reflexivity].
  - intros w1 w2 w3 H12 H23 id l H.
    destruct (H12 id l H) as (l2 & H2 & E2).
    destruct (H23 id l2 H2) as (l3 & H3 & E3).
    exists l3. split; [exact H3 | congruence].
Qed.

#[global] Instance logs_untouched_except_preorder (id0 : Z) :
  PreOrder (logs_untouched_except id0).
Proof.
  split.
  - intros w id _. reflexivity.
  - intros w1 w2 w3 H12 H23 id Hne. rewrite (H23 id Hne). apply H12, Hne.
Qed.

Lemma logs_kept_same_logs (w w' : World) :
  contract_upgrade_logs w' = contract_upgrade_logs w -> logs_kept w w'.
Proof. intros H id l Hl. exists l. rewrite H. split; [exact Hl | reflexivity]. Qed.

Lemma logs_untouched_same_logs (id0 : Z) (w w' : World) :
  contract_upgrade_logs w' = contract_upgrade_logs w ->
  logs_untouched_except id0 w w'.
Proof. intros H id _. rewrite H. reflexivity. Qed.

Lemma updateLogWhere_logs (id : Z) (cond : UpgradeLog -> bool)
    (f : UpgradeLog -> UpgradeLog) (w : World) :
  contract_upgrade_logs (snd (updateLogWhere id cond f w)) =
  match contract_upgrade_logs w !! id with
  | Some l => if cond l then <[id := f l]> (contract_upgrade_logs w)
              else contract_upgrade_logs w
  | None => contract_upgrade_logs w
  end.
Proof.
  cbv [updateLogWhere bind get emit modify ret]. simpl.
  destruct (contract_upgrade_logs w !! id) as [l|].
  - destruct (cond l); reflexivity.
  - destruct (pg_fits PG_BIGINT_MAX id); reflexivity.
Qed.

Lemma updateLog_logs (id : Z) (f : UpgradeLog -> UpgradeLog) (w : World) :
  contract_upgrade_logs (snd (updateLog id f w)) =
  match contract_upgrade_logs w !! id with
  | Some l => <[id := f l]> (contract_upgrade_logs w)
  | None => contract_upgrade_logs w
  end.
Proof.
  destruct (contract_upgrade_logs w !! id) as [l|] eqn:Hl.
  - rewrite (updateLog_present id f l w Hl). reflexivity.
  - rewrite (updateLog_absent id f w Hl).
    destruct (pg_fits PG_BIGINT_MAX id); reflexivity.
Qed.

Lemma updateLogWhere_kept (id : Z) (cond : UpgradeLog -> bool)
    (f : UpgradeLog -> UpgradeLog) :
  (forall l, log_identity (f l) = log_identity l) ->
  evolves logs_kept (updateLogWhere id cond f).
Proof.
  intros Hf w id' l' Hl'. rewrite updateLogWhere_logs.
  destruct (contract_upgrade_logs w !! id) as [l|] eqn:Hl;
    [|exists l'; split; [exact Hl' | reflexivity]].
  destruct (cond l); [|exists l'; split; [exact Hl' | reflexivity]].
  destruct (decide (id' = id)) as [->|Hne].
  - rewrite lookup_insert_eq. exists (f l). split; [reflexivity|].
    rewrite Hf. congruence.
  - rewrite lookup_insert_ne by congruence.
    exists l'. split; [exact Hl' | reflexivity].
Qed.

Lemma updateLog_kept (id : Z) (f : UpgradeLog -> UpgradeLog) :
  (forall l, log_identity (f l) = log_identity l) ->
  evolves logs_kept (updateLog id f).
Proof.
  intros Hf. unfold updateLog. apply evolves_bind; [typeclasses eauto| |].
  - apply updateLogWhere_kept, Hf.
  - intros _. apply evolves_ret. typeclasses eauto.
Qed.

Lemma updateLogWhere_untouched (id : Z) (cond : UpgradeLog -> bool)
    (f : UpgradeLog -> UpgradeLog) :
  evolves (logs_untouched_except id) (updateLogWhere id cond f).
Proof.
  intros w id' Hne. rewrite updateLogWhere_logs.
  destruct (contract_upgrade_logs w !! id) as [l|]; [|reflexivity].
  destruct (cond l); [|reflexivity].
  apply lookup_insert_ne. congruence.
Qed.

Lemma updateLog_untouched (id : Z) (f : UpgradeLog -> UpgradeLog) :
  evolves (logs_untouched_except id) (updateLog id f).
Proof.
  intros w id' Hne. rewrite updateLog_logs.
  destruct (contract_upgrade_logs w !! id) as [l|]; [|reflexivity].
  apply lookup_insert_ne. congruence.
Qed.

Lemma insertUpgradeLog_cases (row : UpgradeLog) (w : World) :
  let r := insertUpgradeLog row w in
  let idn := upgrade_logs_seq w + 1 in
  ((exists e, fst r = Throws e) /\
   contract_upgrade_logs (snd r) = contract_upgrade_logs w) \/
  (fst r = Returns idn /\
   contract_upgrade_logs w !! idn = None /\
   contract_upgrade_logs (snd r) = <[idn := row]> (contract_upgrade_logs w)).
Proof.
  cbv [insertUpgradeLog bind get modify throw ret emit]. simpl.
  destruct (pg_wasm_hash_check (previous_wasm_hash row)); simpl;
    [|left; split; [eexists|]; reflexivity].
  destruct (pg_wasm_hash_check (new_wasm_hash row)); simpl;
    [|left; split; [eexists|]; reflexivity].
  destruct (String.eqb (new_wasm_hash row) (previous_wasm_hash row)); simpl;
    [left; split; [eexists|]; reflexivity|].
  destruct (contract_upgrade_logs w !! (upgrade_logs_seq w + 1)) eqn:Hf; simpl.
  - left; split; [eexists|]; reflexivity.
  - right. repeat split.
Qed.

Lemma validateWasmHash_preserves_logs (env : Env) (id : Z) (h : string) :
  preserves contract_upgrade_logs (validateWasmHash env id h).
Proof. unfold validateWasmHash, getContract. pres. Qed.

Lemma attemptSimulation_preserves_logs (env : Env) (c : ContractRecord)
    (h who : string) :
  preserves contract_upgrade_logs (attemptSimulation env c h who).
Proof. unfold attemptSimulation, rawRpcSimulate. pres. Qed.

Lemma executeStep_preserves_logs (env : Env) (s : MigrationStep) (rid : Z) :
  preserves contract_upgrade_logs (executeStep env s rid).
Proof. intros w. apply (executeStep_effect env s rid w). Qed.

Lemma submitUpgrade_preserves_logs (env : Env) (l : UpgradeLog) (id : Z)
    (secret : string) :
  preserves contract_upgrade_logs (submitUpgrade env l id secret).
Proof. intros w. apply (submitUpgrade_registry env l id secret w). Qed.

Lemma pollOnce_preserves {X} (f : World -> X) (env : Env) :
  (forall e w, f (log_effect e w) = f w) ->
  (forall rows n w, f (set_events rows n w) = f w) ->
  (forall s w, f (set_index_state s w) = f w) ->
  (forall b w, f (set_lock b w) = f w) ->
  preserves f (pollOnce env).
Proof.
  intros He Hs Hi Hk. unfold pollOnce.
  apply preserves_bind; [apply preserves_get|intros w].
  destruct (lock w); [apply preserves_ret|].
  apply preserves_bind; [apply preserves_modify, Hk|intros _].
  apply preserves_finally; [|apply Hk].
  apply preserves_try_catch; [|intros; apply preserves_emit; intros; apply He].
  unfold pollCycle.
  destruct (length (indexedContractIds env) =? 0)%nat; [apply preserves_ret|].
  apply preserves_bind; [apply preserves_get|intros w1].
  apply preserves_bind; [apply preserves_call, He|intros events].
  destruct (length events =? 0)%nat; [apply preserves_ret|].
  apply preserves_bind.
  - apply indexEvents_preserves; assumption.
  - intros m. destruct (m >? lastIndexedOf env w1); [|apply preserves_ret].
    unfold updateIndexState.
    apply preserves_bind; [apply preserves_get|intros w2].
    apply preserves_bind; [apply preserves_emit; intros; apply He|intros _].
    destruct (contract_event_index_state w2 !! INDEX_STATE_KEY);
      [apply preserves_modify, Hi | apply preserves_ret].
Qed.

Lemma simulateUpgrade_kept (env : Env) (id : Z) (h who : string)
    (notes : option string) :
  evolves logs_kept (simulateUpgrade env id h who notes).
Proof.
  unfold simulateUpgrade.
  apply evolves_bind; [typeclasses eauto| |].
  { apply evolves_of_preserves; [apply logs_kept_same_logs|].
    unfold getContract. pres. }
  intros [c|]; [|apply evolves_throw; typeclasses eauto].
  apply evolves_bind; [typeclasses eauto| |].
  { intros w.
    destruct (insertUpgradeLog_cases (pendingLog id c h who notes) w)
      as [[_ H]|(_ & Hnone & H)].
    - apply logs_kept_same_logs, H.
    - intros id' l' Hl'. rewrite H. exists l'. split; [|reflexivity].
      rewrite lookup_insert_ne; [exact Hl'|]. congruence. }
  intros idn.
  apply evolves_bind; [typeclasses eauto| |].
  { apply evolves_of_preserves; [apply logs_kept_same_logs|].
    apply attemptSimulation_preserves_logs. }
  intros sim.
  apply evolves_bind; [typeclasses eauto| |].
  { unfold persistSimulation. apply evolves_throw. typeclasses eauto. }
  intros _. apply evolves_ret. typeclasses eauto.
Qed.

Lemma loadExecutableLog_preserves {X} (f : World -> X) (id : Z) :
  preserves f (loadExecutableLog id).
Proof. intros w. rewrite loadExecutableLog_run. repeat case_match; reflexivity. Qed.

Lemma executeLoadedLog_evolves (R : World -> World -> Prop) `{!PreOrder R}
    (env : Env) (log : UpgradeLog) (id : Z) (secret : string) :
  (forall w w', contract_upgrade_logs w' = contract_upgrade_logs w -> R w w') ->
  (forall f, (forall l, log_identity (f l) = log_identity l) ->
             evolves R (updateLog id f)) ->
  evolves R (executeLoadedLog env log id secret).
Proof.
  intros HR Hupd. unfold executeLoadedLog.
  apply evolves_bind; [typeclasses eauto|apply Hupd; reflexivity|intros _].
  apply evolves_bind; [typeclasses eauto| |].
  - apply evolves_try_catch; [typeclasses eauto| |].
    + apply evolves_of_preserves; [exact HR|].
      apply submitUpgrade_preserves_logs.
    + intros e.
      apply evolves_bind; [typeclasses eauto|apply Hupd; reflexivity|intros _].
      apply evolves_throw. typeclasses eauto.
  - intros txHash.
    apply evolves_bind; [typeclasses eauto|apply Hupd; reflexivity|intros _].
    apply evolves_bind; [typeclasses eauto| |].
    + apply evolves_of_preserves; [exact HR|]. pres.
    + intros _. apply evolves_ret. typeclasses eauto.
Qed.

Lemma executeUpgrade_evolves (R : World -> World -> Prop) `{!PreOrder R}
    (env : Env) (id : Z) (secret : string) :
  (forall w w', contract_upgrade_logs w' = contract_upgrade_logs w -> R w w') ->
  (forall f, (forall l, log_identity (f l) = log_identity l) ->
             evolves R (updateLog id f)) ->
  evolves R (executeUpgrade env id secret).
Proof.
  intros HR Hupd. unfold executeUpgrade.
  apply evolves_bind; [typeclasses eauto| |].
  { apply evolves_of_preserves; [exact HR | apply loadExecutableLog_preserves]. }
  intros log. apply executeLoadedLog_evolves; assumption.
Qed.

Lemma migrationLoop_kept (env : Env) (id rid : Z) (n : nat) :
  forall i steps, evolves logs_kept (migrationLoop env n i id rid steps).
Proof.
  induction n as [|n IH]; intros i steps; simpl;
    [apply evolves_ret; typeclasses eauto|].
  destruct (steps !! i) as [s|]; [|apply evolves_ret; typeclasses eauto].
  unfold persistMigrationSteps.
  apply evolves_bind; [typeclasses eauto|apply updateLog_kept; reflexivity|intros _].
  apply evolves_bind; [typeclasses eauto| |].
  - apply evolves_try_catch; [typeclasses eauto| |].
    + apply evolves_bind; [typeclasses eauto| |].
      * apply evolves_of_preserves; [apply logs_kept_same_logs|].
        apply executeStep_preserves_logs.
      * intros; apply evolves_ret. typeclasses eauto.
    + intros e.
      apply evolves_bind;
        [typeclasses eauto|apply updateLog_kept; reflexivity|intros _].
      apply evolves_bind;
        [typeclasses eauto|apply updateLog_kept; reflexivity|intros _].
      apply evolves_ret. typeclasses eauto.
  - intros [steps'|[]]; [|apply evolves_ret; typeclasses eauto].
    apply evolves_bind;
      [typeclasses eauto|apply updateLog_kept; reflexivity|intros _].
    apply IH.
Qed.

(** X14. The upgrade logs are an audit trail: no operation of the service
    or cycle of the indexer deletes a log, and none changes the contract a
    log belongs to, its previous or new hash, its initiator or its notes. *)
Theorem upgrade_logs_are_an_audit_trail :
  (forall env id h, evolves logs_kept (validateWasmHash env id h)) /\
  (forall env id h who notes,
     evolves logs_kept (simulateUpgrade env id h who notes)) /\
  (forall env id secret, evolves logs_kept (executeUpgrade env id secret)) /\
  (forall env id, evolves logs_kept (runMigrationSteps env id)) /\
  (forall env id, evolves logs_kept (cancelUpgrade env id)) /\
  (forall env, evolves logs_kept (pollOnce env)).
Proof.
  split; [|split; [|split; [|split; [|split]]]].
  - intros env id h. apply evolves_of_preserves;
      [apply logs_kept_same_logs | apply validateWasmHash_preserves_logs].
  - apply simulateUpgrade_kept.
  - intros env id secret. apply executeUpgrade_evolves;
      [typeclasses eauto | apply logs_kept_same_logs | apply updateLog_kept].
  - intros env id. unfold runMigrationSteps.
    apply evolves_bind; [typeclasses eauto| |].
    { apply evolves_of_preserves; [apply logs_kept_same_logs | apply preserves_get]. }
    intros w. destruct (contract_upgrade_logs w !! id);
      [|apply evolves_ret; typeclasses eauto].
    apply evolves_bind; [typeclasses eauto|apply migrationLoop_kept|].
    intros [|]; [apply updateLog_kept; reflexivity
                |apply evolves_ret; typeclasses eauto].
  - intros env id. unfold cancelUpgrade.
    apply evolves_bind; [typeclasses eauto| |].
    + apply updateLogWhere_kept. reflexivity.
    + intros n. destruct (n =? 0)%nat;
        [apply evolves_throw | apply evolves_ret]; typeclasses eauto.
  - intros env. apply evolves_of_preserves; [apply logs_kept_same_logs|].
    apply pollOnce_preserves; reflexivity.
Qed.

(** [simulateUpgrade] never touches a log that exists already. *)
Lemma simulateUpgrade_existing_logs (env : Env) (id0 : Z) (h who : string)
    (notes : option string) (w : World) (id : Z) (l : UpgradeLog) :
  contract_upgrade_logs w !! id = Some l ->
  contract_upgrade_logs (snd (simulateUpgrade env id0 h who notes w)) !! id
    = Some l.
Proof.
  intros Hl.
  remember (simulateUpgrade env id0 h who notes w) as r eqn:Hr.
  unfold simulateUpgrade in Hr. unfold bind at 1 in Hr.
  pose proof (selectById_preserves contract_upgrade_logs "integer"
                PG_INTEGER_MAX contract_registry id0 w) as Hsel.
  unfold getContract in Hr.
  destruct (selectById "integer" PG_INTEGER_MAX contract_registry id0 w)
    as [[[c|]|e] w0] eqn:Hget; simpl in Hsel;
    [|subst r; simpl; rewrite Hsel; exact Hl
     |subst r; simpl; rewrite Hsel; exact Hl].
  assert (w0 = w) as ->.
  { unfold selectById in Hget. repeat case_match; congruence. }
  unfold bind at 1 in Hr.
  pose proof (insertUpgradeLog_cases (pendingLog id0 c h who notes) w) as Hins.
  cbv zeta in Hins.
  destruct (insertUpgradeLog (pendingLog id0 c h who notes) w) as [[idn|e] w1];
    simpl in Hins.
  2:{ subst r. simpl. destruct Hins as [[_ H]|(H & _)]; [|discriminate].
      rewrite H. exact Hl. }
  destruct Hins as [[[e He] _]|(Hid & Hnone & Hlogs1)]; [discriminate|].
  injection Hid as ->.
  assert (Hne : id <> upgrade_logs_seq w + 1) by congruence.
  unfold bind at 1 in Hr.
  pose proof (attemptSimulation_preserves_logs env c h who w1) as Hatt.
  destruct (attemptSimulation env c h who w1) as [[sim|e] w2]; simpl in Hatt;
    subst r; simpl; rewrite Hatt, Hlogs1, lookup_insert_ne by congruence;
    exact Hl.
Qed.

(** [simulateUpgrade], by what it leaves in the log table. *)
Lemma simulateUpgrade_cases (env : Env) (id : Z) (h who : string)
    (notes : option string) (w : World) :
  let r := simulateUpgrade env id h who notes w in
  let idn := upgrade_logs_seq w + 1 in
  ((exists e, fst r = Throws e) /\
   contract_upgrade_logs (snd r) = contract_upgrade_logs w)
  \/
  (exists c,
     contract_registry w !! id = Some c /\
     fst r = Throws (pg_inconsistent_types "$1") /\
     contract_upgrade_logs w !! idn = None /\
     contract_upgrade_logs (snd r)
       = <[idn := pendingLog id c h who notes]> (contract_upgrade_logs w)).
Proof.
  intros r idn. remember r as r' eqn:Hr. subst r.
  unfold simulateUpgrade in Hr. unfold bind at 1 in Hr.
  unfold getContract, selectById in Hr.
  destruct (contract_registry w !! id) as [c|] eqn:Hc.
  2:{ left. destruct (pg_fits PG_INTEGER_MAX id); subst r';
        (split; [eexists; reflexivity | reflexivity]). }
  unfold bind at 1 in Hr.
  pose proof (insertUpgradeLog_cases (pendingLog id c h who notes) w) as Hins.
  cbv zeta in Hins. fold idn in Hins.
  destruct (insertUpgradeLog (pendingLog id c h who notes) w) as [[idn'|e] w1];
    simpl in Hins.
  2:{ left. subst r'. simpl. destruct Hins as [[_ H]|(H & _)]; [|discriminate].
      split; [eexists; reflexivity | exact H]. }
  destruct Hins as [[[e He] _]|(Hid & Hnone & Hlogs1)]; [discriminate|].
  injection Hid as ->.
  unfold bind at 1 in Hr.
  destruct (attemptSimulation_returns env c h who w1)
    as (sim & w2 & rpcs & Hsim & Hstore & _).
  rewrite Hsim in Hr.
  apply (f_equal contract_upgrade_logs) in Hstore. simpl in Hstore.
  right. exists c. subst r'. simpl.
  split; [reflexivity|]. split; [reflexivity|]. split; [exact Hnone|].
  rewrite <- Hstore. exact Hlogs1.
Qed.

(** X26. [simulateUpgrade] never returns a result.  Every call ends in an
    exception: the contract is not registered, the INSERT of the log is
    refused, or the last UPDATE is refused, which happens whenever the call
    gets that far.  The registry and the logs that existed are as before;
    a log that the call has created is the row of the next id, 'pending',
    without simulation result, error message or completed_at. *)
Theorem simulateUpgrade_never_returns
    (env : Env) (id : Z) (h who : string) (notes : option string) (w : World) :
  let r := simulateUpgrade env id h who notes w in
  (exists e, fst r = Throws e) /\
  contract_registry (snd r) = contract_registry w /\
  (forall idl l, contract_upgrade_logs w !! idl = Some l ->
                 contract_upgrade_logs (snd r) !! idl = Some l) /\
  (forall idl l,
     contract_upgrade_logs w !! idl = None ->
     contract_upgrade_logs (snd r) !! idl = Some l ->
     idl = upgrade_logs_seq w + 1 /\
     fst r = Throws (pg_inconsistent_types "$1") /\
     status l = pending /\
     simulation_result l = None /\
     error_message l = None /\
     completed_at l = None).
Proof.
  intros r.
  pose proof (simulateUpgrade_cases env id h who notes w) as Hcases.
  cbv zeta in Hcases. fold r in Hcases.
  split.
  { destruct Hcases as [[H _]|(c & _ & H & _)]; [exact H | eexists; exact H]. }
  split; [apply simulateUpgrade_preserves_registry|].
  split; [intros idl l; apply simulateUpgrade_existing_logs|].
  intros idl l Hnone Hsome.
  destruct Hcases as [[_ H]|(c & _ & Hthrow & _ & H)]; rewrite H in Hsome.
  - congruence.
  - destruct (decide (idl = upgrade_logs_seq w + 1)) as [->|Hne].
    + rewrite lookup_insert_eq in Hsome. injection Hsome as <-.
      repeat split. exact Hthrow.
    + rewrite lookup_insert_ne in Hsome by congruence. congruence.
Qed.

Lemma executeUpgrade_rejected_unchanged (env : Env) (w : World) (id : Z)
    (secret : string) (l : UpgradeLog) :
  contract_upgrade_logs w !! id = Some l ->
  status l <> simulated ->
  status l <> confirmed ->
  snd (executeUpgrade env id secret w) = w.
Proof.
  intros Hl H1 H2.
  destruct (contract_registry w !! registry_id l) as [c|] eqn:Hc.
  - rewrite (executeUpgrade_guard_rejects env w id secret l c Hl Hc H1 H2).
    reflexivity.
  - unfold executeUpgrade. unfold bind at 1.
    rewrite loadExecutableLog_run, Hl, Hc. reflexivity.
Qed.

(** X15. A settled log is immutable for callers whose calls do not
    overlap: once a log is 'completed', 'failed' or 'cancelled', no call
    of validateWasmHash, simulateUpgrade, executeUpgrade or cancelUpgrade
    that starts afterwards, for this or any other id, and no poll cycle
    changes any of its fields.  An [executeUpgrade] on this log that had
    passed its guard before the log was settled is the exception: it
    marks the log 'executing' without a test and leaves it 'executing' or
    'failed'; on another log it leaves this one alone. *)
Theorem settled_logs_are_immutable (w : World) (id : Z) (l : UpgradeLog) :
  contract_upgrade_logs w !! id = Some l ->
  settled l ->
  (forall env id0 h,
     contract_upgrade_logs (snd (validateWasmHash env id0 h w)) !! id = Some l) /\
  (forall env id0 h who notes,
     contract_upgrade_logs (snd (simulateUpgrade env id0 h who notes w)) !! id
       = Some l) /\
  (forall env id0 secret,
     contract_upgrade_logs (snd (executeUpgrade env id0 secret w)) !! id
       = Some l) /\
  (forall env id0,
     contract_upgrade_logs (snd (cancelUpgrade env id0 w)) !! id = Some l) /\
  (forall env,
     contract_upgrade_logs (snd (pollOnce env w)) !! id = Some l) /\
  (forall env log secret,
     exists s,
       (s = executing \/ s = failed) /\
       status <$> contract_upgrade_logs
                    (snd (executeLoadedLog env log id secret w)) !! id
         = Some s) /\
  (forall env log id0 secret,
     id0 <> id ->
     contract_upgrade_logs (snd (executeLoadedLog env log id0 secret w)) !! id
       = Some l).
Proof.
  intros Hl Hset.
  assert (Hns : status l <> simulated /\ status l <> confirmed /\
                cancellable l = false).
  { unfold cancellable. destruct Hset as [H|[H|H]]; rewrite H;
      repeat split; discriminate. }
  destruct Hns as (Hn1 & Hn2 & Hnc).
  split; [|split; [|split; [|split; [|split; [|split]]]]].
  - intros env id0 h. rewrite validateWasmHash_preserves_logs. exact Hl.
  - intros env id0 h who notes. apply simulateUpgrade_existing_logs, Hl.
  - intros env id0 secret. destruct (decide (id = id0)) as [<-|Hne].
    + rewrite (executeUpgrade_rejected_unchanged env w id secret l Hl Hn1 Hn2).
      exact Hl.
    + rewrite (executeUpgrade_evolves (logs_untouched_except id0) env id0 secret
                 (logs_untouched_same_logs id0)
                 (fun f _ => updateLog_untouched id0 f) w id Hne).
      exact Hl.
  - intros env id0. rewrite cancelUpgrade_run.
    destruct (decide (id = id0)) as [<-|Hne].
    + rewrite Hl, Hnc. exact Hl.
    + destruct (contract_upgrade_logs w !! id0) as [l0|].
      * destruct (cancellable l0); simpl; [|exact Hl].
        rewrite lookup_insert_ne by congruence. exact Hl.
      * destruct (pg_fits PG_BIGINT_MAX id0); exact Hl.
  - intros env.
    rewrite (pollOnce_preserves contract_upgrade_logs env) by reflexivity.
    exact Hl.
  - intros env log secret.
    destruct (executeLoadedLog_status env log l id secret w Hl)
      as [(e & _ & H & _)|(txHash & c2 & who & _ & H & _)].
    + exists failed. split; [right; reflexivity | exact H].
    + exists executing. split; [left; reflexivity | exact H].
  - intros env log id0 secret Hne.
    rewrite (executeLoadedLog_evolves (logs_untouched_except id0) env log id0
               secret (logs_untouched_same_logs id0)
               (fun f _ => updateLog_untouched id0 f) w id)
      by congruence.
    exact Hl.
Qed.

Lemma settled_logs_are_immutable_witness :
  let l := mkUpgradeLog 1 Fixture.hash_a Fixture.hash_b cancelled None None
             buildDefaultMigrationSteps Fixture.admin None None (Some 900) in
  let w := set_logs {[ 1 := l ]} Fixture.seeded in
  contract_upgrade_logs
    (snd (executeUpgrade Fixture.happy 1 "SADMINSECRET" w)) !! 1 = Some l.
Proof.
  intros l w.
  destruct (settled_logs_are_immutable w 1 l) as (_ & _ & H & _).
  - reflexivity.
  - right; right. reflexivity.
  - apply H.
Defined.

(* ===================================================================== *)
(** ** Further properties: the indexer                                     *)
(* ===================================================================== *)

Lemma pollOnce_returns (env : Env) (w : World) :
  fst (pollOnce env w) = Returns tt.
Proof.
  unfold pollOnce, bind at 1, get. simpl.
  destruct (lock w); [reflexivity|].
  unfold bind, modify, finally, try_catch, emit, modify. simpl.
  destruct (pollCycle env (set_lock true w)) as [[[]|e] w1]; reflexivity.
Qed.

(** X16. A poll cycle never throws and always leaves the lock as it found
    it, also when the request or an insert fails.  While the lock is held
    a call returns at once without touching the world; with no contract
    configured it sends no request and writes nothing. *)
Theorem pollOnce_releases_the_lock (env : Env) (w : World) :
  let r := pollOnce env w in
  fst r = Returns tt /\
  lock (snd r) = lock w /\
  (lock w = true -> snd r = w) /\
  (indexedContractIds env = [] -> same_store w (snd r) /\ trace (snd r) = trace w).
Proof.
  intros r. subst r.
  split; [apply pollOnce_returns|].
  pose proof (pollOnce_table env w) as Ht. cbv zeta in Ht.
  split; [|split].
  - destruct Ht as [[Hl ->]|(Hl & Hl' & _)]; [reflexivity | congruence].
  - intros Hl. destruct Ht as [[_ H]|(Hl' & _)]; [exact H | congruence].
  - intros Hnone. clear Ht.
    remember (pollOnce env w) as r eqn:Hr.
    unfold pollOnce, bind at 1, get in Hr. simpl in Hr.
    destruct (lock w) eqn:Hl; [subst r; split; reflexivity|].
    unfold bind, modify, finally, try_catch, pollCycle in Hr. simpl in Hr.
    rewrite Hnone in Hr. simpl in Hr. subst r. simpl.
    unfold same_store, store. simpl. rewrite Hl.
    split; reflexivity.
Qed.

Lemma eventIdOf_nonempty (ev : RpcContractEvent) : eventIdOf ev <> "".
Proof.
  unfold eventIdOf, Js.or_else.
  assert (Hfb : forall a b : string, (a ++ "-" ++ b)%string <> "").
  { intros a b. destruct a; discriminate. }
  destruct (rpc_id ev) as [s|]; [|apply Hfb].
  destruct (String.eqb_spec s ""); [apply Hfb | assumption].
Qed.

(** The loop only appends, and what it appends is built from considered
    events of the page. *)
Lemma indexEvents_appends (env : Env) (events : list RpcContractEvent) :
  forall m w, exists added,
    contract_events (snd (indexEvents env events m w))
      = (contract_events w ++ added)%list /\
    Forall (indexed_row (now env)) added /\
    Forall (fun r => payload r ∈ events) added /\
    contract_events_seq w <= contract_events_seq (snd (indexEvents env events m w)).
Proof.
  induction events as [|event rest IH]; intros m w; simpl.
  - exists []. rewrite app_nil_r. repeat split; try constructor. lia.
  - assert (Hskip : forall m',
              exists added,
                contract_events (snd (indexEvents env rest m' w))
                  = (contract_events w ++ added)%list /\
                Forall (indexed_row (now env)) added /\
                Forall (fun r => payload r ∈ event :: rest) added /\
                contract_events_seq w
                  <= contract_events_seq (snd (indexEvents env rest m' w))).
    { intros m'. destruct (IH m' w) as (added & H1 & H2 & H3 & H4).
      exists added. repeat split; try assumption.
      eapply Forall_impl; [exact H3|]. intros r Hr. right. exact Hr. }
    destruct (String.eqb (contractIdOf event) "") eqn:Hc; [apply Hskip|].
    destruct (ledgerSequenceOf event <=? 0) eqn:Hl; [apply Hskip|].
    clear Hskip.
    unfold bind. rewrite insertContractEvent_run. simpl.
    destruct (pg_fits PG_BIGINT_MAX (ledgerSequenceOf event)); simpl.
    2:{ exists []. simpl. rewrite app_nil_r.
        repeat split; try constructor. lia. }
    destruct (bool_decide ((eventIdOf event, contractIdOf event)
                             ∈ event_key <$> contract_events w)) eqn:Hkey.
    + match goal with
      | |- context [indexEvents env rest ?m' ?w'] =>
          destruct (IH m' w') as (added & H1 & H2 & H3 & H4)
      end.
      simpl in H1, H4. exists added. repeat split; try assumption; [|lia].
      eapply Forall_impl; [exact H3|]. intros r Hr. right. exact Hr.
    + destruct (bool_decide (contract_events_seq w + 1
                               ∈ row_id <$> contract_events w)) eqn:Hpk.
      * exists []. simpl. rewrite app_nil_r.
        repeat split; try constructor. lia.
      * match goal with
        | |- context [indexEvents env rest ?m' ?w'] =>
            destruct (IH m' w') as (added & H1 & H2 & H3 & H4)
        end.
        simpl in H1, H4. eexists (_ :: added).
        split; [rewrite H1, <- app_assoc; reflexivity|].
        split.
        { constructor; [|exact H2]. unfold indexed_row, considered. simpl.
          rewrite Hc. simpl. apply Z.leb_gt in Hl.
          repeat split. apply Z.ltb_lt. lia. }
        split; [|lia].
        constructor; [simpl; left|].
        eapply Forall_impl; [exact H3|]. intros r Hr. right. exact Hr.
Qed.

(** What a cycle that reaches the loop leaves in the checkpoint table. *)
Lemma pollOnce_appends (env : Env) (w : World) :
  exists added,
    contract_events (snd (pollOnce env w)) = (contract_events w ++ added)%list /\
    Forall (indexed_row (now env)) added /\
    contract_events_seq w <= contract_events_seq (snd (pollOnce env w)) /\
    (added <> [] ->
     exists evs,
       getEventsOutcome env (startLedgerOf env w) = Returns evs /\
       Forall (fun r => payload r ∈ evs) added).
Proof.
  pose proof (pollOnce_table env w) as Ht. cbv zeta in Ht.
  destruct Ht as [[_ ->]|(_ & _ & [(_ & He & Hs)|(evs & wa & _ & Hf & Hea & Hsa & He & Hs)])].
  - exists []. rewrite app_nil_r. repeat split; try constructor; [lia|congruence].
  - exists []. rewrite app_nil_r, He, Hs.
    repeat split; try constructor; [lia|congruence].
  - destruct (indexEvents_appends env evs (lastIndexedOf env w) wa)
      as (added & H1 & H2 & H3 & H4).
    exists added. rewrite He, Hs, H1, Hea. rewrite Hsa in H4.
    repeat split; try assumption.
    intros _. exists evs. split; assumption.
Qed.

(** X17. The event table is append-only under the indexer: a poll cycle
    never changes or removes a stored row, it only adds rows after the
    existing ones, and the id sequence never goes back. *)
Theorem pollOnce_is_append_only (env : Env) (w : World) :
  let w' := snd (pollOnce env w) in
  contract_events w `prefix_of` contract_events w' /\
  (forall i r, contract_events w !! i = Some r -> contract_events w' !! i = Some r) /\
  contract_events_seq w <= contract_events_seq w'.
Proof.
  intros w'. subst w'.
  destruct (pollOnce_appends env w) as (added & H1 & _ & H3 & _).
  split; [exists added; exact H1|].
  split; [|exact H3].
  intros i r Hr. rewrite H1. apply lookup_app_l_Some. exact Hr.
Qed.

(** X18. Every row a poll cycle adds comes from an event of the page it
    fetched that was not skipped, and agrees with that event, which it
    keeps as payload: it carries the event's contract id, which is not
    empty, its ledger sequence, which is positive, an event id that is not
    empty, the type extracted from the event, a transaction hash that is
    absent rather than empty, and the time of the cycle. *)
Theorem pollOnce_rows_agree_with_events (env : Env) (w : World) (r : ContractEventRow) :
  r ∈ contract_events (snd (pollOnce env w)) ->
  r ∉ contract_events w ->
  (exists evs, getEventsOutcome env (startLedgerOf env w) = Returns evs /\
               payload r ∈ evs) /\
  indexed_row (now env) r /\
  ev_contract_id r <> "" /\
  0 < ledger_sequence r /\
  event_id r <> "" /\
  ev_tx_hash r <> Some "".
Proof.
  intros Hin Hnew.
  destruct (pollOnce_appends env w) as (added & H1 & H2 & _ & H4).
  rewrite H1 in Hin. apply elem_of_app in Hin as [Hin|Hin]; [contradiction|].
  assert (Hne : added <> []) by (intros ->; inversion Hin).
  destruct (H4 Hne) as (evs & Hf & Hp).
  rewrite Forall_forall in H2, Hp.
  pose proof (H2 r Hin) as Hrow.
  split; [exists evs; split; [exact Hf | apply Hp, Hin]|].
  split; [exact Hrow|].
  destruct Hrow as (Hcons & Hcid & Heid & _ & Hled & Htx & _).
  unfold considered in Hcons. apply andb_true_iff in Hcons as [Hc Hl].
  split.
  { rewrite Hcid. intros Hempty. rewrite Hempty in Hc. discriminate. }
  split; [rewrite Hled; apply Z.ltb_lt; exact Hl|].
  split; [rewrite Heid; apply eventIdOf_nonempty|].
  rewrite Htx. unfold Js.truthy.
  destruct (rpc_txHash (payload r)) as [s|]; [|discriminate].
  destruct (String.eqb_spec s ""); simpl; [discriminate|congruence].
Qed.

Lemma pollOnce_rows_agree_with_events_witness :
  let r := mkEventRow 1 "0001-1" "CBULK" "contract"
             (Fixture.ev (Some "0001-1") "CBULK" 12 (Some "aa11"))
             12 (Some "aa11") 1000 in
  r ∈ contract_events (snd (pollOnce Fixture.happy Fixture.seeded)) /\
  indexed_row 1000 r.
Proof.
  intros r.
  assert (Hin : r ∈ contract_events (snd (pollOnce Fixture.happy Fixture.seeded))).
  { vm_compute. left. }
  split; [exact Hin|].
  destruct (pollOnce_rows_agree_with_events Fixture.happy Fixture.seeded r Hin)
    as (_ & H & _).
  - simpl. apply not_elem_of_nil.
  - exact H.
Defined.





(* ===================================================================== *)
(** ** Further properties: starting the indexer                            *)
(* ===================================================================== *)



(* ===================================================================== *)
(** ** Further properties: the controller                                  *)
(* ===================================================================== *)

Lemma handleError_answers (e : Exn) (w : World) :
  exists r, fst (ContractUpgradeController.handleError e w) = Returns r /\
            well_answered r.
Proof.
  unfold ContractUpgradeController.handleError.
  destruct e as [msg|msg|]; simpl.
  - destruct (Js.includes "invalid" msg || Js.includes "Invalid" msg
              || Js.includes "Invalid secret" msg) eqn:H1.
    { eexists; split; [reflexivity|]. right; left. simpl. auto. }
    destruct (Js.includes "not found" msg) eqn:H2.
    { eexists; split; [reflexivity|]. right; right; left. simpl. eauto. }
    destruct (Js.includes "Cannot execute" msg
              || Js.includes "cannot be cancelled" msg) eqn:H3.
    { eexists; split; [reflexivity|]. right; right; right; left. simpl. eauto. }
    eexists; split; [reflexivity|]. right; right; right; right. simpl. auto.
  - eexists; split; [reflexivity|]. right; left. simpl. auto.
  - eexists; split; [reflexivity|]. right; right; right; right. simpl. auto.
Qed.

Lemma try_catch_handleError_answers (m : M Response) (w : World) :
  (forall r w', m w = (Returns r, w') ->
                http_status r = 200 /\ forall msg, body r <> BodyError msg) ->
  exists r,
    fst (try_catch m ContractUpgradeController.handleError w) = Returns r /\
    well_answered r.
Proof.
  intros Hok. unfold try_catch.
  destruct (m w) as [[r|e] w'] eqn:Hm.
  - exists r. split; [reflexivity|]. left. exact (Hok r w' eq_refl).
  - apply handleError_answers.
Qed.

Lemma bind_returns {A B} (m : M A) (k : A -> M B) (w w' : World) (b : B) :
  bind m k w = (Returns b, w') ->
  exists a w1, m w = (Returns a, w1) /\ k a w1 = (Returns b, w').
Proof.
  unfold bind. destruct (m w) as [[a|e] w1]; intros H; [eauto | discriminate].
Qed.



(** X22. The four writing endpoints always answer: no thrown value
    escapes a handler, whatever the database holds and the network does.
    The answer is 200 with a result, 400 with one of two fixed texts, 404
    or 409 with the message that was thrown, or 500 with the fixed text
    "Internal Server Error" (an unclassified message is never sent to the
    client). *)
Theorem handlers_always_answer
    (env : Env) (id : Z) (h who secret : string) (notes : option string)
    (w : World) :
  (exists r, fst (ContractUpgradeController.validateHash env id h w) = Returns r
             /\ well_answered r) /\
  (exists r, fst (ContractUpgradeController.simulateUpgrade env id h who notes w)
               = Returns r /\ well_answered r) /\
  (exists r, fst (ContractUpgradeController.executeUpgrade env id secret w)
               = Returns r /\ well_answered r) /\
  (exists r, fst (ContractUpgradeController.cancelUpgrade env id w) = Returns r
             /\ well_answered r).
Proof.
  split; [|split; [|split]];
    apply try_catch_handleError_answers; intros r w' Hm;
    repeat (apply bind_returns in Hm; destruct Hm as (? & ? & _ & Hm));
    unfold ret in Hm; injection Hm as <- _; simpl; split;
    try reflexivity; intros msg; discriminate.
Qed.

(* ===================================================================== *)
(** ** Further properties: the indexer's configuration                     *)
(* ===================================================================== *)

Section IndexerConfigFacts.
Import IndexerConfig.

Lemma spreadSet_spec (values : list string) :
  forall seen,
    NoDup (spreadSet seen values) /\
    (forall v, v ∈ spreadSet seen values <-> v ∈ values /\ v ∉ seen) /\
    (length (spreadSet seen values) <= length values)%nat.
Proof.
  induction values as [|x rest IH]; intros seen; simpl.
  - split; [constructor|]. split; [|lia].
    intros v. split; [intros H; inversion H | intros [H _]; inversion H].
  - destruct (bool_decide (x ∈ seen)) eqn:Hx.
    + apply bool_decide_eq_true in Hx.
      destruct (IH seen) as (Hnd & Hin & Hlen).
      split; [exact Hnd|]. split; [|lia].
      intros v. rewrite Hin, elem_of_cons. split.
      * intros [H1 H2]. auto.
      * intros [[->|H1] H2]; [contradiction | auto].
    + apply bool_decide_eq_false in Hx.
      destruct (IH (x :: seen)) as (Hnd & Hin & Hlen).
      split; [|split; [|simpl; lia]].
      * constructor; [|exact Hnd].
        rewrite Hin. intros [_ H]. apply H. left.
      * intros v. rewrite !elem_of_cons, Hin, elem_of_cons. split.
        -- intros [->|[H1 H2]]; [auto|]. split; [auto|].
           intros H. apply H2. right. exact H.
        -- intros [[->|H1] H2]; [auto|].
           destruct (decide (v = x)) as [->|Hne]; [auto|].
           right. split; [exact H1|]. intros [?|?]; [contradiction|auto].
Qed.

(** A white space character takes at least one byte, and is recognised
    from the bytes it is made of. *)
Lemma skip_white_space_shorter (s r : string) :
  skip_white_space s = Some r -> (String.length r < String.length s)%nat.
Proof.
  unfold skip_white_space.
  destruct s as [|x [|y [|z s3]]]; intros H; repeat case_match; simplify_eq;
    simpl; lia.
Qed.

Lemma append_cons (c : ascii) (s v : string) :
  (String c s ++ v)%string = String c (s ++ v).
Proof. reflexivity. Qed.

Lemma append_nil (v : string) : ("" ++ v)%string = v.
Proof. reflexivity. Qed.

Lemma skip_white_space_app (s r v : string) :
  skip_white_space s = Some r ->
  skip_white_space (s ++ v) = Some (r ++ v)%string.
Proof.
  destruct s as [|x [|y [|z s3]]]; rewrite ?append_cons, ?append_nil;
    cbn -[white_space_1 white_space_2 white_space_3]; intros H;
    repeat case_match; simplify_eq; rewrite ?append_nil; reflexivity.
Qed.

Lemma skip_all_white_space_fuel (fuel1 : nat) :
  forall fuel2 s,
    (String.length s <= fuel1)%nat -> (String.length s <= fuel2)%nat ->
    skip_all_white_space fuel1 s = skip_all_white_space fuel2 s.
Proof.
  induction fuel1 as [|fuel1 IH]; intros fuel2 s H1 H2.
  - destruct s; [|simpl in H1; lia]. destruct fuel2; reflexivity.
  - destruct fuel2 as [|fuel2].
    + destruct s; [reflexivity | simpl in H2; lia].
    + simpl. destruct (skip_white_space s) as [r|] eqn:Hs; [|reflexivity].
      apply skip_white_space_shorter in Hs. apply IH; lia.
Qed.

Lemma trimStart_skip (s r : string) :
  skip_white_space s = Some r -> trimStart s = trimStart r.
Proof.
  intros Hs. unfold trimStart.
  pose proof (skip_white_space_shorter s r Hs) as Hlen.
  destruct (String.length s) as [|n] eqn:Hn; [lia|].
  simpl. rewrite Hs. apply skip_all_white_space_fuel; lia.
Qed.

Lemma trimStart_fixed (s : string) :
  skip_white_space s = None -> trimStart s = s.
Proof.
  intros Hs. unfold trimStart.
  destruct (String.length s); simpl; [|rewrite Hs]; reflexivity.
Qed.

(** What [trimStart] returns does not start with white space. *)
Lemma trimStart_done (s : string) : skip_white_space (trimStart s) = None.
Proof.
  remember (String.length s) as n eqn:Hn.
  revert s Hn. induction (lt_wf n) as [n _ IH]. intros s ->.
  destruct (skip_white_space s) as [r|] eqn:Hs.
  - rewrite (trimStart_skip s r Hs).
    apply (IH (String.length r)); [|reflexivity].
    apply skip_white_space_shorter, Hs.
  - rewrite (trimStart_fixed s Hs). exact Hs.
Qed.

Lemma is_blank_skip (s r : string) :
  skip_white_space s = Some r -> is_blank s = is_blank r.
Proof. intros Hs. unfold is_blank. rewrite (trimStart_skip s r Hs). reflexivity. Qed.

Lemma is_blank_fixed (s : string) :
  skip_white_space s = None -> s <> "" -> is_blank s = false.
Proof.
  intros Hs Hne. unfold is_blank. rewrite (trimStart_fixed s Hs).
  apply String.eqb_neq. exact Hne.
Qed.

(** White space followed by white space is white space. *)
Lemma is_blank_app (u v : string) :
  is_blank u = true -> is_blank (u ++ v) = is_blank v.
Proof.
  remember (String.length u) as n eqn:Hn.
  revert u Hn. induction (lt_wf n) as [n _ IH]. intros u -> Hu.
  destruct u as [|c u']; [rewrite append_nil; reflexivity|].
  destruct (skip_white_space (String c u')) as [r|] eqn:Hs.
  - rewrite (is_blank_skip _ _ (skip_white_space_app _ _ v Hs)).
    apply (IH (String.length r)); [|reflexivity|].
    + apply skip_white_space_shorter, Hs.
    + rewrite <- (is_blank_skip _ _ Hs). exact Hu.
  - rewrite (is_blank_fixed _ Hs) in Hu by discriminate. discriminate.
Qed.

(** [trimEnd] cuts off a suffix that is white space only. *)
Lemma trimEnd_split (s : string) :
  exists v, s = (trimEnd s ++ v)%string /\ is_blank v = true.
Proof.
  induction s as [|c rest (v & Hv & Hb)].
  - exists ""%string. split; reflexivity.
  - cbn [trimEnd]. destruct (is_blank (String c rest)) eqn:Hs.
    + exists (String c rest). split; [reflexivity | exact Hs].
    + exists v. split; [|exact Hb]. rewrite append_cons. f_equal. exact Hv.
Qed.

Lemma trimEnd_idempotent (s : string) : trimEnd (trimEnd s) = trimEnd s.
Proof.
  induction s as [|c rest IH]; [reflexivity|].
  cbn [trimEnd]. destruct (is_blank (String c rest)) eqn:Hs; [reflexivity|].
  cbn [trimEnd]. rewrite IH.
  destruct (is_blank (String c (trimEnd rest))) eqn:Hs'; [|reflexivity].
  exfalso. destruct (trimEnd_split rest) as (v & Hv & Hb).
  pose proof (is_blank_app (String c (trimEnd rest)) v Hs') as Happ.
  rewrite append_cons, <- Hv in Happ. congruence.
Qed.

(** What [trimEnd] returns does not start with white space either, when
    the text did not. *)
Lemma trimEnd_keeps_start (s : string) :
  skip_white_space s = None -> skip_white_space (trimEnd s) = None.
Proof.
  intros Hs. destruct (trimEnd_split s) as (v & Hv & _).
  destruct (skip_white_space (trimEnd s)) as [r|] eqn:Hr; [|reflexivity].
  apply (skip_white_space_app _ _ v) in Hr. rewrite <- Hv in Hr. congruence.
Qed.

Lemma trim_idempotent (s : string) : trim (trim s) = trim s.
Proof.
  unfold trim.
  rewrite (trimStart_fixed (trimEnd (trimStart s)))
    by (apply trimEnd_keeps_start, trimStart_done).
  apply trimEnd_idempotent.
Qed.

(** The space, the no-break space and the byte order mark are stripped at
    both ends; other bytes are kept. *)
Example trim_unicode :
  let nbsp := String (ascii_of_nat 194) (String (ascii_of_nat 160) "") in
  let bom := String (ascii_of_nat 239) (String (ascii_of_nat 187)
               (String (ascii_of_nat 191) "")) in
  trim (nbsp ++ " CBULK a " ++ bom ++ nbsp)%string = "CBULK a"%string.
Proof. vm_compute. reflexivity. Qed.

End IndexerConfigFacts.

Lemma getIndexedContractIds_spec (bulk vesting revenue : option string) :
  let ids := IndexerConfig.getIndexedContractIds bulk vesting revenue in
  NoDup ids /\
  (length ids <= 3)%nat /\
  (forall c, c ∈ ids <->
             c <> "" /\
             exists v, v ∈ [bulk; vesting; revenue] /\
                       c = IndexerConfig.trim (Js.or_else v "")).
Proof.
  intros ids. subst ids. unfold IndexerConfig.getIndexedContractIds.
  set (vals := List.map _ _).
  destruct (spreadSet_spec (List.filter (fun v => Js.truthy (Some v)) vals) [])
    as (Hnd & Hin & Hlen).
  split; [exact Hnd|]. split.
  - etransitivity; [exact Hlen|].
    etransitivity; [apply filter_length_le|]. unfold vals. simpl. lia.
  - intros c. rewrite Hin. rewrite list_elem_of_In, filter_In.
    unfold vals. rewrite in_map_iff. unfold Js.truthy.
    split.
    + intros [[(v & <- & Hv) Hne] _].
      apply negb_true_iff, String.eqb_neq in Hne.
      split; [exact Hne|]. exists v. split; [apply list_elem_of_In, Hv | reflexivity].
    + intros [Hne (v & Hv & ->)].
      split; [|apply not_elem_of_nil].
      split; [exists v; split; [reflexivity | apply list_elem_of_In, Hv]|].
      apply negb_true_iff, String.eqb_neq. exact Hne.
Qed.

(** X23. The contract ids handed to the getEvents request are a clean
    set: no id twice (the same address configured for two of the three
    variables is sent once), no empty id, at most three, each without
    white space around it; and they are exactly the non-blank configured
    values, trimmed. *)
Theorem getIndexedContractIds_is_a_clean_set
    (bulk vesting revenue : option string) :
  let ids := IndexerConfig.getIndexedContractIds bulk vesting revenue in
  NoDup ids /\
  (length ids <= 3)%nat /\
  (forall c, c ∈ ids -> c <> "" /\ IndexerConfig.trim c = c) /\
  (forall c, c ∈ ids <->
             c <> "" /\
             exists v, v ∈ [bulk; vesting; revenue] /\
                       c = IndexerConfig.trim (Js.or_else v "")).
Proof.
  intros ids. subst ids.
  destruct (getIndexedContractIds_spec bulk vesting revenue)
    as (Hnd & Hlen & Hchar).
  split; [exact Hnd|]. split; [exact Hlen|]. split; [|exact Hchar].
  intros c Hc. apply Hchar in Hc. destruct Hc as [Hne (v & _ & ->)].
  split; [exact Hne | apply trim_idempotent].
Qed.

(** X24. An indexer with no contract configured is inert: when each of
    the three variables is unset or blank, a poll cycle sends no request,
    writes nothing and leaves the world as it found it. *)
Theorem unconfigured_indexer_is_inert
    (bulk vesting revenue : option string) (env : Env) (w : World) :
  (forall v, v ∈ [bulk; vesting; revenue] ->
             IndexerConfig.trim (Js.or_else v "") = "") ->
  pollOnce (IndexerConfig.configured bulk vesting revenue env) w
    = (Returns tt, w).
Proof.
  intros Hblank.
  assert (Hids : IndexerConfig.getIndexedContractIds bulk vesting revenue = []).
  { destruct (getIndexedContractIds_spec bulk vesting revenue) as (_ & _ & Hchar).
    destruct (IndexerConfig.getIndexedContractIds bulk vesting revenue)
      as [|c rest]; [reflexivity|].
    exfalso. destruct (proj1 (Hchar c)) as [Hne (v & Hv & ->)]; [left|].
    apply Hne, Hblank, Hv. }
  unfold pollOnce, bind, get, modify, finally, try_catch, pollCycle. simpl.
  rewrite Hids. simpl.
  destruct w as [? ? ? ? ? ? ? [|] ?]; reflexivity.
Qed.

Lemma unconfigured_indexer_is_inert_witness :
  pollOnce (IndexerConfig.configured (Some "  ") None (Some "") Fixture.happy)
           Fixture.seeded
    = (Returns tt, Fixture.seeded).
Proof.
  apply unconfigured_indexer_is_inert.
  intros v Hv.
  repeat (apply elem_of_cons in Hv; destruct Hv as [->|Hv]; [reflexivity|]).
  inversion Hv.
Defined.

(* ===================================================================== *)
(** ** Further properties: the routes                                      *)
(* ===================================================================== *)

Section RouteFacts.
Import ContractUpgradeRoutes.

(** [find] on a list where at most one element passes depends on the
    elements only, not on their order. *)
Lemma find_filter_head {A} (p : A -> bool) (l : list A) :
  List.find p l = head (List.filter p l).
Proof.
  induction l as [|x l IH]; simpl; [reflexivity|].
  destruct (p x); [reflexivity | exact IH].
Qed.

Lemma filter_Permutation_bool {A} (p : A -> bool) (l l' : list A) :
  Permutation l l' -> Permutation (List.filter p l) (List.filter p l').
Proof.
  induction 1 as [|x l l' _ IH|x y l|l l' l'' _ IH1 _ IH2]; simpl.
  - constructor.
  - destruct (p x); [constructor|]; exact IH.
  - destruct (p x), (p y); try reflexivity. constructor.
  - etransitivity; eassumption.
Qed.

Lemma find_Permutation {A} (p : A -> bool) (l l' : list A) :
  (length (List.filter p l) <= 1)%nat ->
  Permutation l l' ->
  List.find p l' = List.find p l.
Proof.
  intros Hlen Hperm. rewrite !find_filter_head.
  apply (filter_Permutation_bool p) in Hperm.
  destruct (List.filter p l) as [|x [|y rest]]; simpl in Hlen; [| |lia].
  - apply Permutation_nil in Hperm. rewrite Hperm. reflexivity.
  - apply Permutation_length_1_inv in Hperm. rewrite Hperm. reflexivity.
Qed.

Lemma at_most_one_route (m : Method) (url : list string) :
  (length (List.filter (accepts m url) router) <= 1)%nat.
Proof.
  unfold router, accepts.
  destruct m; destruct url as [|a [|b [|c [|d url]]]];
    cbn -[String.eqb Js.toLowerCase];
    repeat match goal with
           | |- context [Js.toLowerCase (String ?x ?s)] =>
               let v := eval vm_compute in (Js.toLowerCase (String x s)) in
               change (Js.toLowerCase (String x s)) with v
           end;
    repeat match goal with
           | |- context [String.eqb ?x ?y] =>
               let E := fresh "E" in
               destruct (String.eqb x y) eqn:E;
               [apply String.eqb_eq in E|];
               cbn -[String.eqb Js.toLowerCase]
           end;
    try lia; congruence.
Qed.

End RouteFacts.

(** X25. The route table is unambiguous: no request is accepted by two
    routes.  So the handler a request reaches does not depend on the order
    in which the routes were registered, and every route that accepts a
    request is the one that serves it: the log-scoped routes under
    /upgrade-logs are not shadowed by the /:registryId routes registered
    before them. *)
Theorem routes_do_not_depend_on_registration_order
    (routes : list ContractUpgradeRoutes.Route)
    (m : ContractUpgradeRoutes.Method) (url : list string) :
  Permutation ContractUpgradeRoutes.router routes ->
  ContractUpgradeRoutes.dispatch routes m url
    = ContractUpgradeRoutes.dispatch ContractUpgradeRoutes.router m url /\
  (forall r, r ∈ ContractUpgradeRoutes.router ->
             ContractUpgradeRoutes.accepts m url r = true ->
             ContractUpgradeRoutes.dispatch routes m url
               = Some (ContractUpgradeRoutes.route_handler r)).
Proof.
  intros Hperm. unfold ContractUpgradeRoutes.dispatch.
  rewrite (find_Permutation _ _ _ (at_most_one_route m url) Hperm).
  split; [reflexivity|].
  intros r Hr Hacc. rewrite find_filter_head.
  pose proof (at_most_one_route m url) as Hlen.
  assert (Hin : In r (List.filter (ContractUpgradeRoutes.accepts m url)
                        ContractUpgradeRoutes.router))
    by (apply filter_In; split; [apply list_elem_of_In, Hr | exact Hacc]).
  destruct (List.filter (ContractUpgradeRoutes.accepts m url)
              ContractUpgradeRoutes.router) as [|x [|y rest]];
    simpl in Hlen, Hin; [contradiction| |lia].
  destruct Hin as [->|[]]. reflexivity.
Qed.

Lemma routes_do_not_depend_on_registration_order_witness :
  ContractUpgradeRoutes.dispatch (rev ContractUpgradeRoutes.router)
    ContractUpgradeRoutes.POST ["upgrade-logs"; "7"; "execute"]
  = Some ContractUpgradeRoutes.executeUpgrade.
Proof.
  destruct (routes_do_not_depend_on_registration_order
              (rev ContractUpgradeRoutes.router)
              ContractUpgradeRoutes.POST ["upgrade-logs"; "7"; "execute"]
              (Permutation_rev _)) as [_ H].
  apply (H (ContractUpgradeRoutes.mkRoute ContractUpgradeRoutes.POST
              [ContractUpgradeRoutes.Literal "upgrade-logs";
               ContractUpgradeRoutes.Param "logId";
               ContractUpgradeRoutes.Literal "execute"]
              ContractUpgradeRoutes.executeUpgrade)).
  - apply list_elem_of_In. simpl. do 5 right. left. reflexivity.
  - reflexivity.
Defined.
